(** * Road network planner of generative-town: a shallow embedding

    The planner keeps a two-layer tile grid ([GridState], grid-state.ts)
    over a sprite catalog built from the fixed spritesheet layout
    (layout.ts, spritesheet-phase.ts).  Tools mutate the shared grid:
    drawRoad (draw-road.ts), connectRoads (connect-roads.ts) and
    placeAsset (place-asset.ts).  JavaScript numbers used as coordinates
    are integers here ([Z]); the "x,y" string keys of the road sets are
    modelled by the pairs they encode. *)

From Stdlib Require Import ZArith Lia List Permutation QArith Qround Relation_Operators Ascii.
From stdpp Require Import base list strings pretty.
Import ListNotations.
Open Scope Z_scope.

(* ================================================================= *)
(** ** Types (types.ts, types/primitives.ts) *)

Inductive Direction := north | south | east | west.
Inductive SpriteCategory := CatGround | CatBuilding | CatProp | CatWall | CatMarker.
Inductive ConnectivityType := CNone | Path | Edge | Corner | Intersection | Cap.
Inductive Layer := LGround | LObject.
Inductive Anchor := top_left | bottom_center | center.

#[global] Instance Direction_eq_dec : EqDecision Direction.
Proof. solve_decision. Defined.
#[global] Instance SpriteCategory_eq_dec : EqDecision SpriteCategory.
Proof. solve_decision. Defined.
#[global] Instance ConnectivityType_eq_dec : EqDecision ConnectivityType.
Proof. solve_decision. Defined.
#[global] Instance Layer_eq_dec : EqDecision Layer.
Proof. solve_decision. Defined.

Record Placement := mkPlacement {
  pl_layer : Layer;
  walkable : bool;
  anchor : Anchor
}.

Record Connectivity := mkConnectivity {
  ctype : ConnectivityType;
  connects : list Direction
}.

Record Sprite := mkSprite {
  id : string;
  category : SpriteCategory;
  col : Z; row : Z; w : Z; h : Z;
  description : string;
  placement : Placement;
  connectivity : Connectivity
}.

#[global] Instance Sprite_inhabited : Inhabited Sprite :=
  populate (mkSprite "" CatMarker 0 0 0 0 "" (mkPlacement LGround false top_left)
                     (mkConnectivity CNone [])).

Record MapCell := mkMapCell { assetId : string; cell_layer : Layer }.

(** [GridState]: width, height, the catalog ([metadata.sprites]) and the
    two layers, each an array of [height] rows of [width] cells. *)
Record GridState := mkGrid {
  width : Z;
  height : Z;
  sprites : list Sprite;
  ground : list (list (option MapCell));
  objects : list (list (option MapCell))
}.

(** Errors thrown by [GridState] methods. *)
Inductive GridError :=
  | UnknownSprite (assetId : string)
  | OutOfBounds (x y : Z).

(** Array.prototype.includes on directions. *)
Definition includes (l : list Direction) (d : Direction) : bool :=
  bool_decide (d ∈ l).

(* ================================================================= *)
(** ** GridState (grid-state.ts) *)

(** constructor: [height] rows of [width] nulls on both layers *)
Definition empty_layer (width height : Z) : list (list (option MapCell)) :=
  replicate (Z.to_nat height) (replicate (Z.to_nat width) None).

Definition newGridState (width height : Z) (spr : list Sprite) : GridState :=
  mkGrid width height spr (empty_layer width height) (empty_layer width height).

(** [getSprite]: [sprites.find(s => s.id === id)] *)
Definition getSprite (g : GridState) (i : string) : option Sprite :=
  List.find (fun s => bool_decide (id s = i)) (sprites g).

(** [getSpriteOrThrow] *)
Definition getSpriteOrThrow (g : GridState) (i : string) : GridError + Sprite :=
  match getSprite g i with
  | Some s => inr s
  | None => inl (UnknownSprite i)
  end.

Definition out_of_bounds (g : GridState) (x y : Z) : bool :=
  (x <? 0) || (x >=? width g) || (y <? 0) || (y >=? height g).

Definition layer_of (g : GridState) (l : Layer) : list (list (option MapCell)) :=
  match l with LGround => ground g | LObject => objects g end.

Definition with_layer (g : GridState) (l : Layer)
    (t : list (list (option MapCell))) : GridState :=
  match l with
  | LGround => mkGrid (width g) (height g) (sprites g) t (objects g)
  | LObject => mkGrid (width g) (height g) (sprites g) (ground g) t
  end.

(** [setTile]: the sprite is validated first, then the bounds; only the
    anchor cell is written, and only when row [y] exists. *)
Definition setTile (g : GridState) (x y : Z) (a : string) (l : Layer)
    : GridError + GridState :=
  match getSpriteOrThrow g a with
  | inl e => inl e
  | inr _ =>
      if out_of_bounds g x y then inl (OutOfBounds x y)
      else
        let target := layer_of g l in
        match target !! Z.to_nat y with
        | Some r =>
            inr (with_layer g l
                   (<[Z.to_nat y := <[Z.to_nat x := Some (mkMapCell a l)]> r]> target))
        | None => inr g
        end
  end.

(** [getTile]: [row?.[x] ?? null] *)
Definition getTile (g : GridState) (x y : Z) (l : Layer) : option MapCell :=
  if out_of_bounds g x y then None
  else
    match layer_of g l !! Z.to_nat y with
    | Some r => match r !! Z.to_nat x with Some c => c | None => None end
    | None => None
    end.

(** [isRoadSprite] (draw-road.ts, connect-roads.ts) *)
Definition isRoadSprite (s : Sprite) : bool :=
  match ctype (connectivity s) with
  | Path | Corner | Intersection | Cap => true
  | _ => false
  end.

(** [isRoadAt] *)
Definition isRoadAt (g : GridState) (x y : Z) : bool :=
  match getTile g x y LGround with
  | None => false
  | Some t =>
      match getSprite g (assetId t) with
      | None => false
      | Some s => isRoadSprite s
      end
  end.

(** [getSpritesWithConnections]: same length and every requested
    direction included. *)
Definition getSpritesWithConnections (g : GridState) (dirs : list Direction)
    : list Sprite :=
  List.filter (fun s =>
            let cs := connects (connectivity s) in
            (Nat.eqb (length cs) (length dirs)) && forallb (includes cs) dirs)
         (sprites g).

(** [findMatchingRoadSprite] (draw-road.ts; connect-roads.ts is the same
    function written as [roadMatches[0]]) *)
Definition findMatchingRoadSprite (g : GridState) (conns : list Direction)
    : option Sprite :=
  head (List.filter (fun s => bool_decide (category s = CatGround) && isRoadSprite s)
               (getSpritesWithConnections g conns)).

(* ================================================================= *)
(** ** Grid mutation with exceptions

    The tools call [GridState] methods on a shared mutable grid; a thrown
    error keeps the writes made before it.  [GM] is a state monad over the
    grid whose results may be a [GridError]. *)

Definition GM (A : Type) : Type := GridState -> (GridError + A) * GridState.

#[global] Instance GM_ret : MRet GM := fun A a g => (inr a, g).
#[global] Instance GM_bind : MBind GM := fun A B k m g =>
  match m g with
  | (inl e, g') => (inl e, g')
  | (inr a, g') => k a g'
  end.

Definition gget : GM GridState := fun g => (inr g, g).

Definition setTileM (x y : Z) (a : string) (l : Layer) : GM unit := fun g =>
  match setTile g x y a l with
  | inl e => (inl e, g)
  | inr g' => (inr tt, g')
  end.

(* ================================================================= *)
(** ** Directions (draw-road.ts, connect-roads.ts) *)

(** [Object.entries(DIRECTION_OFFSETS)] order *)
Definition all_directions : list Direction := [north; south; east; west].

Definition DIRECTION_OFFSETS (d : Direction) : Z * Z :=
  match d with
  | north => (0, -1)
  | south => (0, 1)
  | east => (1, 0)
  | west => (-1, 0)
  end.

Definition OPPOSITE_DIRECTION (d : Direction) : Direction :=
  match d with
  | north => south
  | south => north
  | east => west
  | west => east
  end.

(** [generateManhattanPath]: the two while loops.  Each loop runs exactly
    [|to - from|] times, which is the fuel given to it. *)
Fixpoint move_x (fuel : nat) (x y toX : Z) : list (Z * Z) * Z :=
  if bool_decide (x = toX) then ([], x)
  else match fuel with
       | O => ([], x)
       | S f =>
           let '(p, x') := move_x f (x + (if x <? toX then 1 else -1)) y toX in
           ((x, y) :: p, x')
       end.

Fixpoint move_y (fuel : nat) (x y toY : Z) : list (Z * Z) * Z :=
  if bool_decide (y = toY) then ([], y)
  else match fuel with
       | O => ([], y)
       | S f =>
           let '(p, y') := move_y f x (y + (if y <? toY then 1 else -1)) toY in
           ((x, y) :: p, y')
       end.

Definition generateManhattanPath (fromX fromY toX toY : Z) : list (Z * Z) :=
  let '(p1, x) := move_x (Z.abs_nat (toX - fromX)) fromX fromY toX in
  let '(p2, _) := move_y (Z.abs_nat (toY - fromY)) x fromY toY in
  p1 ++ p2 ++ [(toX, toY)].

(** [getDirectionBetween] *)
Definition getDirectionBetween (fromX fromY toX toY : Z) : option Direction :=
  let dx := toX - fromX in
  let dy := toY - fromY in
  if (dx =? 1) && (dy =? 0) then Some east
  else if (dx =? -1) && (dy =? 0) then Some west
  else if (dx =? 0) && (dy =? 1) then Some south
  else if (dx =? 0) && (dy =? -1) then Some north
  else None.

(** [getAdjacentRoadConnections] *)
Definition getAdjacentRoadConnections (g : GridState) (x y : Z) : list Direction :=
  List.filter (fun d =>
    let '(dx, dy) := DIRECTION_OFFSETS d in
    let nx := x + dx in
    let ny := y + dy in
    if out_of_bounds g nx ny then false
    else match getTile g nx ny LGround with
         | None => false
         | Some t =>
             match getSprite g (assetId t) with
             | None => false
             | Some s =>
                 isRoadSprite s && includes (connects (connectivity s)) (OPPOSITE_DIRECTION d)
             end
         end) all_directions.

(** [getPathConnections]: [path[index - 1]] is undefined at index 0. *)
Definition getPathConnections (path : list (Z * Z)) (i : nat) : list Direction :=
  match path !! i with
  | None => []
  | Some (cx, cy) =>
      let from_prev :=
        match i with
        | O => []
        | S j => match path !! j with
                 | Some (px, py) =>
                     match getDirectionBetween cx cy px py with Some d => [d] | None => [] end
                 | None => []
                 end
        end in
      let from_next :=
        match path !! S i with
        | Some (nx, ny) =>
            match getDirectionBetween cx cy nx ny with Some d => [d] | None => [] end
        | None => []
        end in
      from_prev ++ from_next
  end.

(** [[...new Set(l)]]: first occurrences, in order *)
Fixpoint dedup_aux (seen l : list Direction) : list Direction :=
  match l with
  | [] => []
  | d :: r => if includes seen d then dedup_aux seen r else d :: dedup_aux (seen ++ [d]) r
  end.
Definition dedup (l : list Direction) : list Direction := dedup_aux [] l.

(** [updateAdjacentRoad] (identical in draw-road.ts and connect-roads.ts) *)
Definition updateAdjacentRoad (x y : Z) (nc : Direction) : GM bool :=
  g ← gget;
  match getTile g x y LGround with
  | None => mret false
  | Some tile =>
      match getSprite g (assetId tile) with
      | None => mret false
      | Some s =>
          if negb (isRoadSprite s) then mret false else
          let cur := connects (connectivity s) in
          if includes cur nc then mret false else
          match findMatchingRoadSprite g (cur ++ [nc]) with
          | Some ns =>
              if bool_decide (id ns <> assetId tile)
              then setTileM x y (id ns) LGround ;; mret true
              else mret false
          | None => mret false
          end
      end
  end.

(** [updateAdjacentRoads] (draw-road.ts) *)
Fixpoint updateAdjacentRoads (x y : Z) (placed : list Direction) : GM nat :=
  match placed with
  | [] => mret 0%nat
  | d :: rest =>
      let '(dx, dy) := DIRECTION_OFFSETS d in
      g ← gget;
      if out_of_bounds g (x + dx) (y + dy) then updateAdjacentRoads x y rest
      else
        updateAdjacentRoad (x + dx) (y + dy) (OPPOSITE_DIRECTION d) ≫= fun b : bool =>
        updateAdjacentRoads x y rest ≫= fun n : nat =>
        mret (if b then S n else n)
  end.

(* ================================================================= *)
(** ** Fixed spritesheet layout (layout.ts) and the merge of the LLM's
    ids and descriptions into it (spritesheet-phase.ts) *)

Record SpriteSlot := mkSlot {
  slot_col : Z; slot_row : Z; slot_w : Z; slot_h : Z;
  slot_category : SpriteCategory;
  slot_placement : Placement;
  slot_connectivity : Connectivity;
  hint : string
}.

Definition roadConnections : list (list Direction * ConnectivityType * string) := [
  ([east; west], Path, "horizontal road");
  ([north; south], Path, "vertical road");
  ([north; east], Corner, "road corner NE");
  ([north; west], Corner, "road corner NW");
  ([south; east], Corner, "road corner SE");
  ([south; west], Corner, "road corner SW");
  ([north; south; east; west], Intersection, "4-way intersection");
  ([south; east; west], Intersection, "T-junction (south)")
]%string.

Definition groundHints : list (string * bool) := [
  ("primary walkable surface", true);
  ("secondary walkable surface", true);
  ("decorative/accent ground", true);
  ("pathway/trail surface", true);
  ("rough/uneven terrain", true);
  ("damaged/worn surface", true);
  ("natural growth (moss/grass)", true);
  ("hazard zone (water/lava/void)", false)
]%string.

Definition buildingHints : list string := [
  "main/important building"; "secondary building";
  "small shop or house"; "utility or special building"
]%string.

Definition propHints : list string := [
  "light source (lamp/torch/lantern)"; "small container (bin/pot/urn)";
  "seating (bench/stool/log)"; "signage (post/marker/banner)";
  "utility object A"; "utility object B"; "tall infrastructure";
  "wall-mounted or pipe";
  "small tree or large plant"; "bush or shrub"; "potted plant or flowers";
  "ground cover (grass/leaves)"; "small rock or stone"; "large rock or boulder";
  "water feature (puddle/pond)"; "natural growth (moss/fungi)";
  "storage container (crate/chest)"; "barrel or drum";
  "large container (dumpster/cart)"; "stacked items";
  "small barrier (cone/post)"; "large barrier (fence/wall)";
  "ground detail (manhole/grate)"; "floor decoration";
  "vending/service machine"; "communication device (booth/terminal)";
  "statue or monument"; "fountain or water feature";
  "market stall or stand"; "wheeled transport (cart/wagon)";
  "parked vehicle"; "storage rack or holder"
]%string.

Definition walkablePropIndices : list nat := [11; 14; 22; 23]%nat.

Definition none_connectivity : Connectivity := mkConnectivity CNone [].

(** [buildLayoutSlots]: 8 roads, 8 grounds, 4 buildings, 32 props *)
Definition buildLayoutSlots : list SpriteSlot :=
  imap (fun c '(cs, ty, hn) =>
          mkSlot (Z.of_nat c) 0 1 1 CatGround (mkPlacement LGround true top_left)
                 (mkConnectivity ty cs) hn) roadConnections
  ++ imap (fun c '(hn, wk) =>
          mkSlot (Z.of_nat c) 1 1 1 CatGround (mkPlacement LGround wk top_left)
                 none_connectivity hn) groundHints
  ++ imap (fun i hn =>
          mkSlot (Z.of_nat i * 2) 2 2 2 CatBuilding (mkPlacement LObject false bottom_center)
                 none_connectivity hn) buildingHints
  ++ imap (fun i hn =>
          mkSlot (Z.of_nat (i mod 8)) (4 + Z.of_nat (i / 8)) 1 1 CatProp
                 (mkPlacement LObject (bool_decide (i ∈ walkablePropIndices)) bottom_center)
                 none_connectivity hn) propHints.

(** The LLM's answer per slot: an id and a description. *)
Record SpriteSemantic := mkSemantic { sem_id : string; sem_description : string }.

(** [slots.map((slot, i) => ...)]: missing entries default to
    [sprite_i] and the slot's hint. *)
Definition mergeSemantics (semantics : list SpriteSemantic) (slots : list SpriteSlot)
    : list Sprite :=
  imap (fun i slot =>
          let sem := semantics !! i in
          mkSprite
            (match sem with Some s => sem_id s | None => "sprite_" +:+ pretty (N.of_nat i) end)
            (slot_category slot) (slot_col slot) (slot_row slot) (slot_w slot) (slot_h slot)
            (match sem with Some s => sem_description s | None => hint slot end)
            (slot_placement slot) (slot_connectivity slot)) slots.

Definition layoutCatalog (semantics : list SpriteSemantic) : list Sprite :=
  mergeSemantics semantics buildLayoutSlots.

(* ================================================================= *)
(** ** Road network validation (grid-state.ts) *)

(** [getRoadNetwork]: row-major scan; the Set's insertion order *)
Definition getRoadNetwork (g : GridState) : list (Z * Z) :=
  flat_map (fun y => map (fun x => (x, y))
                         (List.filter (fun x => isRoadAt g x y) (seqZ 0 (width g))))
           (seqZ 0 (height g)).

(** [offsets] of [getRoadIslands]: north, south, east, west *)
Definition island_offsets : list (Z * Z) := [(0, -1); (0, 1); (1, 0); (-1, 0)].

Record FloodState := mkFlood {
  visited : list (Z * Z);
  island : list (Z * Z);
  queue : list (Z * Z)
}.

(** One iteration of the [while (queue.length > 0)] loop. *)
Definition flood_step (roadTiles : list (Z * Z)) (st : FloodState) : FloodState :=
  match queue st with
  | [] => st
  | cur :: q =>
      if bool_decide (cur ∈ visited st) then mkFlood (visited st) (island st) q
      else
        let v := visited st ++ [cur] in
        let '(cx, cy) := cur in
        let pushes :=
          List.filter (fun n => bool_decide (n ∈ roadTiles) && negb (bool_decide (n ∈ v)))
                      (map (fun '(dx, dy) => (cx + dx, cy + dy)) island_offsets) in
        mkFlood v (island st ++ [cur]) (q ++ pushes)
  end.

(** The while loop; [flood_fuel] iterations always empty the queue
    ([flood_complete] below). *)
Fixpoint flood (fuel : nat) (roadTiles : list (Z * Z)) (st : FloodState) : FloodState :=
  match fuel with
  | O => st
  | S f =>
      match queue st with
      | [] => st
      | _ => flood f roadTiles (flood_step roadTiles st)
      end
  end.

Definition flood_fuel (roadTiles : list (Z * Z)) : nat := (5 * length roadTiles + 1)%nat.

Record Bounds := mkBounds { minX : Z; maxX : Z; minY : Z; maxY : Z }.
Record Island := mkIsland { tiles : list (Z * Z); bounds : Bounds }.

(** [Math.min(...xs)], [Math.max(...xs)] on a non-empty list *)
Definition list_min (l : list Z) : Z :=
  match l with [] => 0 | a :: r => fold_left Z.min r a end.
Definition list_max (l : list Z) : Z :=
  match l with [] => 0 | a :: r => fold_left Z.max r a end.

Definition island_bounds (t : list (Z * Z)) : Bounds :=
  mkBounds (list_min (map fst t)) (list_max (map fst t))
           (list_min (map snd t)) (list_max (map snd t)).

(** The [for (const key of roadTiles)] loop. *)
Fixpoint islands_loop (roadTiles keys visited0 : list (Z * Z)) (acc : list Island)
    : list Island :=
  match keys with
  | [] => acc
  | k :: ks =>
      if bool_decide (k ∈ visited0) then islands_loop roadTiles ks visited0 acc
      else
        let st := flood (flood_fuel roadTiles) roadTiles (mkFlood visited0 [] [k]) in
        let acc' := match island st with
                    | [] => acc
                    | t => acc ++ [mkIsland t (island_bounds t)]
                    end in
        islands_loop roadTiles ks (visited st) acc'
  end.

(** [getRoadIslands] *)
Definition getRoadIslands (g : GridState) : list Island :=
  let roadTiles := getRoadNetwork g in
  islands_loop roadTiles roadTiles [] [].

Record Connectivity_report := mkReport {
  connected : bool;
  totalRoadTiles : nat;
  islandCount : nat;
  islands : list Island
}.

(** [validateRoadConnectivity] *)
Definition validateRoadConnectivity (g : GridState) : Connectivity_report :=
  let isl := getRoadIslands g in
  let total := fold_left (fun sum i => (sum + length (tiles i))%nat) isl 0%nat in
  mkReport (Nat.leb (length isl) 1) total (length isl) isl.

(* ================================================================= *)
(** ** drawRoad tool (draw-road.ts) *)

(** [RoadNetworkTracker]; [roadTiles] is a Set of "x,y" keys. *)
Record RoadNetworkTracker := mkTracker {
  tilesPlaced : Z;
  maxTiles : Z;
  roadTiles : list (Z * Z)
}.

Definition initTracker (maxRoadTiles : Z) : RoadNetworkTracker :=
  mkTracker 0 maxRoadTiles [].

(** [Set.prototype.add] *)
Definition set_add (p : Z * Z) (s : list (Z * Z)) : list (Z * Z) :=
  if bool_decide (p ∈ s) then s else s ++ [p].

(** [isPointOnOrAdjacentToRoad] *)
Definition isPointOnOrAdjacentToRoad (x y : Z) (rt : list (Z * Z)) : bool :=
  bool_decide ((x, y) ∈ rt)
  || existsb (fun d => let '(dx, dy) := DIRECTION_OFFSETS d in
                       bool_decide ((x + dx, y + dy) ∈ rt)) all_directions.

(** [findNearestRoadTile]: (x, y, distance) of the first tile at minimal
    Manhattan distance *)
Definition findNearestRoadTile (rt : list (Z * Z)) (x y : Z) : option (Z * Z * Z) :=
  fold_left (fun nearest '(rx, ry) =>
               let distance := Z.abs (rx - x) + Z.abs (ry - y) in
               match nearest with
               | Some (_, _, nd) => if distance <? nd then Some (rx, ry, distance) else nearest
               | None => Some (rx, ry, distance)
               end) rt None.

Inductive RoadError :=
  | NoRoadSprite (conns : list Direction) (x y : Z)
  | PlaceFailed (x y : Z) (e : GridError).

(** The tool's answers; the ASCII renderings of the layers are left out. *)
Inductive DrawRoadResult :=
  | DrawOutOfBounds
  | DrawDisconnected (suggestion : option (Z * Z)) (existingRoadCount : nat)
  | DrawOverBudget (need : nat) (remaining : Z)
  | DrawDone (success : bool) (placed updated : nat) (budgetRemaining : Z)
             (totalRoads : nat) (errors : list RoadError).

Definition draw_success (r : DrawRoadResult) : bool :=
  match r with DrawDone s _ _ _ _ _ => s | _ => false end.

Record DrawLoop := mkDrawLoop {
  dl_grid : GridState;
  dl_tracker : RoadNetworkTracker;
  dl_placed : nat;
  dl_updated : nat;
  dl_errors : list RoadError
}.

(** Connections wanted at path point [i]: path neighbours, then existing
    adjacent roads, de-duplicated; an isolated tile defaults to east-west. *)
Definition needed_connections (g : GridState) (path : list (Z * Z)) (i : nat) (px py : Z)
    : list Direction :=
  match dedup (getPathConnections path i ++ getAdjacentRoadConnections g px py) with
  | [] => [east; west]
  | l => l
  end.

(** Body of the placement loop for point [i]. *)
Definition drawRoad_point (path : list (Z * Z)) (i : nat) (pt : Z * Z) (st : DrawLoop)
    : DrawLoop :=
  let '(px, py) := pt in
  let g := dl_grid st in
  let t := dl_tracker st in
  let all := needed_connections g path i px py in
  match findMatchingRoadSprite g all with
  | None => mkDrawLoop g t (dl_placed st) (dl_updated st)
                       (dl_errors st ++ [NoRoadSprite all px py])
  | Some s =>
      match setTile g px py (id s) LGround with
      | inl e => mkDrawLoop g t (dl_placed st) (dl_updated st)
                            (dl_errors st ++ [PlaceFailed px py e])
      | inr g1 =>
          let t1 := mkTracker (tilesPlaced t) (maxTiles t) (set_add (px, py) (roadTiles t)) in
          match updateAdjacentRoads px py all g1 with
          | (inl e, g2) => mkDrawLoop g2 t1 (S (dl_placed st)) (dl_updated st)
                                      (dl_errors st ++ [PlaceFailed px py e])
          | (inr n, g2) => mkDrawLoop g2 t1 (S (dl_placed st)) (dl_updated st + n)
                                      (dl_errors st)
          end
      end
  end.

Fixpoint drawRoad_loop (path : list (Z * Z)) (i : nat) (rest : list (Z * Z)) (st : DrawLoop)
    : DrawLoop :=
  match rest with
  | [] => st
  | pt :: r => drawRoad_loop path (S i) r (drawRoad_point path i pt st)
  end.

(** [execute] of the drawRoad tool: the tool instance's state is the
    shared grid and its tracker. *)
Definition drawRoad (fromX fromY toX toY : Z) (g : GridState) (t : RoadNetworkTracker)
    : DrawRoadResult * (GridState * RoadNetworkTracker) :=
  if out_of_bounds g fromX fromY || out_of_bounds g toX toY then (DrawOutOfBounds, (g, t))
  else if (tilesPlaced t >? 0)
          && negb (isPointOnOrAdjacentToRoad fromX fromY (roadTiles t))
          && negb (isPointOnOrAdjacentToRoad toX toY (roadTiles t)) then
    let ns := findNearestRoadTile (roadTiles t) fromX fromY in
    let ne := findNearestRoadTile (roadTiles t) toX toY in
    let nearest :=
      match ns, ne with
      | Some (ax, ay, ad), Some (bx, by', bd) => if ad <=? bd then Some (ax, ay) else Some (bx, by')
      | Some (ax, ay, _), None => Some (ax, ay)
      | None, Some (bx, by', _) => Some (bx, by')
      | None, None => None
      end in
    (DrawDisconnected nearest (length (roadTiles t)), (g, t))
  else
    let path := generateManhattanPath fromX fromY toX toY in
    let remaining := maxTiles t - tilesPlaced t in
    if Z.of_nat (length path) >? remaining then
      (DrawOverBudget (length path) remaining, (g, t))
    else
      let st := drawRoad_loop path 0 path (mkDrawLoop g t 0 0 []) in
      let t' := mkTracker (tilesPlaced (dl_tracker st) + Z.of_nat (dl_placed st))
                          (maxTiles (dl_tracker st)) (roadTiles (dl_tracker st)) in
      (DrawDone (bool_decide (dl_errors st = [])) (dl_placed st) (dl_updated st)
                (maxTiles t' - tilesPlaced t') (length (roadTiles t')) (dl_errors st),
       (dl_grid st, t')).

(* ================================================================= *)
(** ** connectRoads tool (connect-roads.ts) *)

Definition gput (g : GridState) : GM unit := fun _ => (inr tt, g).

(** [try { ... } catch (error) { ... }]: the handler runs on the grid as
    the failed block left it. *)
Definition gcatch {A} (m : GM A) (hdl : GridError -> GM A) : GM A := fun g =>
  match m g with
  | (inl e, g') => hdl e g'
  | r => r
  end.

(** [findNearestTilesBetweenIslands]: first pair at minimal distance *)
Definition findNearestTilesBetweenIslands (i1 i2 : list (Z * Z))
    : (Z * Z) * (Z * Z) * Z :=
  let best :=
    fold_left (fun b t1 =>
      fold_left (fun b t2 =>
        let distance := Z.abs (t1.1 - t2.1) + Z.abs (t1.2 - t2.2) in
        match b with
        | Some (_, _, bd) => if distance <? bd then Some (t1, t2, distance) else b
        | None => Some (t1, t2, distance)
        end) i2 b) i1 None in
  match best with
  | Some r => r
  | None => (default (0, 0) (head i1), default (0, 0) (head i2), 0)
  end.

Record ConnAcc := mkConnAcc {
  ca_placed : nat;
  ca_updated : nat;
  ca_errors : list RoadError
}.

(** Skip branch: the point is already a road; upgrade its path
    neighbours towards it.  Not inside the try block. *)
Fixpoint skip_updates (px py : Z) (dirs : list Direction) (n : nat) : GM nat :=
  match dirs with
  | [] => mret n
  | d :: r =>
      let '(dx, dy) := DIRECTION_OFFSETS d in
      updateAdjacentRoad (px + dx) (py + dy) (OPPOSITE_DIRECTION d) ≫= fun b : bool =>
      skip_updates px py r (if b then S n else n)
  end.

(** Body of the loop of [drawConnectingRoad] for point [i].  The
    in-bounds upgrade loop after the write is [updateAdjacentRoads]. *)
Definition connect_point (path : list (Z * Z)) (i : nat) (pt : Z * Z) (acc : ConnAcc)
    : GM ConnAcc :=
  gget ≫= fun g =>
  let '(px, py) := pt in
  if isRoadAt g px py then
    skip_updates px py (getPathConnections path i) (ca_updated acc) ≫= fun n =>
    mret (mkConnAcc (ca_placed acc) n (ca_errors acc))
  else
    let all := needed_connections g path i px py in
    match findMatchingRoadSprite g all with
    | None => mret (mkConnAcc (ca_placed acc) (ca_updated acc)
                              (ca_errors acc ++ [NoRoadSprite all px py]))
    | Some s =>
        match setTile g px py (id s) LGround with
        | inl e => mret (mkConnAcc (ca_placed acc) (ca_updated acc)
                                   (ca_errors acc ++ [PlaceFailed px py e]))
        | inr g1 =>
            gput g1 ;;
            gcatch (updateAdjacentRoads px py all ≫= fun n =>
                      mret (mkConnAcc (S (ca_placed acc)) (ca_updated acc + n) (ca_errors acc)))
                   (fun e => mret (mkConnAcc (S (ca_placed acc)) (ca_updated acc)
                                             (ca_errors acc ++ [PlaceFailed px py e])))
        end
    end.

Fixpoint connect_loop (path : list (Z * Z)) (i : nat) (rest : list (Z * Z)) (acc : ConnAcc)
    : GM ConnAcc :=
  match rest with
  | [] => mret acc
  | pt :: r => connect_point path i pt acc ≫= connect_loop path (S i) r
  end.

(** [drawConnectingRoad] *)
Definition drawConnectingRoad (fromX fromY toX toY : Z) : GM ConnAcc :=
  let path := generateManhattanPath fromX fromY toX toY in
  connect_loop path 0 path (mkConnAcc 0 0 []).

Inductive ConnectRoadsResult :=
  | AlreadyConnected (totalRoads islandCount : nat)
  | Repaired (success : bool) (previousIslandCount finalIslandCount placed updated : nat)
             (connections : list ((Z * Z) * (Z * Z))) (errors : list RoadError).

(** The loop connecting island [i] to island [i - 1]. *)
Fixpoint connect_pairs (isl : list Island) (acc : ConnAcc)
    (conns : list ((Z * Z) * (Z * Z))) : GM (ConnAcc * list ((Z * Z) * (Z * Z))) :=
  match isl with
  | prev :: ((cur :: _) as rest) =>
      let '(from, to, _) := findNearestTilesBetweenIslands (tiles prev) (tiles cur) in
      drawConnectingRoad from.1 from.2 to.1 to.2 ≫= fun r =>
      connect_pairs rest
        (mkConnAcc (ca_placed acc + ca_placed r) (ca_updated acc + ca_updated r)
                   (ca_errors acc ++ ca_errors r))
        (conns ++ [(from, to)])
  | _ => mret (acc, conns)
  end.

(** [execute] of the connectRoads tool *)
Definition connectRoads : GM ConnectRoadsResult :=
  gget ≫= fun g =>
  let c := validateRoadConnectivity g in
  if connected c then mret (AlreadyConnected (totalRoadTiles c) (islandCount c))
  else
    connect_pairs (islands c) (mkConnAcc 0 0 []) [] ≫= fun '(acc, conns) =>
    gget ≫= fun g' =>
    let f := validateRoadConnectivity g' in
    mret (Repaired (connected f) (islandCount c) (islandCount f)
                   (ca_placed acc) (ca_updated acc) conns (ca_errors acc)).

(* ================================================================= *)
(** ** placeAsset tool (place-asset.ts) *)

Inductive PlaceAssetResult :=
  | PAOutOfBounds
  | PAUnknownAsset
  | PANoGround
  | PAOccupied (existing : string)
  | PAPlaced (x y : Z) (a : string) (l : Layer)
  | PAFailed (e : GridError).

Definition pa_success (r : PlaceAssetResult) : bool :=
  match r with PAPlaced _ _ _ _ => true | _ => false end.

(** [execute] of the placeAsset tool; [layer] is the optional argument. *)
Definition placeAsset (x y : Z) (a : string) (layer : option Layer) (g : GridState)
    : PlaceAssetResult * GridState :=
  if out_of_bounds g x y then (PAOutOfBounds, g)
  else match getSprite g a with
  | None => (PAUnknownAsset, g)
  | Some s =>
      let targetLayer := match layer with Some l => l | None => pl_layer (placement s) end in
      let place :=
        match setTile g x y a targetLayer with
        | inl e => (PAFailed e, g)
        | inr g' => (PAPlaced x y a targetLayer, g')
        end in
      match targetLayer with
      | LObject =>
          match getTile g x y LGround with
          | None => (PANoGround, g)
          | Some _ =>
              match getTile g x y LObject with
              | Some existing => (PAOccupied (assetId existing), g)
              | None => place
              end
          end
      | LGround => place
      end
  end.

(* ================================================================= *)
(** ** Canvas size of [renderMap] (render-map.ts)

    [scale] and [tileSize] are JavaScript numbers; they are taken as
    rationals, which covers every value they have exactly.
    [Math.round(v)] is [floor(v + 0.5)]. *)

Definition js_round (v : Q) : Z := Qfloor (v + (1 # 2)).

Record RenderResult := mkRenderResult {
  render_width : Z;
  render_height : Z;
  render_scale : Q
}.

(** The size part of [renderMap]; [scale] defaults to 0.25. *)
Definition renderMap_size (mapWidth mapHeight : Z) (tileSize : Q) (scale_opt : option Q)
    : RenderResult :=
  let scale := match scale_opt with Some s => s | None => 1 # 4 end in
  let scaledTileSize := js_round (tileSize * scale) in
  let canvasWidth := mapWidth * scaledTileSize in
  let canvasHeight := mapHeight * scaledTileSize in
  mkRenderResult canvasWidth canvasHeight scale.

(* ================================================================= *)
(** ** Writes of the repair tool *)

(** Writing [a] at [(x, y)] upgrades the road there: the old tile's
    sprite connects some set of directions, and [a] is the id of a
    catalog sprite connecting that set plus exactly one new direction. *)
Definition road_upgrade (g : GridState) (x y : Z) (a : string) : Prop :=
  exists t s ns d,
    getTile g x y LGround = Some t /\ getSprite g (assetId t) = Some s
    /\ In ns (sprites g) /\ id ns = a
    /\ ~ In d (connects (connectivity s))
    /\ (forall e, In e (connects (connectivity ns)) <-> In e (connects (connectivity s)) \/ e = d).

(** One ground-layer [setTile]; on a cell holding a road it must be an
    upgrade. *)
Definition legit_write (g g' : GridState) : Prop :=
  exists x y a, setTile g x y a LGround = inr g'
                /\ (isRoadAt g x y = true -> road_upgrade g x y a).

(** Every catalog entry lists each of its directions once. *)
Definition catalog_connects_nodup (g : GridState) : Prop :=
  Forall (fun s => List.NoDup (connects (connectivity s))) (sprites g).

(** A grid computation whose final grid is reached from the initial one
    by steps of [R], when started on a grid satisfying [I]. *)
Definition runs_in (R : GridState -> GridState -> Prop) (I : GridState -> Prop)
    {A} (m : GM A) : Prop :=
  forall g, I g -> clos_refl_trans GridState R g (m g).2.

(* ================================================================= *)
(** ** Sessions of the drawRoad tool *)

(** The ground layer is an array of [height] rows of [width] cells. *)
Definition ground_wf (g : GridState) : Prop :=
  length (ground g) = Z.to_nat (height g)
  /\ Forall (fun r => length r = Z.to_nat (width g)) (ground g).

(** Catalog identifiers are unique. *)
Definition ids_unique (g : GridState) : Prop := List.NoDup (map id (sprites g)).

(** A ground-layer write of a road sprite of the catalog. *)
Definition road_write (g g' : GridState) : Prop :=
  exists x y s, In s (sprites g) /\ isRoadSprite s = true
                /\ setTile g x y (id s) LGround = inr g'.

(** [(x, y)] holds a road or one of its four neighbours does. *)
(** [(x, y)] is a tile of [rt] or one of its four neighbours is. *)
Definition on_or_adjacent_to_tiles (rt : list (Z * Z)) (x y : Z) : Prop :=
  In (x, y) rt
  \/ exists d, In d all_directions
               /\ In (x + (DIRECTION_OFFSETS d).1, y + (DIRECTION_OFFSETS d).2) rt.

Definition on_or_adjacent_to_road (g : GridState) (x y : Z) : Prop :=
  isRoadAt g x y = true
  \/ exists d, In d all_directions
               /\ isRoadAt g (x + (DIRECTION_OFFSETS d).1) (y + (DIRECTION_OFFSETS d).2) = true.

(** The states of one drawRoad tool instance (created on [g0] with budget
    [m]) over its shared grid: calls of the tool, with network repair runs
    in between. *)
Inductive draw_session (g0 : GridState) (m : Z) : GridState -> RoadNetworkTracker -> Prop :=
  | session_start : draw_session g0 m g0 (initTracker m)
  | session_draw g t fromX fromY toX toY :
      draw_session g0 m g t ->
      draw_session g0 m (drawRoad fromX fromY toX toY g t).2.1
                        (drawRoad fromX fromY toX toY g t).2.2
  | session_repair g t :
      draw_session g0 m g t -> draw_session g0 m (connectRoads g).2 t.

(* ================================================================= *)
(** ** Islands *)

(** Four-directional adjacency: the cells are one step apart along one
    axis (no diagonals). *)
Definition adjacent4 (p q : Z * Z) : Prop := Z.abs (p.1 - q.1) + Z.abs (p.2 - q.2) = 1.

(** An adjacency step between two cells of [S]. *)
Definition step_in (S : list (Z * Z)) (u v : Z * Z) : Prop :=
  In u S /\ In v S /\ adjacent4 u v.

Definition island_connected (S : list (Z * Z)) : Prop :=
  forall p q, In p S -> In q S -> clos_refl_trans (Z * Z) (step_in S) p q.

Definition island_maximal (g : GridState) (S : list (Z * Z)) : Prop :=
  forall p q, In p S -> adjacent4 p q -> isRoadAt g q.1 q.2 = true -> In q S.

(** Invariant of one flood fill over the road tiles [R], started at the
    seed [k] with [V0] already visited. *)
Record flood_inv (R V0 : list (Z * Z)) (k : Z * Z) (st : FloodState) : Prop := {
  fi_visited : visited st = V0 ++ island st;
  fi_island_R : incl (island st) R;
  fi_queue_R : incl (queue st) R;
  fi_nodup : List.NoDup (island st);
  fi_fresh : forall p, In p (island st) -> ~ In p V0;
  fi_seed_fresh : ~ In k V0;
  fi_seed : In k (island st) \/ (island st = [] /\ queue st = [k]);
  fi_queue_adj : forall q, In q (queue st) -> q = k \/ exists p, In p (island st) /\ adjacent4 p q;
  fi_conn : forall p, In p (island st) -> clos_refl_trans (Z * Z) (step_in (island st)) k p;
  fi_frontier : forall p n, In p (island st) -> adjacent4 p n -> In n R ->
                  In n (visited st) \/ In n (queue st)
}.

(** Unvisited road tiles count five (a visit queues at most four cells),
    queued cells one. *)
Definition flood_measure (R : list (Z * Z)) (st : FloodState) : nat :=
  (5 * length (List.filter (fun r => negb (bool_decide (r ∈ visited st))) R)
   + length (queue st))%nat.

(** Invariant of the loop over the road tiles: [V] is the visited list
    and [acc] the islands found so far. *)
Record islands_inv (R V : list (Z * Z)) (acc : list Island) : Prop := {
  ii_visited : V = concat (map tiles acc);
  ii_nodup : List.NoDup V;
  ii_R : incl V R;
  ii_closed : forall p n, In p V -> adjacent4 p n -> In n R -> In n V;
  ii_islands : Forall (fun i => tiles i <> [] /\ island_connected (tiles i)
                                /\ (forall p n, In p (tiles i) -> adjacent4 p n -> In n R ->
                                               In n (tiles i))) acc
}.

(* ================================================================= *)
(** ** Notions used by the properties *)

(** What the spec calls an exact match: a ground road sprite whose
    [connects] has the cardinality and the members of [req]. *)
Definition exact_road_match (req : list Direction) (s : Sprite) : Prop :=
  category s = CatGround /\ isRoadSprite s = true
  /\ length (connects (connectivity s)) = length req
  /\ (forall d, In d (connects (connectivity s)) <-> In d req).

(** Differences between consecutive points. *)
Fixpoint path_steps (p : list (Z * Z)) : list (Z * Z) :=
  match p with
  | a :: ((b :: _) as r) => (b.1 - a.1, b.2 - a.2) :: path_steps r
  | _ => []
  end.

(** Number of places where two consecutive steps differ. *)
Fixpoint bends (s : list (Z * Z)) : nat :=
  match s with
  | a :: ((b :: _) as r) => ((if bool_decide (a = b) then 0 else 1) + bends r)%nat
  | _ => 0%nat
  end.

(** What a road write keeps: the shape of the ground layer, the catalog,
    and every road. *)
Definition roads_kept (g g' : GridState) : Prop :=
  (ground_wf g -> ground_wf g') /\ sprites g' = sprites g
  /\ (ground_wf g -> ids_unique g -> forall x y, isRoadAt g x y = true -> isRoadAt g' x y = true).

(** Every tile of the tracker holds a road on the grid. *)
Definition tracker_ok (g : GridState) (t : RoadNetworkTracker) : Prop :=
  forall p, In p (roadTiles t) -> isRoadAt g p.1 p.2 = true.

(* ================================================================= *)
(** ** Concrete grids over the layout catalog *)

(** A grid over the layout catalog whose LLM answer was empty, so that
    the ids are the defaults [sprite_0] .. [sprite_51]. *)
Definition layout_grid : GridState := newGridState 5 5 (layoutCatalog []).

Definition place_all (g : GridState) (ws : list (Z * Z * string * Layer)) : GridState :=
  fold_left (fun g '(x, y, a, l) =>
               match setTile g x y a l with inr g' => g' | inl _ => g end) ws g.

(** A horizontal road ([sprite_0], east-west) at (2,2). *)
Definition horizontal_grid : GridState :=
  place_all layout_grid [(2, 2, "sprite_0", LGround)]%string.

(** A ground tile and a building on the same cell. *)
Definition occupied_grid : GridState :=
  place_all layout_grid [(1, 1, "sprite_8", LGround); (1, 1, "sprite_16", LObject)]%string.

(** Two road islands: a horizontal tile at (0,0) and one at (3,2). *)
Definition two_islands_grid : GridState :=
  place_all layout_grid [(0, 0, "sprite_0", LGround); (3, 2, "sprite_0", LGround)]%string.

(** The drawRoad tool on [layout_grid] after one call from (0,0) to
    (2,0): only the middle tile has a sprite (the layout has no caps). *)
Definition first_draw : DrawRoadResult * (GridState * RoadNetworkTracker) :=
  drawRoad 0 0 2 0 layout_grid (initTracker 5).

(** The grid of [first_draw] after a ground placement of [sprite_8]
    (a plain ground tile) over its road at (1,0). *)
Definition replaced_grid : GridState :=
  (placeAsset 1 0 "sprite_8" (Some LGround) first_draw.2.1).2.

(* ================================================================= *)
(** ** More of GridState (grid-state.ts) *)

(** Truthiness of an optional value *)
Definition isSome {A} (o : option A) : bool := match o with Some _ => true | None => false end.
Definition isNone {A} (o : option A) : bool := negb (isSome o).

(** [clearTile]: out-of-bounds coordinates return early; otherwise
    [row[x] = null] when row [y] exists. *)
Definition clearTile (g : GridState) (x y : Z) (l : Layer) : GridState :=
  if out_of_bounds g x y then g
  else
    let target := layer_of g l in
    match target !! Z.to_nat y with
    | Some r => with_layer g l (<[Z.to_nat y := <[Z.to_nat x := None]> r]> target)
    | None => g
    end.

(** [getSpritesByCategory] *)
Definition getSpritesByCategory (g : GridState) (c : SpriteCategory) : list Sprite :=
  List.filter (fun s => bool_decide (category s = c)) (sprites g).

(** [getRoadSprites]: ground sprites of a road connectivity type *)
Definition getRoadSprites (g : GridState) : list Sprite :=
  List.filter (fun s => bool_decide (category s = CatGround) && isRoadSprite s) (sprites g).

Record Stats := mkStats { totalTiles : Z; groundFilled : nat; objectsFilled : nat }.

(** [row?.[x]] is truthy: the row exists and holds a cell at [x]. *)
Definition cell_filled (row : option (list (option MapCell))) (x : Z) : bool :=
  match row with
  | Some r => match r !! Z.to_nat x with Some (Some _) => true | _ => false end
  | None => false
  end.

(** [getStats]: both counters are incremented in one double loop. *)
Definition getStats (g : GridState) : Stats :=
  let '(gfill, ofill) :=
    fold_left (fun acc y =>
        let groundRow := ground g !! Z.to_nat y in
        let objectsRow := objects g !! Z.to_nat y in
        fold_left (fun '(gf, of') x =>
            ((if cell_filled groundRow x then S gf else gf),
             (if cell_filled objectsRow x then S of' else of')))
          (seqZ 0 (width g)) acc)
      (seqZ 0 (height g)) (0%nat, 0%nat) in
  mkStats (width g * height g) gfill ofill.

(** [toJSON] *)
Record GameMap := mkGameMap {
  map_width : Z;
  map_height : Z;
  map_ground : list (list (option MapCell));
  map_objects : list (list (option MapCell))
}.

Definition toJSON (g : GridState) : GameMap :=
  mkGameMap (width g) (height g) (ground g) (objects g).

(** [toASCII].  [`${n}`] of a digit [0 <= n < 10] is one character. *)
Definition ascii_digit (n : Z) : ascii := ascii_of_nat (48 + Z.to_nat n).

Definition newline : string := String (ascii_of_nat 10) EmptyString.

(** The ground character of cell [(x, y)]. *)
Definition ground_char (g : GridState) (x y : Z) : ascii :=
  match getTile g x y LGround with
  | Some t =>
      match getSprite g (assetId t) with
      | Some _ => if isRoadAt g x y then "R" else "G"
      | None => "G"
      end
  | None => "."
  end%char.

(** The object character of cell [(x, y)]. *)
Definition object_char (g : GridState) (x y : Z) : ascii :=
  match getTile g x y LObject with
  | Some t =>
      match option_map category (getSprite g (assetId t)) with
      | Some CatBuilding => "B"
      | Some CatProp => "P"
      | Some CatMarker => "M"
      | _ => "?"
      end
  | None => "."
  end%char.

(** [`${y % 10} `] followed by one character per column. *)
Definition ascii_row (g : GridState) (f : Z -> Z -> ascii) (y : Z) : string :=
  String (ascii_digit (y mod 10))
    (String " " (String.string_of_list_ascii (map (fun x => f x y) (seqZ 0 (width g))))).

(** The lines of one layer: header, one row per [y], an empty line and
    the legend. *)
Definition ascii_lines (g : GridState) (f : Z -> Z -> ascii) (legend : string) : list string :=
  let header :=
    ("  " +:+ String.string_of_list_ascii (map (fun i => ascii_digit (i mod 10)) (seqZ 0 (width g))))%string in
  header :: map (ascii_row g f) (seqZ 0 (height g)) ++ [""%string; legend].

Definition groundLines (g : GridState) : list string :=
  ascii_lines g (ground_char g) "Legend: R=road, G=ground, .=empty".

Definition objectLines (g : GridState) : list string :=
  ascii_lines g (object_char g) "Legend: B=building, P=prop, M=marker, .=empty".

(** [{ ground: groundLines.join('\n'), objects: objectLines.join('\n') }] *)
Definition toASCII (g : GridState) : string * string :=
  (String.concat newline (groundLines g), String.concat newline (objectLines g)).

(* ================================================================= *)
(** ** placeRoad tool (place-road.ts) *)

(** [RoadBudgetTracker] of one placeRoad tool instance *)
Record RoadBudgetTracker := mkBudget { rb_tilesPlaced : Z; rb_maxTiles : Z }.

(** [getNeighborExpectations]: in-bounds road neighbours whose sprite
    connects back towards [(x, y)], with the neighbour's asset id. *)
Definition getNeighborExpectations (g : GridState) (x y : Z) : list (Direction * string) :=
  omap (fun d =>
    let '(dx, dy) := DIRECTION_OFFSETS d in
    let nx := x + dx in
    let ny := y + dy in
    if out_of_bounds g nx ny then None
    else match getTile g nx ny LGround with
         | None => None
         | Some t =>
             match getSprite g (assetId t) with
             | Some s =>
                 if isRoadSprite s && includes (connects (connectivity s)) (OPPOSITE_DIRECTION d)
                 then Some (d, assetId t) else None
             | None => None
             end
         end) all_directions.

(** [suggestCorrectSprite] *)
Definition suggestCorrectSprite (g : GridState) (needed : list Direction) : option string :=
  match List.filter (fun s => bool_decide (category s = CatGround) && isRoadSprite s)
                    (getSpritesWithConnections g needed) with
  | s :: _ => Some (id s)
  | [] => None
  end.

(** The tool's answers; the ASCII renderings are left out. *)
Inductive PlaceRoadResult :=
  | PROutOfBounds
  | PRBudgetExhausted
  | PRUnknownSprite (availableRoadSprites : list string)
  | PRNotRoad
  | PRMismatch (missingConnections : list Direction) (neighborExpectations : list (Direction * string))
               (suggestion : option string)
  | PRPlaced (x y : Z) (spriteId : string) (connections : list Direction)
             (budgetRemaining : Z) (warnings : list (Direction * string))
  | PRFailed (e : GridError).

Definition pr_success (r : PlaceRoadResult) : bool :=
  match r with PRPlaced _ _ _ _ _ _ => true | _ => false end.

(** Connections of the placed sprite that point at an in-bounds ground
    tile whose sprite is not a road. *)
Definition placeRoad_warnings (g : GridState) (x y : Z) (sc : list Direction)
    : list (Direction * string) :=
  omap (fun d =>
    let '(dx, dy) := DIRECTION_OFFSETS d in
    let nx := x + dx in
    let ny := y + dy in
    if out_of_bounds g nx ny then None
    else match getTile g nx ny LGround with
         | Some t =>
             match getSprite g (assetId t) with
             | Some ns => if negb (isRoadSprite ns) then Some (d, assetId t) else None
             | None => None
             end
         | None => None
         end) sc.

(** [execute] of the placeRoad tool: its state is the shared grid and its
    budget tracker. *)
Definition placeRoad (x y : Z) (spriteId : string) (g : GridState) (t : RoadBudgetTracker)
    : PlaceRoadResult * (GridState * RoadBudgetTracker) :=
  if out_of_bounds g x y then (PROutOfBounds, (g, t))
  else if rb_tilesPlaced t >=? rb_maxTiles t then (PRBudgetExhausted, (g, t))
  else match getSprite g spriteId with
  | None => (PRUnknownSprite (map id (take 8 (getRoadSprites g))), (g, t))
  | Some s =>
      if negb (isRoadSprite s) then (PRNotRoad, (g, t)) else
      let sc := connects (connectivity s) in
      let ne := getNeighborExpectations g x y in
      let missing := List.filter (fun d => negb (includes sc d)) (map fst ne) in
      match missing with
      | _ :: _ => (PRMismatch missing ne (suggestCorrectSprite g (map fst ne)), (g, t))
      | [] =>
          let warnings := placeRoad_warnings g x y sc in
          match setTile g x y spriteId LGround with
          | inl e => (PRFailed e, (g, t))
          | inr g' =>
              let t' := mkBudget (rb_tilesPlaced t + 1) (rb_maxTiles t) in
              (PRPlaced x y spriteId sc (rb_maxTiles t' - rb_tilesPlaced t') warnings, (g', t'))
          end
      end
  end.

(* ================================================================= *)
(** ** fillGround tool (fill-ground.ts) *)

Inductive FillGroundResult :=
  | FGUnknownSprite (suggestions : list string)
  | FGNotGround (c : SpriteCategory)
  | FGDone (tilesFilled tilesSkipped : nat) (x1 y1 x2 y2 : Z).

(** The cells of the inclusive double loop, [y] outer and [x] inner. *)
Definition fill_positions (sx sy ex ey : Z) : list (Z * Z) :=
  flat_map (fun y => map (fun x => (x, y)) (seqZ sx (ex - sx + 1))) (seqZ sy (ey - sy + 1)).

(** Body of the loop: skip an existing ground tile unless [overwrite];
    a throwing [setTile] is caught and counts nothing. *)
Definition fill_cell (a : string) (overwrite : bool) (st : GridState * nat * nat) (p : Z * Z)
    : GridState * nat * nat :=
  let '(g, filled, skipped) := st in
  let '(x, y) := p in
  if isSome (getTile g x y LGround) && negb overwrite then (g, filled, S skipped)
  else match setTile g x y a LGround with
       | inr g' => (g', S filled, skipped)
       | inl _ => (g, filled, skipped)
       end.

(** [execute] of the fillGround tool ([overwrite] defaults to [false]). *)
Definition fillGround (x1 y1 x2 y2 : Z) (a : string) (overwrite : bool) (g : GridState)
    : FillGroundResult * GridState :=
  match getSprite g a with
  | None => (FGUnknownSprite (map id (take 5 (getSpritesByCategory g CatGround))), g)
  | Some s =>
      if negb (bool_decide (category s = CatGround)) then (FGNotGround (category s), g)
      else
        let mnX := Z.min x1 x2 in
        let mxX := Z.max x1 x2 in
        let mnY := Z.min y1 y2 in
        let mxY := Z.max y1 y2 in
        let csx := Z.max 0 mnX in
        let csy := Z.max 0 mnY in
        let cex := Z.min (width g - 1) mxX in
        let cey := Z.min (height g - 1) mxY in
        let '(g', filled, skipped) :=
          fold_left (fill_cell a overwrite) (fill_positions csx csy cex cey) (g, 0%nat, 0%nat) in
        (FGDone filled skipped csx csy cex cey, g')
  end.

(* ================================================================= *)
(** ** placeAssets tool (place-asset.ts, batch version) *)

Record AssetRequest := mkAssetRequest {
  req_x : Z; req_y : Z; req_asset : string; req_layer : option Layer
}.

Inductive BatchError :=
  | BOutOfBounds | BUnknownAsset | BNoGround | BOccupied | BFailed (e : GridError).

(** One iteration of [for (const p of placements)]: [None] is success. *)
Definition placeAssets_one (p : AssetRequest) (g : GridState) : option BatchError * GridState :=
  let x := req_x p in
  let y := req_y p in
  if out_of_bounds g x y then (Some BOutOfBounds, g)
  else match getSprite g (req_asset p) with
  | None => (Some BUnknownAsset, g)
  | Some s =>
      let targetLayer := match req_layer p with Some l => l | None => pl_layer (placement s) end in
      if bool_decide (targetLayer = LObject) && negb (isSome (getTile g x y LGround))
      then (Some BNoGround, g)
      else if bool_decide (targetLayer = LObject) && isSome (getTile g x y LObject)
      then (Some BOccupied, g)
      else match setTile g x y (req_asset p) targetLayer with
           | inr g' => (None, g')
           | inl e => (Some (BFailed e), g)
           end
  end.

Fixpoint placeAssets_loop (ps : list AssetRequest) (g : GridState)
    (results : list (AssetRequest * option BatchError))
    : list (AssetRequest * option BatchError) * GridState :=
  match ps with
  | [] => (results, g)
  | p :: r => let '(e, g') := placeAssets_one p g in placeAssets_loop r g' (results ++ [(p, e)])
  end.

Record BatchResult := mkBatchResult {
  batch_success : bool;
  batch_placed : nat;
  batch_failed : nat;
  batch_results : list (AssetRequest * option BatchError)
}.

(** [execute] of the placeAssets tool *)
Definition placeAssets (ps : list AssetRequest) (g : GridState) : BatchResult * GridState :=
  let '(results, g') := placeAssets_loop ps g [] in
  let successCount := length (List.filter (fun r => isNone r.2) results) in
  let failCount := length (List.filter (fun r => isSome r.2) results) in
  (mkBatchResult (Nat.eqb failCount 0) successCount failCount results, g').

(* ================================================================= *)
(** ** Composites of [renderMap] (render-map.ts)

    The image buffers are left out: a composite is the asset id it
    draws with its [left] and [top] offsets. *)

(** [cell?.assetId] when truthy (a non-empty string) *)
Definition cell_asset (c : option MapCell) : option string :=
  match c with
  | Some m => if bool_decide (assetId m = ""%string) then None else Some (assetId m)
  | None => None
  end.

(** [Set.prototype.add] on strings *)
Definition str_set_add (a : string) (s : list string) : list string :=
  if bool_decide (a ∈ s) then s else s ++ [a].

Definition collect_assets (layer : list (list (option MapCell))) (s : list string) : list string :=
  fold_left (fun s row =>
    fold_left (fun s c => match cell_asset c with Some a => str_set_add a s | None => s end) row s)
    layer s.

(** The keys of [buildSpriteCache]: used ids, ground layer first, that
    name a catalog sprite. *)
Definition buildSpriteCache_keys (spr : list Sprite) (m : GameMap) : list string :=
  let usedAssets := collect_assets (map_objects m) (collect_assets (map_ground m) []) in
  List.filter (fun a => isSome (List.find (fun s => bool_decide (id s = a)) spr)) usedAssets.

(** Pairs [(i, l[i])] *)
Definition indexed {A} (l : list A) : list (Z * A) := combine (seqZ 0 (Z.of_nat (length l))) l.

(** [processLayer]: composites and [tilesRendered] *)
Definition processLayer (layer : list (list (option MapCell))) (cache : list string) (sts : Z)
    : list (string * Z * Z) * nat :=
  fold_left (fun acc '(y, row) =>
    fold_left (fun '(cs, n) '(x, c) =>
        match cell_asset c with
        | Some a =>
            if bool_decide (a ∈ cache) then (cs ++ [(a, x * sts, y * sts)], S n) else (cs, n)
        | None => (cs, n)
        end) (indexed row) acc) (indexed layer) ([], 0%nat).

Inductive LayerName := LNGround | LNObjects.
#[global] Instance LayerName_eq_dec : EqDecision LayerName.
Proof. solve_decision. Defined.

Record RenderStats := mkRenderStats {
  groundTilesRendered : nat; objectTilesRendered : nat; uniqueSpritesUsed : nat
}.

(** The composite and statistics part of [renderMap]; [scale] defaults
    to 0.25 and [layers] to both. *)
Definition renderMap_composites (m : GameMap) (spr : list Sprite) (tileSize : Q)
    (scale_opt : option Q) (layers_opt : option (list LayerName))
    : list (string * Z * Z) * RenderStats :=
  let scale := match scale_opt with Some s => s | None => 1 # 4 end in
  let layers := match layers_opt with Some l => l | None => [LNGround; LNObjects] end in
  let scaledTileSize := js_round (tileSize * scale) in
  let cache := buildSpriteCache_keys spr m in
  let gr := if bool_decide (LNGround ∈ layers) then processLayer (map_ground m) cache scaledTileSize
            else ([], 0%nat) in
  let ob := if bool_decide (LNObjects ∈ layers) then processLayer (map_objects m) cache scaledTileSize
            else ([], 0%nat) in
  (gr.1 ++ ob.1, mkRenderStats gr.2 ob.2 (length cache)).

(* ================================================================= *)
(** ** Spritesheet geometry (config.ts) *)

Inductive ImageResolution := Res1K | Res2K | Res4K.

Definition RESOLUTION_PIXELS (r : ImageResolution) : Z :=
  match r with Res1K => 1024 | Res2K => 2048 | Res4K => 4096 end.

Record GridConfig := mkGridConfig { cfg_resolution : ImageResolution; cfg_tileSize : Z }.

Definition GRID_CONFIG : GridConfig := mkGridConfig Res2K 256.

(** [columns = resolutionPx / tileSize], which must be an integer (the
    module throws otherwise); [rows] is the same. *)
Definition derived_columns (c : GridConfig) : option Z :=
  let px := RESOLUTION_PIXELS (cfg_resolution c) in
  if px mod cfg_tileSize c =? 0 then Some (px / cfg_tileSize c) else None.

(** The sheet cells covered by a sprite. *)
Definition sprite_cells (s : Sprite) : list (Z * Z) :=
  flat_map (fun dy => map (fun dx => (col s + dx, row s + dy)) (seqZ 0 (w s))) (seqZ 0 (h s)).

(* ================================================================= *)
(** ** Notions used by the further properties *)

(** A layer is an array of [height] rows of [width] cells. *)
Definition layer_wf (g : GridState) (l : Layer) : Prop :=
  length (layer_of g l) = Z.to_nat (height g)
  /\ Forall (fun r => length r = Z.to_nat (width g)) (layer_of g l).

Definition grid_wf (g : GridState) : Prop := layer_wf g LGround /\ layer_wf g LObject.

(** Every cell of both layers is empty or names a catalog sprite with a
    non-empty id. *)
Definition cells_known (g : GridState) : Prop :=
  forall l, Forall (Forall (fun c => match c with
                                    | Some m => assetId m <> ""%string /\ getSprite g (assetId m) <> None
                                    | None => True
                                    end)) (layer_of g l).

(** The cells of [[0, width) x [0, height)], row by row. *)
Definition grid_cells (g : GridState) : list (Z * Z) :=
  flat_map (fun y => map (fun x => (x, y)) (seqZ 0 (width g))) (seqZ 0 (height g)).

(** The sequence of single-asset placements, with each one's success. *)
Fixpoint placeAsset_run (ps : list AssetRequest) (g : GridState) : list bool * GridState :=
  match ps with
  | [] => ([], g)
  | p :: r =>
      let '(res, g1) := placeAsset (req_x p) (req_y p) (req_asset p) (req_layer p) g in
      let '(bs, g2) := placeAsset_run r g1 in
      (pa_success res :: bs, g2)
  end.

(** The budget trackers of one placeRoad tool instance created with
    [maxTiles = m], with its number of successful placements so far; each
    call may find the shared grid in any state. *)
Inductive place_road_session (m : Z) : RoadBudgetTracker -> nat -> Prop :=
  | pr_session_start : place_road_session m (mkBudget 0 m) 0
  | pr_session_call t n x y sid g :
      place_road_session m t n ->
      place_road_session m (placeRoad x y sid g t).2.2
        (n + if pr_success (placeRoad x y sid g t).1 then 1 else 0)%nat.

(** Cell helpers for the properties of [setTile] and [clearTile]. *)
Definition set_cell (T : list (list (option MapCell))) (X Y : nat) (c : option MapCell)
    : list (list (option MapCell)) :=
  match T !! Y with Some r => <[Y := <[X := c]> r]> T | None => T end.

Definition cell_at (T : list (list (option MapCell))) (X Y : nat) : option MapCell :=
  match T !! Y with
  | Some r => match r !! X with Some c => c | None => None end
  | None => None
  end.

Definition cell_slot (T : list (list (option MapCell))) (X Y : nat) : bool :=
  match T !! Y with Some r => bool_decide (X < length r)%nat | None => false end.

Definition layer_filled (s : Stats) (l : Layer) : nat :=
  match l with LGround => groundFilled s | LObject => objectsFilled s end.

Definition two_writes_grid : GridState :=
  place_all layout_grid [(2, 2, "sprite_0", LGround); (1, 1, "sprite_8", LGround)]%string.

(* ================================================================= *)
(** * Properties *)

(** ** setTile *)

Lemma setTileM_failure_unchanged (g : GridState) x y a l e g' :
  setTileM x y a l g = (inl e, g') -> g' = g.
Proof.
  unfold setTileM. destruct (setTile g x y a l); intros H; congruence.
Qed.

(** C7: out-of-bounds coordinates with a known sprite fail with
    [OutOfBounds] and leave the grid as it was.  More generally, every
    failed [setTile] leaves the grid as it was: it fails either with
    [UnknownSprite] on an id missing from the catalog or with
    [OutOfBounds] on coordinates outside the grid, before any cell is
    written. *)
Theorem setTile_out_of_bounds_unchanged :
  (forall (g : GridState) (x y : Z) (a : string) (l : Layer) (s : Sprite),
    getSprite g a = Some s ->
    out_of_bounds g x y = true ->
    setTileM x y a l g = (inl (OutOfBounds x y), g))
  /\ (forall (g : GridState) (x y : Z) (a : string) (l : Layer) e g',
    setTileM x y a l g = (inl e, g') ->
    g' = g
    /\ ((e = UnknownSprite a /\ getSprite g a = None)
        \/ (e = OutOfBounds x y /\ out_of_bounds g x y = true))).
Proof.
  split.
  - intros g x y a l s Hs Hb. unfold setTileM, setTile, getSpriteOrThrow.
    rewrite Hs, Hb. reflexivity.
  - intros g x y a l e g' H. split; [exact (setTileM_failure_unchanged g x y a l e g' H)|].
    revert H. unfold setTileM, setTile, getSpriteOrThrow.
    destruct (getSprite g a) as [s|]; [|intros H; injection H as <- _; left; auto].
    destruct (out_of_bounds g x y) eqn:Hb; [intros H; injection H as <- _; right; auto|].
    intros H. destruct (layer_of g l !! Z.to_nat y); discriminate H.
Qed.

(** C9: an unknown sprite id is reported before the bounds are looked at,
    and the grid is left as it was. *)
Theorem setTile_unknown_sprite_first :
  forall (g : GridState) (x y : Z) (a : string) (l : Layer),
    getSprite g a = None ->
    setTileM x y a l g = (inl (UnknownSprite a), g).
Proof.
  intros g x y a l H. unfold setTileM, setTile, getSpriteOrThrow. rewrite H. reflexivity.
Qed.

(** ** Exact-match resolver *)

Lemma filter_filter_andb {A} (f k : A -> bool) (l : list A) :
  List.filter k (List.filter f l) = List.filter (fun x => f x && k x) l.
Proof.
  induction l as [|a l IH]; simpl; [reflexivity|].
  destruct (f a); simpl; [|exact IH].
  destruct (k a); simpl; rewrite IH; reflexivity.
Qed.

Lemma head_filter_first {A} (f : A -> bool) (l : list A) :
  match head (List.filter f l) with
  | Some x => exists pre post, l = pre ++ x :: post /\ f x = true
                               /\ Forall (fun y => f y = false) pre
  | None => Forall (fun y => f y = false) l
  end.
Proof.
  induction l as [|a l IH]; simpl; [constructor|].
  destruct (f a) eqn:Ha; simpl.
  - exists [], l. repeat split; auto.
  - destruct (head (List.filter f l)) as [x|].
    + destruct IH as (pre & post & -> & Hx & Hpre).
      exists (a :: pre), post. repeat split; auto.
    + constructor; auto.
Qed.

Lemma includes_In (l : list Direction) d : includes l d = true <-> In d l.
Proof. unfold includes. rewrite bool_decide_eq_true. apply list_elem_of_In. Qed.

Lemma forallb_includes (cs req : list Direction) :
  forallb (includes cs) req = true <-> incl req cs.
Proof.
  rewrite forallb_forall. split; intros H d Hd.
  - apply includes_In, H, Hd.
  - apply includes_In, H, Hd.
Qed.

Lemma exact_filter_iff (req : list Direction) (s : Sprite) :
  List.NoDup req ->
  ((Nat.eqb (length (connects (connectivity s))) (length req)
      && forallb (includes (connects (connectivity s))) req)
   && (bool_decide (category s = CatGround) && isRoadSprite s) = true
   <-> exact_road_match req s).
Proof.
  intros Hnd. unfold exact_road_match.
  rewrite !andb_true_iff, Nat.eqb_eq, forallb_includes, bool_decide_eq_true.
  split.
  - intros [[Hl Hi] [Hc Hr]]. split; [exact Hc|]. split; [exact Hr|].
    split; [exact Hl|]. intros d. split.
    + apply (NoDup_length_incl (l := req)); auto. lia.
    + intros Hd. apply Hi, Hd.
  - intros (Hc & Hr & Hl & Hi). split; [split|split]; auto.
    intros d Hd. apply Hi, Hd.
Qed.

(** C5: for a duplicate-free direction set, the resolver returns the first
    catalog entry that is an exact ground-road match, and nothing when
    there is none. *)
Theorem findMatchingRoadSprite_first_exact :
  forall (g : GridState) (req : list Direction),
    List.NoDup req ->
    match findMatchingRoadSprite g req with
    | Some s => exists pre post, sprites g = pre ++ s :: post
                                 /\ exact_road_match req s
                                 /\ Forall (fun s' => ~ exact_road_match req s') pre
    | None => Forall (fun s' => ~ exact_road_match req s') (sprites g)
    end.
Proof.
  intros g req Hnd. unfold findMatchingRoadSprite, getSpritesWithConnections.
  rewrite filter_filter_andb.
  match goal with
  | |- context [head (List.filter ?f (sprites g))] =>
      pose proof (head_filter_first f (sprites g)) as H; set (F := f) in H |- *
  end.
  assert (HF : forall s, F s = true <-> exact_road_match req s)
    by (intros s; apply exact_filter_iff; exact Hnd).
  assert (HFn : forall s, F s = false -> ~ exact_road_match req s)
    by (intros s Hs Hm; apply HF in Hm; congruence).
  destruct (head (List.filter F (sprites g))) as [s|].
  - destruct H as (pre & post & Heq & Hs & Hpre).
    exists pre, post. split; [exact Heq|]. split; [apply HF, Hs|].
    eapply Forall_impl; [exact Hpre|]. intros; auto.
  - eapply Forall_impl; [exact H|]. intros; auto.
Qed.

(** ** Manhattan path *)

Lemma move_x_spec (y toX : Z) :
  forall (n : nat) (x s : Z),
    Z.abs_nat (toX - x) = n -> (n <> 0%nat -> s = Z.sgn (toX - x)) ->
    (move_x n x y toX).1 ++ [(toX, y)]
      = map (fun i : nat => (x + s * Z.of_nat i, y)) (seq 0 (S n))
    /\ (move_x n x y toX).2 = toX.
Proof.
  induction n as [|n IH]; intros x s Hn Hs.
  - assert (x = toX) by lia. subst. simpl.
    rewrite bool_decide_true by reflexivity. simpl. split; [f_equal; f_equal; lia|reflexivity].
  - change (move_x (S n) x y toX) with (if bool_decide (x = toX) then ([], x) else let '(p, x') := move_x n (x + (if x <? toX then 1 else -1)) y toX in ((x, y) :: p, x')).
    rewrite bool_decide_false by lia.
    assert (Hst : (if x <? toX then 1 else -1) = s).
    { rewrite Hs by lia. destruct (Z.ltb_spec x toX); lia. }
    rewrite Hst.
    destruct (IH (x + s) s) as [IH1 IH2].
    { lia. }
    { intros Hn0. rewrite Hs by lia. lia. }
    destruct (move_x n (x + s) y toX) as [p x'] eqn:E. cbn [fst snd] in *.
    split; [|exact IH2].
    change (seq 0 (S (S n))) with (0%nat :: seq 1 (S n)).
    rewrite map_cons, <- app_comm_cons, IH1. f_equal; [f_equal; lia|].
    rewrite <- seq_shift, map_map. apply map_ext. intros i. f_equal. lia.
Qed.

Lemma move_y_spec (x toY : Z) :
  forall (n : nat) (y s : Z),
    Z.abs_nat (toY - y) = n -> (n <> 0%nat -> s = Z.sgn (toY - y)) ->
    (move_y n x y toY).1 ++ [(x, toY)]
      = map (fun j : nat => (x, y + s * Z.of_nat j)) (seq 0 (S n))
    /\ (move_y n x y toY).2 = toY.
Proof.
  induction n as [|n IH]; intros y s Hn Hs.
  - assert (y = toY) by lia. subst. simpl.
    rewrite bool_decide_true by reflexivity. simpl. split; [f_equal; f_equal; lia|reflexivity].
  - change (move_y (S n) x y toY) with (if bool_decide (y = toY) then ([], y) else let '(p, y') := move_y n x (y + (if y <? toY then 1 else -1)) toY in ((x, y) :: p, y')).
    rewrite bool_decide_false by lia.
    assert (Hst : (if y <? toY then 1 else -1) = s).
    { rewrite Hs by lia. destruct (Z.ltb_spec y toY); lia. }
    rewrite Hst.
    destruct (IH (y + s) s) as [IH1 IH2].
    { lia. }
    { intros Hn0. rewrite Hs by lia. lia. }
    destruct (move_y n x (y + s) toY) as [p y'] eqn:E. cbn [fst snd] in *.
    split; [|exact IH2].
    change (seq 0 (S (S n))) with (0%nat :: seq 1 (S n)).
    rewrite map_cons, <- app_comm_cons, IH1. f_equal; [f_equal; lia|].
    rewrite <- seq_shift, map_map. apply map_ext. intros i. f_equal. lia.
Qed.

Lemma path_steps_line (f : nat -> Z * Z) (dxy : Z * Z) :
  (forall i, ((f (S i)).1 - (f i).1, (f (S i)).2 - (f i).2) = dxy) ->
  forall n k, path_steps (map f (seq k (S n))) = repeat dxy n.
Proof.
  intros Hf. induction n as [|n IH]; intros k; [reflexivity|].
  change (seq k (S (S n))) with (k :: seq (S k) (S n)).
  change (seq (S k) (S n)) with (S k :: seq (S (S k)) n) at 1.
  simpl map. cbn [path_steps].
  rewrite Hf. cbn [repeat]. f_equal. specialize (IH (S k)). simpl in IH. exact IH.
Qed.

Lemma path_steps_app (l1 l2 : list (Z * Z)) (a b : Z * Z) :
  path_steps (l1 ++ [a] ++ b :: l2)
  = path_steps (l1 ++ [a]) ++ [(b.1 - a.1, b.2 - a.2)] ++ path_steps (b :: l2).
Proof.
  induction l1 as [|c l1 IH]; [reflexivity|].
  destruct l1 as [|d l1]; [reflexivity|].
  simpl in *. rewrite IH. reflexivity.
Qed.

Lemma bends_repeat2 (a b : Z * Z) (n m : nat) :
  (bends (repeat a n ++ repeat b m) <= 1)%nat.
Proof.
  assert (Hb : forall k, bends (repeat b k) = 0%nat).
  { induction k as [|k IH]; [reflexivity|].
    destruct k; [reflexivity|]. simpl in *. rewrite bool_decide_true by reflexivity.
    exact IH. }
  induction n as [|n IH].
  - simpl. rewrite Hb. lia.
  - destruct n as [|n].
    + destruct m as [|m]; [simpl; lia|].
      change (bends (a :: repeat b (S m)) <= 1)%nat.
      change (bends (a :: repeat b (S m)))
        with (((if bool_decide (a = b) then 0 else 1) + bends (repeat b (S m)))%nat).
      rewrite Hb. destruct (bool_decide (a = b)); lia.
    + simpl in *. rewrite bool_decide_true by reflexivity. exact IH.
Qed.

Lemma sgn_mul_abs_nat (v : Z) : Z.sgn v * Z.of_nat (Z.abs_nat v) = v.
Proof. rewrite Zabs2Nat.id_abs. destruct v; simpl; lia. Qed.

Lemma repeat_snoc {A} (x : A) (n : nat) : repeat x n ++ [x] = x :: repeat x n.
Proof. induction n as [|n IH]; simpl; [reflexivity|]. rewrite IH. reflexivity. Qed.

(** C6: the route runs along [fromY] from [fromX] to [toX], then along
    [toX] from [fromY] to [toY]; it has [|dx| + |dy| + 1] points, starts
    and ends at the endpoints, each step is a unit 4-neighbour step, the
    horizontal steps all come first, and there is at most one bend. *)
Theorem generateManhattanPath_L_shape :
  forall fromX fromY toX toY : Z,
    let p := generateManhattanPath fromX fromY toX toY in
    let nx := Z.abs_nat (toX - fromX) in
    let ny := Z.abs_nat (toY - fromY) in
    p = map (fun i : nat => (fromX + Z.sgn (toX - fromX) * Z.of_nat i, fromY)) (seq 0 nx)
        ++ map (fun j : nat => (toX, fromY + Z.sgn (toY - fromY) * Z.of_nat j)) (seq 0 (S ny))
    /\ length p = (nx + ny + 1)%nat
    /\ head p = Some (fromX, fromY)
    /\ last p = Some (toX, toY)
    /\ path_steps p = repeat (Z.sgn (toX - fromX), 0) nx ++ repeat (0, Z.sgn (toY - fromY)) ny
    /\ Forall (fun st => Z.abs st.1 + Z.abs st.2 = 1) (path_steps p)
    /\ (bends (path_steps p) <= 1)%nat.
Proof.
  intros fromX fromY toX toY p nx ny.
  set (sx := Z.sgn (toX - fromX)). set (sy := Z.sgn (toY - fromY)).
  set (f := fun i : nat => (fromX + sx * Z.of_nat i, fromY)).
  set (gy := fun j : nat => (toX, fromY + sy * Z.of_nat j)).
  assert (Hx : Z.of_nat nx * sx = toX - fromX)
    by (subst nx sx; rewrite Z.mul_comm; apply sgn_mul_abs_nat).
  assert (Hy : Z.of_nat ny * sy = toY - fromY)
    by (subst ny sy; rewrite Z.mul_comm; apply sgn_mul_abs_nat).
  assert (Hp : p = map f (seq 0 nx) ++ map gy (seq 0 (S ny))).
  { subst p. unfold generateManhattanPath.
    change (Z.abs_nat (toX - fromX)) with nx. change (Z.abs_nat (toY - fromY)) with ny.
    destruct (move_x_spec fromY toX nx fromX sx) as [H1 H2]; [reflexivity|auto|].
    destruct (move_x nx fromX fromY toX) as [p1 x'] eqn:E1. cbn [fst snd] in H1, H2. subst x'.
    destruct (move_y_spec toX toY ny fromY sy) as [H3 H4]; [reflexivity|auto|].
    destruct (move_y ny toX fromY toY) as [p2 y'] eqn:E2. cbn [fst snd] in H3.
    rewrite H3. f_equal.
    rewrite seq_S, map_app in H1. simpl in H1.
    apply app_inj_tail in H1 as [H1 _]. exact H1. }
  assert (Hsteps : path_steps p = repeat (sx, 0) nx ++ repeat (0, sy) ny).
  { rewrite Hp.
    assert (Hg : path_steps (map gy (seq 0 (S ny))) = repeat (0, sy) ny).
    { apply path_steps_line. intros i. subst gy. simpl. f_equal; lia. }
    destruct nx as [|n'] eqn:Enx; [exact Hg|].
    rewrite seq_S, map_app. simpl (map f [(0 + n')%nat]).
    change (seq 0 (S ny)) with (0%nat :: seq 1 ny). rewrite map_cons.
    rewrite <- app_assoc, path_steps_app.
    rewrite <- map_cons. change (0%nat :: seq 1 ny) with (seq 0 (S ny)). rewrite Hg.
    replace (map f (seq 0 n') ++ [f n']) with (map f (seq 0 (S n')))
      by (rewrite seq_S, map_app; reflexivity).
    rewrite (path_steps_line f (sx, 0)); [|intros i; subst f; simpl; f_equal; lia].
    rewrite app_assoc. f_equal.
    replace ((gy 0%nat).1 - (f n').1, (gy 0%nat).2 - (f n').2) with (sx, 0)
      by (subst f gy; simpl; f_equal; lia).
    apply repeat_snoc. }
  split; [exact Hp|]. split.
  { rewrite Hp, length_app, !length_map, !length_seq. lia. }
  split.
  { rewrite Hp. destruct nx as [|n'] eqn:Enx; simpl.
    - subst gy. f_equal. f_equal; lia.
    - subst f. f_equal. f_equal; lia. }
  split.
  { rewrite Hp, seq_S, map_app, app_assoc. simpl (map gy _).
    rewrite last_snoc. subst gy. f_equal. f_equal. lia. }
  split; [exact Hsteps|]. split.
  { rewrite Hsteps. apply Forall_app. split; apply Forall_forall; intros st Hin; apply list_elem_of_In in Hin.
    - assert (Hn : nx <> 0%nat) by (intros E; rewrite E in Hin; simpl in Hin; contradiction).
      apply repeat_spec in Hin. subst st. simpl.
      assert (sx <> 0) by lia. subst sx. destruct (toX - fromX); simpl in *; lia.
    - assert (Hn : ny <> 0%nat) by (intros E; rewrite E in Hin; simpl in Hin; contradiction).
      apply repeat_spec in Hin. subst st. simpl.
      assert (sy <> 0) by lia. subst sy. destruct (toY - fromY); simpl in *; lia. }
  rewrite Hsteps. apply bends_repeat2.
Qed.

(** ** Canvas size *)

Lemma js_round_integer (k : Z) (v : Q) : v == inject_Z k -> js_round v = k.
Proof.
  intros Hv. unfold js_round.
  rewrite (Qfloor_comp (v + (1 # 2)) ((2 * k + 1) # 2)).
  - unfold Qfloor. simpl.
    rewrite Z.mul_comm, Z.div_add_l by lia. change (1 / 2) with 0. lia.
  - rewrite Hv. unfold Qeq, inject_Z. simpl. lia.
Qed.

(** C8 (as stated, refuted): with a tile size of 256 and a scale of
    1/512, a 10-tile-wide map is rendered 10 pixels wide, not
    10 * 256 / 512 = 5. *)
Lemma renderMap_size_not_exact_product :
  ~ (inject_Z (render_width (renderMap_size 10 10 256 (Some (1 # 512))))
     == inject_Z 10 * inject_Z 256 * (1 # 512)).
Proof. unfold Qeq. vm_compute. discriminate. Qed.

(** C8 (amended): the canvas is [gridWidth * round(tileSize * scale)] by
    [gridHeight * round(tileSize * scale)]; this is the exact product
    whenever [tileSize * scale] is a whole number of pixels, and for a
    grid of non-zero width (height) the width (height) is its exact
    product only then. *)
Theorem renderMap_size_rounded_tiles :
  forall (mapWidth mapHeight : Z) (tileSize : Q) (scale_opt : option Q),
    let scale := match scale_opt with Some s => s | None => 1 # 4 end in
    let r := renderMap_size mapWidth mapHeight tileSize scale_opt in
    render_width r = mapWidth * js_round (tileSize * scale)
    /\ render_height r = mapHeight * js_round (tileSize * scale)
    /\ (forall k : Z, tileSize * scale == inject_Z k ->
          inject_Z (render_width r) == inject_Z mapWidth * tileSize * scale
          /\ inject_Z (render_height r) == inject_Z mapHeight * tileSize * scale)
    /\ (mapWidth <> 0 ->
        inject_Z (render_width r) == inject_Z mapWidth * tileSize * scale ->
        exists k : Z, tileSize * scale == inject_Z k)
    /\ (mapHeight <> 0 ->
        inject_Z (render_height r) == inject_Z mapHeight * tileSize * scale ->
        exists k : Z, tileSize * scale == inject_Z k).
Proof.
  intros mapWidth mapHeight tileSize scale_opt scale r.
  assert (Hconv : forall n : Z, n <> 0 ->
            inject_Z (n * js_round (tileSize * scale)) == inject_Z n * tileSize * scale ->
            exists k : Z, tileSize * scale == inject_Z k).
  { intros n Hn H. exists (js_round (tileSize * scale)).
    rewrite inject_Z_mult, <- Qmult_assoc in H.
    apply Qmult_inj_l in H; [symmetry; exact H|].
    unfold Qeq. simpl. lia. }
  split; [reflexivity|]. split; [reflexivity|]. split.
  - intros k Hk. subst r. unfold renderMap_size. fold scale. simpl.
    rewrite (js_round_integer k) by exact Hk.
    rewrite !inject_Z_mult, <- !Qmult_assoc, Hk. split; reflexivity.
  - split; intros Hn H; apply (Hconv _ Hn); exact H.
Qed.

Lemma renderMap_size_rounded_tiles_witness :
  (256 : Q) * (1 # 8) == inject_Z 32
  /\ inject_Z (render_width (renderMap_size 10 7 256 (Some (1 # 8))))
       == inject_Z 10 * 256 * (1 # 8).
Proof.
  split; [reflexivity|].
  apply (proj1 (proj1 (proj2 (proj2 (renderMap_size_rounded_tiles 10 7 256 (Some (1 # 8))))) 32
                  ltac:(reflexivity))).
Defined.

(** ** placeAsset *)

(** C10: a placement aimed at the object layer of a cell whose object
    layer is occupied fails and leaves the grid as it was. *)
Theorem placeAsset_occupied_object_refused :
  forall (g : GridState) (x y : Z) (a : string) (layer : option Layer) (c : MapCell),
    getTile g x y LObject = Some c ->
    match layer with
    | Some l => l = LObject
    | None => forall s, getSprite g a = Some s -> pl_layer (placement s) = LObject
    end ->
    pa_success (placeAsset x y a layer g).1 = false
    /\ (placeAsset x y a layer g).2 = g.
Proof.
  intros g x y a layer c Hc Hl. unfold placeAsset.
  destruct (out_of_bounds g x y) eqn:Hb; [split; reflexivity|].
  destruct (getSprite g a) as [s|] eqn:Hs; [|split; reflexivity].
  assert (Ht : match layer with Some l => l | None => pl_layer (placement s) end = LObject).
  { destruct layer; [exact Hl|]. apply Hl. reflexivity. }
  rewrite Ht.
  destruct (getTile g x y LGround); [|split; reflexivity].
  rewrite Hc. split; reflexivity.
Qed.

(** ** Upgrades over the layout catalog *)

(** C1 (as stated, refuted): upgrading the horizontal tile at (2,2) with
    north changes nothing; the cell keeps the east-west tile. *)
Lemma layout_upgrade_north_keeps_horizontal :
  getTile horizontal_grid 2 2 LGround = Some (mkMapCell "sprite_0" LGround)
  /\ option_map (fun s => connects (connectivity s)) (getSprite horizontal_grid "sprite_0")
     = Some [east; west]
  /\ updateAdjacentRoad 2 2 north horizontal_grid = (inr false, horizontal_grid)
  /\ ~ (exists s, getSprite horizontal_grid "sprite_0" = Some s
                  /\ forall d, In d (connects (connectivity s)) <-> In d [east; west; north]).
Proof.
  split; [vm_compute; reflexivity|].
  split; [vm_compute; reflexivity|].
  split; [vm_compute; reflexivity|].
  intros (s & Hs & Hd). vm_compute in Hs. injection Hs as <-.
  destruct (proj2 (Hd north)) as [H|[H|[]]]; [simpl; auto| discriminate | discriminate].
Qed.

Lemma layout_no_north_T_junction (sems : list SpriteSemantic) (g : GridState) :
  sprites g = layoutCatalog sems ->
  findMatchingRoadSprite g [east; west; north] = None.
Proof.
  intros Hsp. unfold findMatchingRoadSprite, getSpritesWithConnections.
  rewrite Hsp. vm_compute. reflexivity.
Qed.

(** C1 (amended): over the layout catalog, whatever ids the LLM chose,
    the only T-junction connects south, east and west.  Upgrading a tile
    whose sprite connects exactly east and west with north finds no
    sprite, returns false and leaves the grid unchanged; an upgrade with
    south finds the T-junction. *)
Theorem layout_upgrade_east_west :
  forall (sems : list SpriteSemantic) (g : GridState) (x y : Z) (t : MapCell) (s : Sprite),
    sprites g = layoutCatalog sems ->
    getTile g x y LGround = Some t ->
    getSprite g (assetId t) = Some s ->
    connects (connectivity s) = [east; west] ->
    updateAdjacentRoad x y north g = (inr false, g)
    /\ exists sj, findMatchingRoadSprite g [east; west; south] = Some sj
                  /\ connects (connectivity sj) = [south; east; west]
                  /\ ctype (connectivity sj) = Intersection.
Proof.
  intros sems g x y t s Hsp Ht Hs Hc. split.
  - unfold updateAdjacentRoad. cbv [mbind GM_bind gget]. rewrite Ht, Hs.
    destruct (isRoadSprite s); [|reflexivity]. simpl negb. cbv iota.
    rewrite Hc. change ([east; west] ++ [north]) with [east; west; north].
    rewrite (layout_no_north_T_junction sems g Hsp). reflexivity.
  - unfold findMatchingRoadSprite, getSpritesWithConnections. rewrite Hsp.
    eexists. vm_compute. split; [reflexivity|]. split; reflexivity.
Qed.

Lemma layout_upgrade_east_west_witness :
  getTile horizontal_grid 2 2 LGround = Some (mkMapCell "sprite_0" LGround)
  /\ updateAdjacentRoad 2 2 north horizontal_grid = (inr false, horizontal_grid).
Proof.
  split; [vm_compute; reflexivity|].
  refine (proj1 (layout_upgrade_east_west [] horizontal_grid 2 2
                   (mkMapCell "sprite_0" LGround) (layoutCatalog [] !!! 0%nat)
                   eq_refl _ _ _)); vm_compute; reflexivity.
Defined.

(** ** Witnesses for the small claims *)

Lemma setTile_out_of_bounds_unchanged_witness :
  getSprite layout_grid "sprite_0" = Some (layoutCatalog [] !!! 0%nat)
  /\ setTileM (-1) 0 "sprite_0" LGround layout_grid
     = (inl (OutOfBounds (-1) 0), layout_grid)
  /\ setTileM 5 0 "sprite_0" LGround layout_grid = (inl (OutOfBounds 5 0), layout_grid)
  /\ (layout_grid = layout_grid
      /\ ((UnknownSprite "no_such_tile" = UnknownSprite "no_such_tile"
           /\ getSprite layout_grid "no_such_tile" = None)
          \/ (UnknownSprite "no_such_tile" = OutOfBounds 9 9 /\ out_of_bounds layout_grid 9 9 = true))).
Proof.
  split; [vm_compute; reflexivity|]. split; [|split].
  - apply (proj1 setTile_out_of_bounds_unchanged layout_grid (-1) 0 "sprite_0" LGround
             (layoutCatalog [] !!! 0%nat)); vm_compute; reflexivity.
  - apply (proj1 setTile_out_of_bounds_unchanged layout_grid 5 0 "sprite_0" LGround
             (layoutCatalog [] !!! 0%nat)); vm_compute; reflexivity.
  - apply (proj2 setTile_out_of_bounds_unchanged layout_grid 9 9 "no_such_tile" LGround).
    vm_compute. reflexivity.
Defined.

Lemma setTile_unknown_sprite_first_witness :
  getSprite layout_grid "no_such_tile" = None
  /\ setTileM 9 9 "no_such_tile" LGround layout_grid
     = (inl (UnknownSprite "no_such_tile"), layout_grid).
Proof.
  split; [vm_compute; reflexivity|].
  apply setTile_unknown_sprite_first. vm_compute. reflexivity.
Defined.

Lemma findMatchingRoadSprite_first_exact_witness :
  List.NoDup [south; east; west]
  /\ exists pre post, sprites layout_grid = pre ++ (layoutCatalog [] !!! 7%nat) :: post
       /\ exact_road_match [south; east; west] (layoutCatalog [] !!! 7%nat)
       /\ Forall (fun s' => ~ exact_road_match [south; east; west] s') pre.
Proof.
  assert (Hnd : List.NoDup [south; east; west]).
  { repeat constructor; simpl; intuition discriminate. }
  split; [exact Hnd|].
  pose proof (findMatchingRoadSprite_first_exact layout_grid [south; east; west] Hnd) as H.
  exact H.
Defined.

Lemma placeAsset_occupied_object_refused_witness :
  getTile occupied_grid 1 1 LObject = Some (mkMapCell "sprite_16" LObject)
  /\ pa_success (placeAsset 1 1 "sprite_20" None occupied_grid).1 = false
  /\ (placeAsset 1 1 "sprite_20" None occupied_grid).2 = occupied_grid.
Proof.
  split; [vm_compute; reflexivity|].
  apply (placeAsset_occupied_object_refused occupied_grid 1 1 "sprite_20" None
           (mkMapCell "sprite_16" LObject)).
  - vm_compute. reflexivity.
  - intros s Hs. vm_compute in Hs. injection Hs as <-. reflexivity.
Defined.


(** ** Runs of the repair tool

    [connectRoads] only writes through [updateAdjacentRoad] and through
    the [setTile] of a path point that is not a road; any relation that
    covers those two writes covers the whole run. *)

Section Runs.
Variable R : GridState -> GridState -> Prop.
Variable I : GridState -> Prop.
Hypothesis R_keeps_I : forall g g', R g g' -> I g -> I g'.

Lemma runs_rt_I (g g' : GridState) : clos_refl_trans GridState R g g' -> I g -> I g'.
Proof. induction 1; eauto. Qed.

Lemma runs_ret {A} (a : A) : runs_in R I (mret a).
Proof. intros g _. apply rt_refl. Qed.

Lemma runs_bind {A B} (m : GM A) (k : A -> GM B) :
  runs_in R I m -> (forall a, runs_in R I (k a)) -> runs_in R I (m ≫= k).
Proof.
  intros Hm Hk g Hg. cbv [mbind GM_bind]. specialize (Hm g Hg).
  destruct (m g) as [[e|a] g'] eqn:E; simpl in *; [exact Hm|].
  eapply rt_trans; [exact Hm|]. apply Hk. eapply runs_rt_I; eauto.
Qed.

Lemma runs_get {A} (k : GridState -> GM A) :
  (forall g, runs_in R I (k g)) -> runs_in R I (gget ≫= k).
Proof. intros Hk g Hg. apply (Hk g g Hg). Qed.

Lemma runs_catch {A} (m : GM A) (hdl : GridError -> GM A) :
  runs_in R I m -> (forall e, runs_in R I (hdl e)) -> runs_in R I (gcatch m hdl).
Proof.
  intros Hm Hh g Hg. unfold gcatch. specialize (Hm g Hg).
  destruct (m g) as [[e|a] g'] eqn:E; simpl in *; [|exact Hm].
  eapply rt_trans; [exact Hm|]. apply Hh. eapply runs_rt_I; eauto.
Qed.

Hypothesis upgrade_step : forall x y nc, runs_in R I (updateAdjacentRoad x y nc).
Hypothesis fill_step : forall g px py conns s g1,
  I g -> isRoadAt g px py = false -> findMatchingRoadSprite g conns = Some s ->
  setTile g px py (id s) LGround = inr g1 -> R g g1.

Lemma runs_updateAdjacentRoads x y placed : runs_in R I (updateAdjacentRoads x y placed).
Proof.
  induction placed as [|d rest IH]; simpl; [apply runs_ret|].
  destruct (DIRECTION_OFFSETS d) as [dx dy].
  apply runs_get. intros g.
  destruct (out_of_bounds g (x + dx) (y + dy)); [exact IH|].
  apply runs_bind; [apply upgrade_step|]. intros b.
  apply runs_bind; [exact IH|]. intros n. apply runs_ret.
Qed.

Lemma runs_skip_updates px py dirs n : runs_in R I (skip_updates px py dirs n).
Proof.
  revert n. induction dirs as [|d r IH]; intros n; simpl; [apply runs_ret|].
  destruct (DIRECTION_OFFSETS d) as [dx dy].
  apply runs_bind; [apply upgrade_step|]. intros b. apply IH.
Qed.

Lemma runs_connect_point path i pt acc : runs_in R I (connect_point path i pt acc).
Proof.
  intros g Hg. unfold connect_point. cbv [mbind GM_bind gget]. destruct pt as [px py].
  destruct (isRoadAt g px py) eqn:Hroad.
  - apply (runs_bind _ _ (runs_skip_updates _ _ _ _)); [|exact Hg].
    intros n. apply runs_ret.
  - destruct (findMatchingRoadSprite g _) as [s|] eqn:Hf; [|apply rt_refl].
    destruct (setTile g px py (id s) LGround) as [e|g1] eqn:Hw; [apply rt_refl|].
    assert (Hstep : R g g1) by (eapply fill_step; eauto).
    cbv [gput]. eapply rt_trans; [apply rt_step, Hstep|].
    apply runs_catch.
    + apply runs_bind; [apply runs_updateAdjacentRoads|]. intros n. apply runs_ret.
    + intros e. apply runs_ret.
    + eapply R_keeps_I; eauto.
Qed.

Lemma runs_connect_loop path i rest acc : runs_in R I (connect_loop path i rest acc).
Proof.
  revert i acc. induction rest as [|pt r IH]; intros i acc; simpl; [apply runs_ret|].
  apply runs_bind; [apply runs_connect_point|]. intros a. apply IH.
Qed.

Lemma runs_connect_pairs isl acc conns : runs_in R I (connect_pairs isl acc conns).
Proof.
  revert acc conns. induction isl as [|prev rest IH]; intros acc conns; simpl;
    [apply runs_ret|].
  destruct rest as [|cur r]; [apply runs_ret|].
  destruct (findNearestTilesBetweenIslands (tiles prev) (tiles cur)) as [[from to] dd].
  apply runs_bind; [apply runs_connect_loop|]. intros a. apply IH.
Qed.

Lemma runs_connectRoads : runs_in R I connectRoads.
Proof.
  unfold connectRoads. apply runs_get. intros g.
  destruct (connected (validateRoadConnectivity g)); [apply runs_ret|].
  apply runs_bind; [apply runs_connect_pairs|]. intros [acc conns].
  apply runs_get. intros g'. apply runs_ret.
Qed.

End Runs.

(** ** Network repair only upgrades existing roads *)

Lemma with_layer_sprites (g : GridState) l t : sprites (with_layer g l t) = sprites g.
Proof. destruct l; reflexivity. Qed.

Lemma setTile_sprites (g g' : GridState) x y a l :
  setTile g x y a l = inr g' -> sprites g' = sprites g.
Proof.
  unfold setTile. destruct (getSpriteOrThrow g a); [discriminate|].
  destruct (out_of_bounds g x y); [discriminate|].
  destruct (layer_of g l !! Z.to_nat y); intros H; injection H as <-;
    [apply with_layer_sprites|reflexivity].
Qed.

Lemma legit_write_nodup (g g' : GridState) :
  legit_write g g' -> catalog_connects_nodup g -> catalog_connects_nodup g'.
Proof.
  intros (x & y & a & Hw & _). unfold catalog_connects_nodup.
  rewrite (setTile_sprites _ _ _ _ _ _ Hw). auto.
Qed.

Lemma findMatchingRoadSprite_some (g : GridState) (req : list Direction) (ns : Sprite) :
  findMatchingRoadSprite g req = Some ns ->
  In ns (sprites g) /\ isRoadSprite ns = true
  /\ length (connects (connectivity ns)) = length req
  /\ incl req (connects (connectivity ns)).
Proof.
  unfold findMatchingRoadSprite, getSpritesWithConnections. intros H.
  assert (Hin : In ns (List.filter (fun s => bool_decide (category s = CatGround) && isRoadSprite s)
                  (List.filter (fun s => (Nat.eqb (length (connects (connectivity s))) (length req))
                       && forallb (includes (connects (connectivity s))) req) (sprites g)))).
  { destruct (List.filter _ _) as [|a l]; simpl in H; [discriminate|].
    injection H as <-. left. reflexivity. }
  apply filter_In in Hin as [Hin Hroad]. apply andb_true_iff in Hroad as [_ Hroad].
  apply filter_In in Hin as [Hin Hok].
  apply andb_true_iff in Hok as [Hl Hi]. apply Nat.eqb_eq in Hl.
  apply forallb_includes in Hi. auto.
Qed.

Lemma getSprite_In (g : GridState) i s : getSprite g i = Some s -> In s (sprites g).
Proof. unfold getSprite. intros H. apply find_some in H. tauto. Qed.

Lemma updateAdjacentRoad_legit x y nc :
  runs_in legit_write catalog_connects_nodup (updateAdjacentRoad x y nc).
Proof.
  intros g Hg. unfold updateAdjacentRoad. cbv [mbind GM_bind gget mret GM_ret].
  destruct (getTile g x y LGround) as [t|] eqn:Ht; [|apply rt_refl].
  destruct (getSprite g (assetId t)) as [s|] eqn:Hs; [|apply rt_refl].
  destruct (negb (isRoadSprite s)); [apply rt_refl|].
  destruct (includes (connects (connectivity s)) nc) eqn:Hnc; [apply rt_refl|].
  destruct (findMatchingRoadSprite g (connects (connectivity s) ++ [nc])) as [ns|] eqn:Hf;
    [|apply rt_refl].
  destruct (bool_decide (id ns <> assetId t)); [|apply rt_refl].
  unfold setTileM. destruct (setTile g x y (id ns) LGround) as [e|g1] eqn:Hw;
    [apply rt_refl|].
  simpl. apply rt_step. exists x, y, (id ns). split; [exact Hw|]. intros _.
  apply findMatchingRoadSprite_some in Hf as (Hin & _ & Hlen & Hincl).
  assert (Hnin : ~ In nc (connects (connectivity s))).
  { intros Hi. apply includes_In in Hi. congruence. }
  assert (Hnd : List.NoDup (connects (connectivity s) ++ [nc])).
  { eapply Permutation_NoDup; [apply Permutation_cons_append|].
    constructor; [exact Hnin|].
    unfold catalog_connects_nodup in Hg. rewrite Forall_forall in Hg.
    apply Hg, list_elem_of_In, (getSprite_In g (assetId t) s Hs). }
  exists t, s, ns, nc. split; [exact Ht|]. split; [exact Hs|].
  split; [exact Hin|]. split; [reflexivity|]. split; [exact Hnin|].
  intros e. split.
  - intros He.
    assert (Hr : In e (connects (connectivity s) ++ [nc])).
    { apply (NoDup_length_incl (l := connects (connectivity s) ++ [nc])
               (l' := connects (connectivity ns))); auto. lia. }
    apply in_app_iff in Hr. simpl in Hr. destruct Hr as [Hr|[Hr|[]]]; auto.
  - intros Hr. apply Hincl, in_app_iff. simpl. destruct Hr; auto.
Qed.

Lemma fill_legit g px py (conns : list Direction) s g1 :
  catalog_connects_nodup g -> isRoadAt g px py = false ->
  findMatchingRoadSprite g conns = Some s ->
  setTile g px py (id s) LGround = inr g1 -> legit_write g g1.
Proof. intros _ Hr _ Hw. exists px, py, (id s). split; [exact Hw|]. congruence. Qed.

(** C4: over a catalog whose entries list each direction once, the final
    grid of network repair is reached from the initial one by ground-layer
    writes, each of which, on a cell already holding a road, writes the id
    of a catalog sprite connecting the old tile's directions plus exactly
    one new direction.  Road cells skipped by the repair are therefore
    never overwritten except by such upgrades. *)
Theorem connectRoads_only_upgrades_roads :
  forall g : GridState,
    catalog_connects_nodup g ->
    clos_refl_trans GridState legit_write g (connectRoads g).2.
Proof.
  intros g Hg.
  exact (runs_connectRoads legit_write catalog_connects_nodup legit_write_nodup
           updateAdjacentRoad_legit fill_legit g Hg).
Qed.

Lemma connectRoads_only_upgrades_roads_witness :
  catalog_connects_nodup two_islands_grid
  /\ clos_refl_trans GridState legit_write two_islands_grid (connectRoads two_islands_grid).2.
Proof.
  assert (H : catalog_connects_nodup two_islands_grid).
  { unfold catalog_connects_nodup. vm_compute.
    repeat constructor; simpl; intuition discriminate. }
  split; [exact H|]. exact (connectRoads_only_upgrades_roads two_islands_grid H).
Defined.

(** ** Connection gating of drawRoad *)

Lemma out_of_bounds_false (g : GridState) x y :
  out_of_bounds g x y = false <-> 0 <= x < width g /\ 0 <= y < height g.
Proof.
  unfold out_of_bounds. rewrite !orb_false_iff, !Z.ltb_ge, !Z.geb_leb, !Z.leb_gt. lia.
Qed.

Lemma getTile_setTile_ground (g g' : GridState) x y a :
  ground_wf g -> setTile g x y a LGround = inr g' ->
  forall x' y', getTile g' x' y' LGround =
    if bool_decide (x' = x /\ y' = y) then Some (mkMapCell a LGround)
    else getTile g x' y' LGround.
Proof.
  intros [Hlen Hrows] Hw x' y'. unfold setTile, getSpriteOrThrow in Hw.
  destruct (getSprite g a); [|discriminate].
  destruct (out_of_bounds g x y) eqn:Hob; [discriminate|].
  change (layer_of g LGround) with (ground g) in Hw.
  pose proof Hob as Hb. apply out_of_bounds_false in Hb as [Hx Hy].
  destruct (ground g !! Z.to_nat y) as [r|] eqn:Hr;
    [|apply lookup_ge_None in Hr; lia].
  injection Hw as <-.
  assert (Hrl : length r = Z.to_nat (width g))
    by exact (Forall_lookup_1 (fun r => length r = Z.to_nat (width g)) _ _ _ Hrows Hr).
  assert (Hob_eq : forall T, out_of_bounds (mkGrid (width g) (height g) (sprites g) T (objects g))
                                           x' y' = out_of_bounds g x' y') by reflexivity.
  unfold getTile. rewrite Hob_eq. cbn [layer_of with_layer ground].
  destruct (out_of_bounds g x' y') eqn:Hob'.
  { case_bool_decide as E; [|reflexivity]. destruct E as [-> ->]. congruence. }
  apply out_of_bounds_false in Hob' as [Hx' Hy'].
  case_bool_decide as E.
  - destruct E as [-> ->]. rewrite list_lookup_insert_eq by lia.
    rewrite list_lookup_insert_eq by lia. reflexivity.
  - destruct (decide (y' = y)) as [->|Hne].
    + assert (x' <> x) by tauto.
      rewrite list_lookup_insert_eq by lia. rewrite Hr.
      rewrite list_lookup_insert_ne by lia. reflexivity.
    + rewrite list_lookup_insert_ne by lia. reflexivity.
Qed.

Lemma setTile_ground_wf (g g' : GridState) x y a :
  ground_wf g -> setTile g x y a LGround = inr g' -> ground_wf g'.
Proof.
  intros [Hlen Hrows] Hw. unfold setTile, getSpriteOrThrow in Hw.
  destruct (getSprite g a); [|discriminate].
  destruct (out_of_bounds g x y); [discriminate|].
  change (layer_of g LGround) with (ground g) in Hw.
  destruct (ground g !! Z.to_nat y) as [r|] eqn:Hr;
    injection Hw as <-; [|split; assumption].
  split; cbn [with_layer ground width height].
  - rewrite length_insert. exact Hlen.
  - apply Forall_insert; [exact Hrows|]. rewrite length_insert.
    exact (Forall_lookup_1 (fun r => length r = Z.to_nat (width g)) _ _ _ Hrows Hr).
Qed.

Lemma find_id_unique (l : list Sprite) (s : Sprite) :
  List.NoDup (map id l) -> In s l ->
  List.find (fun s' => bool_decide (id s' = id s)) l = Some s.
Proof.
  induction l as [|a l IH]; simpl; [tauto|].
  intros Hnd Hin. apply NoDup_cons_iff in Hnd as [Hna Hnd].
  destruct Hin as [->|Hin].
  - rewrite bool_decide_eq_true_2 by reflexivity. reflexivity.
  - case_bool_decide as E; [|apply IH; auto].
    exfalso. apply Hna. rewrite E. apply in_map, Hin.
Qed.

Lemma getSprite_same (g g' : GridState) i : sprites g' = sprites g -> getSprite g' i = getSprite g i.
Proof. unfold getSprite. intros ->. reflexivity. Qed.

(** A road write marks its cell as a road and keeps every other cell. *)
Lemma isRoadAt_road_write (g g' : GridState) x y s :
  ground_wf g -> ids_unique g -> In s (sprites g) -> isRoadSprite s = true ->
  setTile g x y (id s) LGround = inr g' ->
  forall x' y', isRoadAt g' x' y' =
    if bool_decide (x' = x /\ y' = y) then true else isRoadAt g x' y'.
Proof.
  intros Hwf Hu Hin Hroad Hw x' y'. unfold isRoadAt at 1.
  rewrite (getTile_setTile_ground g g' x y (id s) Hwf Hw).
  case_bool_decide; [|unfold isRoadAt; destruct (getTile g x' y' LGround);
                        [rewrite (getSprite_same g g' _ (setTile_sprites _ _ _ _ _ _ Hw))|];
                        reflexivity].
  cbn [assetId]. rewrite (getSprite_same g g' _ (setTile_sprites _ _ _ _ _ _ Hw)).
  unfold getSprite. rewrite find_id_unique by assumption. exact Hroad.
Qed.

Lemma road_write_kept (g g' : GridState) : road_write g g' -> roads_kept g g'.
Proof.
  intros (x & y & s & Hin & Hroad & Hw). split; [|split].
  - intros Hwf. eapply setTile_ground_wf; eauto.
  - eapply setTile_sprites; eauto.
  - intros Hwf Hu x' y' H. rewrite (isRoadAt_road_write g g' x y s Hwf Hu Hin Hroad Hw).
    case_bool_decide; auto.
Qed.

Lemma roads_kept_rt (g g' : GridState) :
  clos_refl_trans GridState road_write g g' -> roads_kept g g'.
Proof.
  induction 1 as [g g' H|g|g1 g2 g3 _ [W12 [S12 R12]] _ [W23 [S23 R23]]].
  - apply road_write_kept, H.
  - split; [auto|]. split; auto.
  - split; [auto|]. split; [congruence|].
    intros Hwf Hu x y H. apply R23; auto. unfold ids_unique. rewrite S12. exact Hu.
Qed.

Lemma updateAdjacentRoad_road x y nc : runs_in road_write (fun _ => True) (updateAdjacentRoad x y nc).
Proof.
  intros g _. unfold updateAdjacentRoad. cbv [mbind GM_bind gget mret GM_ret].
  destruct (getTile g x y LGround) as [t|]; [|apply rt_refl].
  destruct (getSprite g (assetId t)) as [s|]; [|apply rt_refl].
  destruct (negb (isRoadSprite s)); [apply rt_refl|].
  destruct (includes (connects (connectivity s)) nc); [apply rt_refl|].
  destruct (findMatchingRoadSprite g (connects (connectivity s) ++ [nc])) as [ns|] eqn:Hf;
    [|apply rt_refl].
  destruct (bool_decide (id ns <> assetId t)); [|apply rt_refl].
  unfold setTileM. destruct (setTile g x y (id ns) LGround) as [e|g1] eqn:Hw;
    [apply rt_refl|].
  apply findMatchingRoadSprite_some in Hf as (Hin & Hroad & _).
  apply rt_step. exists x, y, ns. auto.
Qed.

Lemma fill_road g px py (conns : list Direction) s g1 :
  True -> isRoadAt g px py = false -> findMatchingRoadSprite g conns = Some s ->
  setTile g px py (id s) LGround = inr g1 -> road_write g g1.
Proof.
  intros _ _ Hf Hw. apply findMatchingRoadSprite_some in Hf as (Hin & Hroad & _).
  exists px, py, s. auto.
Qed.

Lemma updateAdjacentRoads_road x y placed (g : GridState) :
  clos_refl_trans GridState road_write g (updateAdjacentRoads x y placed g).2.
Proof.
  exact (runs_updateAdjacentRoads road_write (fun _ => True) (fun _ _ _ H => H)
           updateAdjacentRoad_road x y placed g I).
Qed.

Lemma connectRoads_road (g : GridState) :
  clos_refl_trans GridState road_write g (connectRoads g).2.
Proof.
  exact (runs_connectRoads road_write (fun _ => True) (fun _ _ _ H => H)
           updateAdjacentRoad_road fill_road g I).
Qed.

Lemma set_add_In (p q : Z * Z) (s : list (Z * Z)) : In p (set_add q s) -> In p s \/ p = q.
Proof.
  unfold set_add. case_bool_decide; [auto|]. rewrite in_app_iff. simpl. intuition.
Qed.

Lemma ids_unique_kept (g g' : GridState) : sprites g' = sprites g -> ids_unique g -> ids_unique g'.
Proof. unfold ids_unique. intros ->. auto. Qed.

Lemma drawRoad_point_inv path i pt st :
  clos_refl_trans GridState road_write (dl_grid st) (dl_grid (drawRoad_point path i pt st))
  /\ (ground_wf (dl_grid st) -> ids_unique (dl_grid st) ->
      tracker_ok (dl_grid st) (dl_tracker st) ->
      tracker_ok (dl_grid (drawRoad_point path i pt st))
                 (dl_tracker (drawRoad_point path i pt st))).
Proof.
  destruct st as [g t pl up er]. unfold drawRoad_point. destruct pt as [px py].
  cbn [dl_grid dl_tracker dl_placed dl_updated dl_errors].
  set (all := needed_connections g path i px py).
  destruct (findMatchingRoadSprite g all) as [s|] eqn:Hf; [|split; [apply rt_refl|auto]].
  destruct (setTile g px py (id s) LGround) as [e|g1] eqn:Hw; [split; [apply rt_refl|auto]|].
  apply findMatchingRoadSprite_some in Hf as (Hin & Hroad & _).
  assert (H1 : road_write g g1) by (exists px, py, s; auto).
  pose proof (updateAdjacentRoads_road px py all g1) as H2.
  destruct (updateAdjacentRoads px py all g1) as [[e|n] g2]; cbn [dl_grid dl_tracker snd] in *;
  (split; [eapply rt_trans; [apply rt_step, H1|exact H2]|]);
  intros Hwf Hu Hok;
  destruct (road_write_kept g g1 H1) as [W1 [S1 R1]];
  destruct (roads_kept_rt g1 g2 H2) as [W2 [S2 R2]];
  (assert (Hwf1 : ground_wf g1) by auto);
  (assert (Hu1 : ids_unique g1) by (eapply ids_unique_kept; eauto));
  intros p Hp; apply set_add_In in Hp as [Hp| ->]; cbn [roadTiles] in *.
  all: apply R2; [exact Hwf1|exact Hu1|].
  all: first [ apply R1; [exact Hwf|exact Hu|apply Hok; exact Hp]
             | rewrite (isRoadAt_road_write g g1 px py s Hwf Hu Hin Hroad Hw);
               rewrite bool_decide_eq_true_2 by auto; reflexivity ].
Qed.

Lemma drawRoad_loop_inv path i rest st :
  clos_refl_trans GridState road_write (dl_grid st) (dl_grid (drawRoad_loop path i rest st))
  /\ (ground_wf (dl_grid st) -> ids_unique (dl_grid st) ->
      tracker_ok (dl_grid st) (dl_tracker st) ->
      tracker_ok (dl_grid (drawRoad_loop path i rest st))
                 (dl_tracker (drawRoad_loop path i rest st))).
Proof.
  revert i st. induction rest as [|pt r IH]; intros i st; simpl; [split; [apply rt_refl|auto]|].
  destruct (drawRoad_point_inv path i pt st) as [H1 T1].
  destruct (IH (S i) (drawRoad_point path i pt st)) as [H2 T2].
  split; [eapply rt_trans; eauto|].
  intros Hwf Hu Hok. destruct (roads_kept_rt _ _ H1) as [W1 [S1 _]].
  apply T2; auto. eapply ids_unique_kept; eauto.
Qed.

Lemma drawRoad_inv fromX fromY toX toY g t :
  clos_refl_trans GridState road_write g (drawRoad fromX fromY toX toY g t).2.1
  /\ (ground_wf g -> ids_unique g -> tracker_ok g t ->
      tracker_ok (drawRoad fromX fromY toX toY g t).2.1 (drawRoad fromX fromY toX toY g t).2.2).
Proof.
  unfold drawRoad.
  destruct (out_of_bounds g fromX fromY || out_of_bounds g toX toY);
    [cbn; split; [apply rt_refl|auto]|].
  destruct (_ && _ && _); [cbn; split; [apply rt_refl|auto]|].
  destruct (Z.of_nat _ >? _); [cbn; split; [apply rt_refl|auto]|].
  destruct (drawRoad_loop_inv (generateManhattanPath fromX fromY toX toY) 0
              (generateManhattanPath fromX fromY toX toY) (mkDrawLoop g t 0 0 [])) as [H T].
  cbn [fst snd] in *. split; [exact H|]. intros Hwf Hu Hok. apply T; auto.
Qed.

Lemma draw_session_inv g0 m g t :
  ground_wf g0 -> ids_unique g0 -> draw_session g0 m g t ->
  ground_wf g /\ ids_unique g /\ tracker_ok g t.
Proof.
  intros Hwf0 Hu0. induction 1 as [|g t fx fy tx ty _ [Hwf [Hu Hok]]|g t _ [Hwf [Hu Hok]]].
  - split; [exact Hwf0|]. split; [exact Hu0|]. intros p [].
  - destruct (drawRoad_inv fx fy tx ty g t) as [H T].
    destruct (roads_kept_rt _ _ H) as [W [S _]].
    split; [auto|]. split; [eapply ids_unique_kept; eauto|]. auto.
  - destruct (roads_kept_rt _ _ (connectRoads_road g)) as [W [S R]].
    split; [auto|]. split; [eapply ids_unique_kept; eauto|].
    intros p Hp. apply R; auto.
Qed.

Lemma isPointOnOrAdjacentToRoad_road (g : GridState) (t : RoadNetworkTracker) x y :
  tracker_ok g t -> isPointOnOrAdjacentToRoad x y (roadTiles t) = true ->
  on_or_adjacent_to_road g x y.
Proof.
  intros Hok H. unfold isPointOnOrAdjacentToRoad in H. apply orb_true_iff in H as [H|H].
  - left. apply bool_decide_eq_true, list_elem_of_In in H. exact (Hok _ H).
  - right. apply existsb_exists in H as (d & Hd & H). exists d. split; [exact Hd|].
    destruct (DIRECTION_OFFSETS d) as [dx dy].
    apply bool_decide_eq_true, list_elem_of_In in H. exact (Hok _ H).
Qed.

Lemma isPointOnOrAdjacentToRoad_tiles x y rt :
  isPointOnOrAdjacentToRoad x y rt = true <-> on_or_adjacent_to_tiles rt x y.
Proof.
  unfold isPointOnOrAdjacentToRoad, on_or_adjacent_to_tiles.
  rewrite orb_true_iff, existsb_exists, bool_decide_eq_true, list_elem_of_In.
  split; intros [H|(d & Hd & H)]; [left; exact H| |left; exact H|];
    right; exists d; split; try exact Hd;
    destruct (DIRECTION_OFFSETS d) as [dx dy];
    [apply bool_decide_eq_true, list_elem_of_In in H | apply bool_decide_eq_true, list_elem_of_In];
    exact H.
Qed.

(** C2 (amended): the gate of drawRoad reads the instance's own record of
    placed road tiles.  Once the instance has placed a tile
    ([tilesPlaced] counts the tiles placed by its previous calls), a call
    whose two endpoints are neither on nor 4-adjacent to a recorded tile
    fails and leaves the grid and the tracker as they were, whatever the
    grid holds.  In a session where only drawRoad and the repair tool
    write the grid (ground layer of [height] rows of [width] cells,
    unique catalog ids), every recorded tile is a road, so endpoints
    touching no road of the grid are rejected the same way. *)
Theorem drawRoad_rejects_disconnected_endpoints :
  (forall (g : GridState) (t : RoadNetworkTracker) (fromX fromY toX toY : Z),
    0 < tilesPlaced t ->
    ~ on_or_adjacent_to_tiles (roadTiles t) fromX fromY ->
    ~ on_or_adjacent_to_tiles (roadTiles t) toX toY ->
    draw_success (drawRoad fromX fromY toX toY g t).1 = false
    /\ (drawRoad fromX fromY toX toY g t).2 = (g, t))
  /\ (forall (g0 : GridState) (m : Z) (g : GridState) (t : RoadNetworkTracker)
         (fromX fromY toX toY : Z),
    ground_wf g0 -> ids_unique g0 -> draw_session g0 m g t ->
    0 < tilesPlaced t ->
    ~ on_or_adjacent_to_road g fromX fromY -> ~ on_or_adjacent_to_road g toX toY ->
    draw_success (drawRoad fromX fromY toX toY g t).1 = false
    /\ (drawRoad fromX fromY toX toY g t).2 = (g, t)).
Proof.
  assert (Hgate : forall (g : GridState) (t : RoadNetworkTracker) (fromX fromY toX toY : Z),
    0 < tilesPlaced t ->
    isPointOnOrAdjacentToRoad fromX fromY (roadTiles t) = false ->
    isPointOnOrAdjacentToRoad toX toY (roadTiles t) = false ->
    draw_success (drawRoad fromX fromY toX toY g t).1 = false
    /\ (drawRoad fromX fromY toX toY g t).2 = (g, t)).
  { intros g t fromX fromY toX toY Hpos Hf Ht. unfold drawRoad.
    destruct (out_of_bounds g fromX fromY || out_of_bounds g toX toY); [split; reflexivity|].
    rewrite Hf, Ht. replace (tilesPlaced t >? 0) with true by lia. cbn [andb negb].
    split; reflexivity. }
  split.
  - intros g t fromX fromY toX toY Hpos Hfrom Hto. apply Hgate; [exact Hpos| |];
      apply not_true_is_false; rewrite isPointOnOrAdjacentToRoad_tiles; assumption.
  - intros g0 m g t fromX fromY toX toY Hwf0 Hu0 Hs Hpos Hfrom Hto.
    destruct (draw_session_inv g0 m g t Hwf0 Hu0 Hs) as [_ [_ Hok]].
    apply Hgate; [exact Hpos| |]; apply not_true_is_false; intros E.
    + exact (Hfrom (isPointOnOrAdjacentToRoad_road g t fromX fromY Hok E)).
    + exact (Hto (isPointOnOrAdjacentToRoad_road g t toX toY Hok E)).
Qed.

Lemma drawRoad_rejects_disconnected_endpoints_witness :
  tilesPlaced first_draw.2.2 = 1
  /\ ~ on_or_adjacent_to_tiles (roadTiles first_draw.2.2) 4 4
  /\ ~ on_or_adjacent_to_tiles (roadTiles first_draw.2.2) 4 3
  /\ draw_success (drawRoad 4 4 4 3 replaced_grid first_draw.2.2).1 = false
  /\ (drawRoad 4 4 4 3 replaced_grid first_draw.2.2).2 = (replaced_grid, first_draw.2.2)
  /\ draw_success (drawRoad 4 4 4 3 first_draw.2.1 first_draw.2.2).1 = false
  /\ (drawRoad 4 4 4 3 first_draw.2.1 first_draw.2.2).2 = (first_draw.2.1, first_draw.2.2).
Proof.
  assert (Ht : forall x y, (x, y) = (4, 4) \/ (x, y) = (4, 3) ->
                ~ on_or_adjacent_to_tiles (roadTiles first_draw.2.2) x y).
  { intros x y Hxy H. apply isPointOnOrAdjacentToRoad_tiles in H.
    destruct Hxy as [Hxy|Hxy]; injection Hxy as -> ->; vm_compute in H; discriminate. }
  assert (Hna : forall x y, (x, y) = (4, 4) \/ (x, y) = (4, 3) ->
                ~ on_or_adjacent_to_road first_draw.2.1 x y).
  { intros x y Hxy [H|(d & Hd & H)];
      destruct Hxy as [Hxy|Hxy]; injection Hxy as -> ->;
      [vm_compute in H; discriminate|vm_compute in H; discriminate|..];
      simpl in Hd; destruct Hd as [<-|[<-|[<-|[<-|[]]]]]; vm_compute in H; discriminate. }
  assert (Hp : 0 < tilesPlaced first_draw.2.2) by (vm_compute; reflexivity).
  split; [vm_compute; reflexivity|].
  split; [apply Ht; left; reflexivity|]. split; [apply Ht; right; reflexivity|].
  split; [|split]; [apply (proj1 drawRoad_rejects_disconnected_endpoints);
                    [exact Hp|apply Ht; left; reflexivity|apply Ht; right; reflexivity]..|].
  apply (proj2 drawRoad_rejects_disconnected_endpoints layout_grid 5).
  - vm_compute. split; [reflexivity|]. repeat constructor.
  - unfold ids_unique. vm_compute.
    repeat constructor; simpl; intuition discriminate.
  - exact (session_draw layout_grid 5 _ _ 0 0 2 0 (session_start layout_grid 5)).
  - exact Hp.
  - apply Hna. left. reflexivity.
  - apply Hna. right. reflexivity.
Defined.

(** C2 (as stated, refuted): the gate does not read the grid.  After
    [first_draw] (road tile (1,0) recorded), a ground placement replaces
    that road by plain ground, leaving no road on the grid near (1,1) or
    (1,3); a call of the same instance from (1,1) to (1,3) still passes
    the gate, since (1,1) is next to the recorded (1,0), and writes the
    straight tile at (1,2). *)
Lemma drawRoad_gate_ignores_grid :
  (placeAsset 1 0 "sprite_8" (Some LGround) first_draw.2.1).1 = PAPlaced 1 0 "sprite_8" LGround
  /\ 0 < tilesPlaced first_draw.2.2
  /\ ~ on_or_adjacent_to_road replaced_grid 1 1
  /\ ~ on_or_adjacent_to_road replaced_grid 1 3
  /\ getTile replaced_grid 1 2 LGround = None
  /\ getTile (drawRoad 1 1 1 3 replaced_grid first_draw.2.2).2.1 1 2 LGround
     = Some (mkMapCell "sprite_1" LGround).
Proof.
  assert (Hna : forall x y, (x, y) = (1, 1) \/ (x, y) = (1, 3) ->
                ~ on_or_adjacent_to_road replaced_grid x y).
  { intros x y Hxy [H|(d & Hd & H)];
      destruct Hxy as [Hxy|Hxy]; injection Hxy as -> ->;
      [vm_compute in H; discriminate|vm_compute in H; discriminate|..];
      simpl in Hd; destruct Hd as [<-|[<-|[<-|[<-|[]]]]]; vm_compute in H; discriminate. }
  split; [vm_compute; reflexivity|]. split; [vm_compute; reflexivity|].
  split; [apply Hna; left; reflexivity|]. split; [apply Hna; right; reflexivity|].
  split; vm_compute; reflexivity.
Qed.

(** ** Road islands *)

Lemma bool_decide_In (x : Z * Z) (l : list (Z * Z)) : bool_decide (x ∈ l) = true <-> In x l.
Proof. rewrite bool_decide_eq_true. apply list_elem_of_In. Qed.

Lemma adjacent4_sym p q : adjacent4 p q -> adjacent4 q p.
Proof. unfold adjacent4. lia. Qed.

Lemma neighbours_adjacent (cx cy : Z) (n : Z * Z) :
  In n (map (fun '(dx, dy) => (cx + dx, cy + dy)) island_offsets) <-> adjacent4 (cx, cy) n.
Proof.
  unfold adjacent4. destruct n as [nx ny]. cbn [fst snd]. simpl. split.
  - intros [H|[H|[H|[H|[]]]]]; injection H as <- <-; lia.
  - intros H.
    assert (nx = cx /\ ny = cy - 1 \/ nx = cx /\ ny = cy + 1
            \/ nx = cx + 1 /\ ny = cy \/ nx = cx - 1 /\ ny = cy) as C by lia.
    destruct C as [[-> ->]|[[-> ->]|[[-> ->]|[-> ->]]]];
      [left|right; left|right; right; left|right; right; right; left];
      f_equal; lia.
Qed.

Lemma step_in_rt_mono (S S' : list (Z * Z)) p q :
  incl S S' -> clos_refl_trans (Z * Z) (step_in S) p q -> clos_refl_trans (Z * Z) (step_in S') p q.
Proof.
  intros Hi. induction 1 as [u v (Hu & Hv & Ha)| |]; [|apply rt_refl|eapply rt_trans; eauto].
  apply rt_step. repeat split; auto.
Qed.

Lemma step_in_rt_sym (S : list (Z * Z)) p q :
  clos_refl_trans (Z * Z) (step_in S) p q -> clos_refl_trans (Z * Z) (step_in S) q p.
Proof.
  induction 1 as [u v (Hu & Hv & Ha)| |]; [|apply rt_refl|eapply rt_trans; eauto].
  apply rt_step. repeat split; auto. apply adjacent4_sym, Ha.
Qed.

Lemma filter_length_le {A} (f f' : A -> bool) (l : list A) :
  (forall x, f' x = true -> f x = true) ->
  (length (List.filter f' l) <= length (List.filter f l))%nat.
Proof.
  intros H. induction l as [|a l IH]; simpl; [lia|].
  destruct (f' a) eqn:E'; [rewrite (H a E'); simpl; lia|].
  destruct (f a); simpl; lia.
Qed.

Lemma filter_length_lt {A} (f f' : A -> bool) (l : list A) (a : A) :
  (forall x, f' x = true -> f x = true) -> In a l -> f a = true -> f' a = false ->
  (length (List.filter f' l) < length (List.filter f l))%nat.
Proof.
  intros H Hin Ha Ha'. induction l as [|b l IH]; [destruct Hin|].
  destruct Hin as [->|Hin].
  - simpl. rewrite Ha, Ha'. simpl. pose proof (filter_length_le f f' l H). lia.
  - simpl. specialize (IH Hin).
    destruct (f' b) eqn:E'; [rewrite (H b E'); simpl; lia|].
    destruct (f b); simpl; lia.
Qed.

Lemma filter_length_bound {A} (f : A -> bool) (l : list A) :
  (length (List.filter f l) <= length l)%nat.
Proof. induction l as [|a l IH]; simpl; [lia|]. destruct (f a); simpl; lia. Qed.

Lemma pushes_In (R V : list (Z * Z)) (cx cy : Z) (n : Z * Z) :
  In n (List.filter (fun n => bool_decide (n ∈ R) && negb (bool_decide (n ∈ V)))
          (map (fun '(dx, dy) => (cx + dx, cy + dy)) island_offsets))
  <-> adjacent4 (cx, cy) n /\ In n R /\ ~ In n V.
Proof.
  rewrite filter_In, neighbours_adjacent, andb_true_iff, negb_true_iff, bool_decide_In.
  split.
  - intros (Ha & HR & HV). split; [exact Ha|]. split; [exact HR|].
    intros H. apply bool_decide_In in H. congruence.
  - intros (Ha & HR & HV). split; [exact Ha|]. split; [exact HR|].
    destruct (bool_decide (n ∈ V)) eqn:E; [|reflexivity].
    apply bool_decide_In in E. contradiction.
Qed.

Lemma pushes_length (R V : list (Z * Z)) (cx cy : Z) :
  (length (List.filter (fun n => bool_decide (n ∈ R) && negb (bool_decide (n ∈ V)))
             (map (fun '(dx, dy) => ((cx + dx)%Z, (cy + dy)%Z)) island_offsets)) <= 4)%nat.
Proof.
  etransitivity; [apply filter_length_bound|]. rewrite length_map. simpl. lia.
Qed.

Lemma flood_step_inv R V0 k st :
  flood_inv R V0 k st -> queue st <> [] ->
  flood_inv R V0 k (flood_step R st)
  /\ (flood_measure R (flood_step R st) < flood_measure R st)%nat.
Proof.
  destruct st as [V I Q]. intros Hi HQ. destruct Q as [|c q]; [exfalso; apply HQ; reflexivity|].
  destruct Hi as [Hvis HIR HQR Hnd Hfr Hk Hseed Hqa Hconn Hfront];
    cbn [visited island queue] in *.
  unfold flood_step; cbn [queue visited island].
  destruct (bool_decide (c ∈ V)) eqn:Hc.
  - apply bool_decide_In in Hc. split.
    + constructor; cbn [visited island queue]; auto.
      * intros x Hx. apply HQR. right. exact Hx.
      * destruct Hseed as [H|[H1 H2]]; [left; exact H|].
        injection H2 as -> ->. exfalso. apply Hk. rewrite Hvis, H1, app_nil_r in Hc. exact Hc.
      * intros x Hx. apply Hqa. right. exact Hx.
      * intros p n Hp Ha HR. destruct (Hfront p n Hp Ha HR) as [H|[->|H]]; auto.
    + unfold flood_measure. cbn [visited queue length]. lia.
  - assert (Hcn : ~ In c V) by (intros H; apply bool_decide_In in H; congruence).
    assert (HcR : In c R) by (apply HQR; left; reflexivity).
    assert (HcI : ~ In c I) by (intros H; apply Hcn; rewrite Hvis; apply in_or_app; right; exact H).
    assert (HcV0 : ~ In c V0) by (intros H; apply Hcn; rewrite Hvis; apply in_or_app; left; exact H).
    destruct c as [cx cy]. cbn [visited island queue].
    set (v := V ++ [(cx, cy)]).
    set (pushes := List.filter (fun n => bool_decide (n ∈ R) && negb (bool_decide (n ∈ v)))
                     (map (fun '(dx, dy) => (cx + dx, cy + dy)) island_offsets)).
    assert (HP : forall n, In n pushes <-> adjacent4 (cx, cy) n /\ In n R /\ ~ In n v)
      by (intros n; apply pushes_In).
    assert (Hcomp : forall n, In n (I ++ [(cx, cy)]) <-> In n I \/ n = (cx, cy)).
    { intros n. rewrite in_app_iff. simpl. intuition. }
    split.
    + constructor; cbn [visited island queue].
      * unfold v. rewrite Hvis, app_assoc. reflexivity.
      * intros x Hx. apply Hcomp in Hx as [Hx| ->]; auto.
      * intros x Hx. apply in_app_iff in Hx as [Hx|Hx].
        -- apply HQR. right. exact Hx.
        -- apply HP in Hx. tauto.
      * apply List.NoDup_app; [exact Hnd|constructor; [intros []|constructor]|].
        intros a Ha [<-|[]]. contradiction.
      * intros x Hx. apply Hcomp in Hx as [Hx| ->]; auto.
      * exact Hk.
      * left. destruct Hseed as [H|[H1 H2]]; apply Hcomp; [left; exact H|].
        injection H2 as -> ->. right. reflexivity.
      * intros x Hx. apply in_app_iff in Hx as [Hx|Hx].
        -- destruct (Hqa x (or_intror Hx)) as [H|(p & Hp & Ha)]; [left; exact H|].
           right. exists p. split; [apply Hcomp; left; exact Hp|exact Ha].
        -- right. exists (cx, cy). split; [apply Hcomp; right; reflexivity|].
           apply HP in Hx. tauto.
      * intros x Hx. apply Hcomp in Hx as [Hx| ->].
        -- eapply step_in_rt_mono; [|apply Hconn, Hx].
           intros y Hy. apply Hcomp. left. exact Hy.
        -- destruct (Hqa (cx, cy) (or_introl eq_refl)) as [<-|(p & Hp & Ha)]; [apply rt_refl|].
           eapply rt_trans.
           ++ eapply step_in_rt_mono; [|apply Hconn, Hp].
              intros y Hy. apply Hcomp. left. exact Hy.
           ++ apply rt_step. split; [apply Hcomp; left; exact Hp|].
              split; [apply Hcomp; right; reflexivity|exact Ha].
      * intros p n Hp Ha HR. unfold v.
        apply Hcomp in Hp as [Hp| ->].
        -- destruct (Hfront p n Hp Ha HR) as [H|[<-|H]].
           ++ left. apply in_or_app. left. exact H.
           ++ left. apply in_or_app. right. left. reflexivity.
           ++ right. apply in_or_app. left. exact H.
        -- destruct (decide (n ∈ V ++ [(cx, cy)])) as [H|H];
             [left; apply list_elem_of_In, H|].
           right. apply in_or_app. right. apply HP. split; [exact Ha|]. split; [exact HR|].
           intros H'. apply H, list_elem_of_In, H'.
    + unfold flood_measure. cbn [visited queue]. rewrite length_app.
      pose proof (pushes_length R v cx cy) as Hpl. fold pushes in Hpl.
      assert (Hlt : (length (List.filter (fun r => negb (bool_decide (r ∈ v))) R)
                     < length (List.filter (fun r => negb (bool_decide (r ∈ V))) R))%nat).
      { apply (filter_length_lt _ _ R (cx, cy)); [|exact HcR| |].
        - intros x. rewrite !negb_true_iff. intros H.
          destruct (bool_decide (x ∈ V)) eqn:E; [|reflexivity].
          apply bool_decide_In in E.
          assert (E' : bool_decide (x ∈ v) = true)
            by (apply bool_decide_In; apply in_or_app; left; exact E).
          congruence.
        - apply negb_true_iff. destruct (bool_decide ((cx, cy) ∈ V)) eqn:E; [|reflexivity].
          apply bool_decide_In in E. contradiction.
        - apply negb_false_iff. apply bool_decide_In. apply in_or_app. right. left. reflexivity. }
      cbn [length]. lia.
Qed.

Lemma flood_run R V0 k (fuel : nat) st :
  flood_inv R V0 k st -> (flood_measure R st <= fuel)%nat ->
  flood_inv R V0 k (flood fuel R st) /\ queue (flood fuel R st) = [].
Proof.
  revert st. induction fuel as [|f IH]; intros st Hi Hm.
  - split; [exact Hi|]. cbn [flood]. unfold flood_measure in Hm.
    destruct (queue st); [reflexivity|]. cbn [length] in Hm. lia.
  - cbn [flood]. destruct (queue st) as [|c q] eqn:E; [split; [exact Hi|exact E]|].
    assert (HQ : queue st <> []) by congruence.
    destruct (flood_step_inv R V0 k st Hi HQ) as [Hi' Hlt].
    apply IH; [exact Hi'|lia].
Qed.

Lemma flood_start R V0 k :
  In k R -> ~ In k V0 -> flood_inv R V0 k (mkFlood V0 [] [k]).
Proof.
  intros HkR HkV. constructor; cbn [visited island queue].
  - rewrite app_nil_r. reflexivity.
  - intros x [].
  - intros x [<-|[]]. exact HkR.
  - constructor.
  - intros p [].
  - exact HkV.
  - right. split; reflexivity.
  - intros q [<-|[]]. left. reflexivity.
  - intros p [].
  - intros p n [].
Qed.

Lemma flood_measure_start R V0 k :
  (flood_measure R (mkFlood V0 [] [k]) <= flood_fuel R)%nat.
Proof.
  unfold flood_measure, flood_fuel. cbn [visited queue length].
  pose proof (filter_length_bound (fun r => negb (bool_decide (r ∈ V0))) R). lia.
Qed.

Lemma islands_loop_inv R keys V acc :
  islands_inv R V acc -> incl keys R ->
  islands_inv R (concat (map tiles (islands_loop R keys V acc))) (islands_loop R keys V acc)
  /\ (forall x, In x keys \/ In x V -> In x (concat (map tiles (islands_loop R keys V acc)))).
Proof.
  revert V acc. induction keys as [|k ks IH]; intros V acc Hi Hk; cbn [islands_loop].
  { destruct Hi as [HV Hnd HR Hcl His]. split.
    - rewrite <- HV. constructor; assumption.
    - intros x [[]|Hx]. rewrite <- HV. exact Hx. }
  assert (HkR : In k R) by (apply Hk; left; reflexivity).
  assert (Hks : incl ks R) by (intros x Hx; apply Hk; right; exact Hx).
  destruct (bool_decide (k ∈ V)) eqn:Hkv.
  { apply bool_decide_In in Hkv. destruct (IH V acc Hi Hks) as [H1 H2].
    split; [exact H1|]. intros x [[<-|Hx]|Hx]; apply H2; auto. }
  assert (HkV : ~ In k V) by (intros H; apply bool_decide_In in H; congruence).
  destruct (flood_run R V k (flood_fuel R) (mkFlood V [] [k])
              (flood_start R V k HkR HkV) (flood_measure_start R V k)) as [Hf Hq].
  set (st := flood (flood_fuel R) R (mkFlood V [] [k])) in *.
  destruct Hf as [Hvis HIR HQR Hnd Hfr Hk0 Hseed Hqa Hconn Hfront].
  destruct Hi as [HV HndV HRV Hcl His].
  assert (HkI : In k (island st)) by (destruct Hseed as [H|[_ H]]; [exact H|congruence]).
  assert (Hcl' : forall p n, In p (visited st) -> adjacent4 p n -> In n R -> In n (visited st)).
  { intros p n Hp Ha HR. rewrite Hvis in Hp |- *. apply in_app_iff in Hp as [Hp|Hp].
    - apply in_or_app. left. eapply Hcl; eauto.
    - destruct (Hfront p n Hp Ha HR) as [H|H]; [rewrite Hvis in H; exact H|].
      rewrite Hq in H. destruct H. }
  destruct (island st) as [|t0 ts] eqn:EI; [destruct HkI|].
  set (I := t0 :: ts) in *.
  assert (Hnew : islands_inv R (visited st) (acc ++ [mkIsland I (island_bounds I)])).
  { constructor.
    - rewrite Hvis, map_app, concat_app, HV. cbn. rewrite app_nil_r. reflexivity.
    - rewrite Hvis. apply List.NoDup_app; [exact HndV|exact Hnd|].
      intros a Ha HaI. exact (Hfr a HaI Ha).
    - rewrite Hvis. intros x Hx. apply in_app_iff in Hx as [Hx|Hx]; auto.
    - exact Hcl'.
    - apply Forall_app. split; [exact His|]. constructor; [|constructor]. cbn [tiles].
      split; [discriminate|]. split.
      + intros p q Hp Hq'. eapply rt_trans; [apply step_in_rt_sym, Hconn, Hp|apply Hconn, Hq'].
      + intros p n Hp Ha HR.
        assert (Hn : In n (visited st)) by (eapply Hcl'; eauto; rewrite Hvis; apply in_or_app; right; exact Hp).
        rewrite Hvis in Hn. apply in_app_iff in Hn as [Hn|Hn]; [|exact Hn].
        exfalso. apply (Hfr p Hp). eapply Hcl; [exact Hn|apply adjacent4_sym, Ha|apply HIR, Hp]. }
  destruct (IH (visited st) _ Hnew Hks) as [H1 H2].
  split; [exact H1|].
  intros x [[<-|Hx]|Hx]; apply H2; auto.
  - right. rewrite Hvis. apply in_or_app. right. exact HkI.
  - right. rewrite Hvis. apply in_or_app. left. exact Hx.
Qed.

Lemma isRoadAt_in_bounds (g : GridState) x y :
  isRoadAt g x y = true -> out_of_bounds g x y = false.
Proof.
  unfold isRoadAt, getTile. destruct (out_of_bounds g x y); [discriminate|reflexivity].
Qed.

Lemma In_seqZ (m n k : Z) : In k (seqZ m n) <-> m <= k < m + n.
Proof. rewrite <- list_elem_of_In. apply elem_of_seqZ. Qed.

Lemma getRoadNetwork_In (g : GridState) x y :
  In (x, y) (getRoadNetwork g) <-> isRoadAt g x y = true.
Proof.
  unfold getRoadNetwork. rewrite in_flat_map. split.
  - intros (y' & _ & Hin). apply in_map_iff in Hin as (x' & Heq & Hx).
    injection Heq as -> ->. apply filter_In in Hx. tauto.
  - intros H. pose proof (isRoadAt_in_bounds g x y H) as Hb.
    apply out_of_bounds_false in Hb as [Hx Hy].
    exists y. split; [apply In_seqZ; lia|].
    apply in_map_iff. exists x. split; [reflexivity|].
    apply filter_In. split; [apply In_seqZ; lia|exact H].
Qed.

Lemma NoDup_map_pair (l : list Z) (y : Z) :
  List.NoDup l -> List.NoDup (map (fun x => (x, y)) l).
Proof.
  induction 1 as [|a l Ha _ IH]; simpl; constructor; [|exact IH].
  intros Hin. apply in_map_iff in Hin as (x & Heq & Hx). injection Heq as ->. contradiction.
Qed.

Lemma getRoadNetwork_NoDup (g : GridState) : List.NoDup (getRoadNetwork g).
Proof.
  unfold getRoadNetwork.
  assert (Hys : List.NoDup (seqZ 0 (height g))) by apply NoDup_ListNoDup, NoDup_seqZ.
  induction Hys as [|y ys Hy Hys IH]; simpl; [constructor|].
  apply List.NoDup_app.
  - apply NoDup_map_pair, List.NoDup_filter, NoDup_ListNoDup, NoDup_seqZ.
  - exact IH.
  - intros [a b] Hab Hin. apply in_map_iff in Hab as (x & Heq & _). injection Heq as -> ->.
    apply in_flat_map in Hin as (y' & Hy' & Hin). apply in_map_iff in Hin as (x' & Heq & _).
    injection Heq as -> ->. contradiction.
Qed.

Lemma fold_total (l : list Island) (n : nat) :
  fold_left (fun sum i => (sum + length (tiles i))%nat) l n
  = (n + length (concat (map tiles l)))%nat.
Proof.
  revert n. induction l as [|a l IH]; intros n; simpl; [lia|].
  rewrite IH, length_app. lia.
Qed.

Lemma concat_tiles_disjoint (l : list Island) i j a b p :
  List.NoDup (concat (map tiles l)) -> l !! i = Some a -> l !! j = Some b ->
  In p (tiles a) -> In p (tiles b) -> i = j.
Proof.
  revert i j. induction l as [|c l IH]; intros i j Hnd Ha Hb Hpa Hpb; [discriminate|].
  simpl in Hnd. apply NoDup_ListNoDup, NoDup_app in Hnd as (Hnd1 & Hdis & Hnd2).
  apply NoDup_ListNoDup in Hnd2.
  assert (Hin : forall j' b', l !! j' = Some b' -> In p (tiles b') ->
                  In p (concat (map tiles l))).
  { intros j' b' Hl Hp. apply in_concat. exists (tiles b'). split; [|exact Hp].
    apply in_map, list_elem_of_In. eapply list_elem_of_lookup_2; eauto. }
  destruct i as [|i], j as [|j]; simpl in Ha, Hb; [reflexivity| | |].
  - injection Ha as <-. exfalso. apply (Hdis p); apply list_elem_of_In; [exact Hpa|].
    exact (Hin j b Hb Hpb).
  - injection Hb as <-. exfalso. apply (Hdis p); apply list_elem_of_In; [exact Hpb|].
    exact (Hin i a Ha Hpa).
  - f_equal. exact (IH i j Hnd2 Ha Hb Hpa Hpb).
Qed.

(** C3: [validateRoadConnectivity] reports [connected] exactly when there
    are at most one island ([islandCount] is their number), and no road
    gives no island and [connected]; the islands are pairwise disjoint
    and duplicate-free, their union is the set of road positions, each is
    non-empty, connected under 4-adjacency and maximal, and
    [totalRoadTiles] is the number of road positions ([getRoadNetwork]
    lists each of them once). *)
Theorem validateRoadConnectivity_islands :
  forall g : GridState,
    let c := validateRoadConnectivity g in
    (connected c = true <-> (islandCount c <= 1)%nat)
    /\ islandCount c = length (islands c)
    /\ ((forall x y, isRoadAt g x y = false) -> islands c = [] /\ connected c = true)
    /\ (forall i j a b p, islands c !! i = Some a -> islands c !! j = Some b ->
          In p (tiles a) -> In p (tiles b) -> i = j)
    /\ List.NoDup (concat (map tiles (islands c)))
    /\ (forall x y, In (x, y) (concat (map tiles (islands c))) <-> isRoadAt g x y = true)
    /\ Forall (fun i => tiles i <> [] /\ island_connected (tiles i) /\ island_maximal g (tiles i))
              (islands c)
    /\ totalRoadTiles c = length (getRoadNetwork g)
    /\ List.NoDup (getRoadNetwork g)
    /\ (forall x y, In (x, y) (getRoadNetwork g) <-> isRoadAt g x y = true).
Proof.
  intros g c. subst c. unfold validateRoadConnectivity. cbn [connected islandCount islands totalRoadTiles].
  set (R := getRoadNetwork g).
  assert (HR : forall x y, In (x, y) R <-> isRoadAt g x y = true) by apply getRoadNetwork_In.
  assert (HndR : List.NoDup R) by apply getRoadNetwork_NoDup.
  assert (H0 : islands_inv R [] []).
  { constructor; cbn; [reflexivity|constructor|intros x []|intros p n []|constructor]. }
  destruct (islands_loop_inv R R [] [] H0 (fun x H => H)) as [Hi Hcov].
  unfold getRoadIslands. fold R.
  set (isl := islands_loop R R [] []) in *.
  destruct Hi as [_ Hnd HsubR _ His].
  assert (Hset : forall x y, In (x, y) (concat (map tiles isl)) <-> isRoadAt g x y = true).
  { intros x y. rewrite <- HR. split; [apply HsubR|intros H; apply Hcov; left; exact H]. }
  split; [rewrite Nat.leb_le; reflexivity|].
  split; [reflexivity|].
  split.
  { intros Hno. assert (HRnil : R = []).
    { destruct R as [|[x y] r] eqn:E; [reflexivity|].
      exfalso. specialize (HR x y). rewrite (Hno x y) in HR.
      discriminate (proj1 HR (or_introl eq_refl)). }
    subst isl. rewrite HRnil. split; reflexivity. }
  split; [intros i j a b p Ha Hb Hpa Hpb; eapply concat_tiles_disjoint; eauto|].
  split; [exact Hnd|].
  split; [exact Hset|].
  split.
  { eapply Forall_impl; [exact His|]. intros i (Hne & Hc & Hm).
    split; [exact Hne|]. split; [exact Hc|].
    intros p [qx qy] Hp Ha Hq. apply (Hm p); [exact Hp|exact Ha|apply HR, Hq]. }
  split.
  { rewrite fold_total. cbn [plus].
    apply Nat.le_antisymm; apply NoDup_incl_length; auto.
    intros x Hx. apply Hcov. left. exact Hx. }
  split; [exact HndR|exact HR].
Qed.

(* ================================================================= *)
(** * Properties of the remaining grid and tool code *)

(* ---- *)
(** Writing one cell of a layer, when row [Y] exists. *)
Lemma cell_at_set_cell T X Y c X' Y' :
  cell_at (set_cell T X Y c) X' Y' =
  if decide (X' = X /\ Y' = Y) then (if cell_slot T X Y then c else None) else cell_at T X' Y'.
Proof.
  unfold cell_at, set_cell, cell_slot.
  destruct (T !! Y) as [r|] eqn:Hr.
  - pose proof (lookup_lt_Some _ _ _ Hr) as HY.
    destruct (decide (Y' = Y)) as [->|HneY].
    + rewrite list_lookup_insert_eq by exact HY. rewrite list_lookup_insert.
      destruct (decide (X' = X)) as [->|HneX].
      * rewrite (decide_True (P := X = X /\ Y = Y)) by auto.
        destruct (decide (X < length r)%nat) as [Hl|Hl].
        -- rewrite decide_True by auto. rewrite bool_decide_eq_true_2 by exact Hl. reflexivity.
        -- rewrite decide_False by tauto. rewrite bool_decide_eq_false_2 by exact Hl.
           destruct (r !! X) eqn:E'; [apply lookup_lt_Some in E'; lia|reflexivity].
      * rewrite !decide_False by (intros [? ?]; congruence). rewrite Hr. reflexivity.
    + rewrite list_lookup_insert_ne by congruence. rewrite decide_False by tauto. reflexivity.
  - destruct (decide (X' = X /\ Y' = Y)) as [[-> ->]|]; [rewrite Hr|]; reflexivity.
Qed.

Lemma set_cell_same T X Y c c' : set_cell (set_cell T X Y c) X Y c' = set_cell T X Y c'.
Proof.
  unfold set_cell. destruct (T !! Y) as [r|] eqn:Hr; [|rewrite Hr; reflexivity].
  rewrite list_lookup_insert_eq by exact (lookup_lt_Some _ _ _ Hr).
  rewrite list_insert_insert_eq, list_insert_insert_eq. reflexivity.
Qed.

Lemma set_cell_comm T X Y c X' Y' c' :
  (X, Y) <> (X', Y') ->
  set_cell (set_cell T X Y c) X' Y' c' = set_cell (set_cell T X' Y' c') X Y c.
Proof.
  intros Hne. unfold set_cell.
  destruct (decide (Y = Y')) as [<-|HY].
  - destruct (T !! Y) as [r|] eqn:Hr; [|rewrite !Hr; reflexivity].
    rewrite !list_lookup_insert_eq by exact (lookup_lt_Some _ _ _ Hr).
    rewrite !list_insert_insert_eq. rewrite list_insert_insert_ne by congruence. reflexivity.
  - destruct (T !! Y) as [r|] eqn:Hr; destruct (T !! Y') as [r'|] eqn:Hr';
      rewrite ?list_lookup_insert_ne by congruence; rewrite ?Hr, ?Hr'; try reflexivity.
    apply list_insert_insert_ne. congruence.
Qed.

Lemma layer_of_with_layer_same (g : GridState) l T : layer_of (with_layer g l T) l = T.
Proof. destruct l; reflexivity. Qed.

Lemma layer_of_with_layer_other (g : GridState) l l' T :
  l <> l' -> layer_of (with_layer g l' T) l = layer_of g l.
Proof. destruct l, l'; intros H; try reflexivity; congruence. Qed.

Lemma with_layer_same (g : GridState) l T T' : with_layer (with_layer g l T) l T' = with_layer g l T'.
Proof. destruct l; reflexivity. Qed.

Lemma with_layer_comm (g : GridState) l l' T T' :
  l <> l' -> with_layer (with_layer g l T) l' T' = with_layer (with_layer g l' T') l T.
Proof. destruct l, l'; intros H; try reflexivity; congruence. Qed.

Lemma with_layer_self (g : GridState) l : with_layer g l (layer_of g l) = g.
Proof. destruct g, l; reflexivity. Qed.

Lemma out_of_bounds_with_layer (g : GridState) l T x y :
  out_of_bounds (with_layer g l T) x y = out_of_bounds g x y.
Proof. destruct l; reflexivity. Qed.

Lemma getSprite_with_layer (g : GridState) l T i : getSprite (with_layer g l T) i = getSprite g i.
Proof. destruct l; reflexivity. Qed.

Lemma getTile_cell_at (g : GridState) x y l :
  getTile g x y l = if out_of_bounds g x y then None else cell_at (layer_of g l) (Z.to_nat x) (Z.to_nat y).
Proof. reflexivity. Qed.

Lemma setTile_eq (g : GridState) x y a l :
  setTile g x y a l =
  match getSprite g a with
  | None => inl (UnknownSprite a)
  | Some _ =>
      if out_of_bounds g x y then inl (OutOfBounds x y)
      else inr (with_layer g l (set_cell (layer_of g l) (Z.to_nat x) (Z.to_nat y) (Some (mkMapCell a l))))
  end.
Proof.
  unfold setTile, getSpriteOrThrow, set_cell. destruct (getSprite g a); [|reflexivity].
  destruct (out_of_bounds g x y); [reflexivity|].
  destruct (layer_of g l !! Z.to_nat y); [reflexivity|]. rewrite with_layer_self. reflexivity.
Qed.

Lemma clearTile_eq (g : GridState) x y l :
  clearTile g x y l =
  if out_of_bounds g x y then g
  else with_layer g l (set_cell (layer_of g l) (Z.to_nat x) (Z.to_nat y) None).
Proof.
  unfold clearTile, set_cell. destruct (out_of_bounds g x y); [reflexivity|].
  destruct (layer_of g l !! Z.to_nat y); [reflexivity|]. rewrite with_layer_self. reflexivity.
Qed.

(** Reading a layer after writing cell [(x, y)] of layer [l]. *)
Lemma getTile_with_set_cell (g : GridState) x y l c x' y' l' :
  out_of_bounds g x y = false ->
  getTile (with_layer g l (set_cell (layer_of g l) (Z.to_nat x) (Z.to_nat y) c)) x' y' l' =
  if bool_decide (l' = l /\ x' = x /\ y' = y)
  then (if cell_slot (layer_of g l) (Z.to_nat x) (Z.to_nat y) then c else None)
  else getTile g x' y' l'.
Proof.
  intros Hob. rewrite !getTile_cell_at, out_of_bounds_with_layer.
  destruct (decide (l' = l)) as [->|Hl].
  - rewrite layer_of_with_layer_same.
    destruct (out_of_bounds g x' y') eqn:Hob'.
    + case_bool_decide as E; [|reflexivity]. destruct E as (_ & -> & ->). congruence.
    + pose proof Hob as Hb. pose proof Hob' as Hb'.
      apply out_of_bounds_false in Hb, Hb'.
      rewrite cell_at_set_cell.
      case_bool_decide as E.
      * destruct E as (_ & -> & ->). rewrite decide_True by auto. reflexivity.
      * rewrite decide_False; [reflexivity|]. intros [E1 E2]. apply E. split; [reflexivity|]. lia.
  - rewrite layer_of_with_layer_other by exact Hl.
    rewrite bool_decide_eq_false_2 by tauto. reflexivity.
Qed.

Lemma cell_slot_wf (g : GridState) l x y :
  layer_wf g l -> out_of_bounds g x y = false ->
  cell_slot (layer_of g l) (Z.to_nat x) (Z.to_nat y) = true.
Proof.
  intros [Hlen Hrows] Hob. apply out_of_bounds_false in Hob as [Hx Hy].
  unfold cell_slot. destruct (layer_of g l !! Z.to_nat y) as [r|] eqn:Hr.
  - apply bool_decide_eq_true_2.
    rewrite (Forall_lookup_1 (fun r => length r = Z.to_nat (width g)) _ _ _ Hrows Hr). lia.
  - apply lookup_ge_None in Hr. lia.
Qed.

Lemma layer_wf_set_cell (g : GridState) l l' X Y c :
  layer_wf g l' -> layer_wf (with_layer g l (set_cell (layer_of g l) X Y c)) l'.
Proof.
  intros [Hlen Hrows]. destruct (decide (l' = l)) as [->|Hl].
  - unfold layer_wf. rewrite layer_of_with_layer_same.
    assert (E : width (with_layer g l (set_cell (layer_of g l) X Y c)) = width g
                /\ height (with_layer g l (set_cell (layer_of g l) X Y c)) = height g)
      by (destruct l; split; reflexivity).
    destruct E as [-> ->]. unfold set_cell.
    destruct (layer_of g l !! Y) as [r|] eqn:Hr; [|split; assumption].
    split; [rewrite length_insert; exact Hlen|].
    apply Forall_insert; [exact Hrows|]. rewrite length_insert.
    exact (Forall_lookup_1 (fun r => length r = Z.to_nat (width g)) _ _ _ Hrows Hr).
  - unfold layer_wf. rewrite layer_of_with_layer_other by exact Hl.
    destruct l, l'; try congruence; split; assumption.
Qed.

(** X1: setTile succeeds exactly when the sprite is in the catalog and (x,
    y) is in bounds. On a well-shaped layer, a successful write keeps
    the layer well-shaped and changes only cell (x, y) of layer l, which
    then holds the new cell. *)
Theorem setTile_getTile (g : GridState) x y a l :
  layer_wf g l ->
  ((exists g', setTile g x y a l = inr g') <->
   (getSprite g a <> None /\ 0 <= x < width g /\ 0 <= y < height g))
  /\ forall g', setTile g x y a l = inr g' ->
     layer_wf g' l /\
     forall x' y' l', getTile g' x' y' l' =
       if bool_decide (l' = l /\ x' = x /\ y' = y) then Some (mkMapCell a l)
       else getTile g x' y' l'.
Proof.
  intros Hwf. rewrite setTile_eq. split.
  - destruct (getSprite g a); [|split; [intros [? H]; discriminate|intros [H _]; congruence]].
    destruct (out_of_bounds g x y) eqn:Hob.
    + split; [intros [? H]; discriminate|]. intros (_ & Hb). 
      assert (out_of_bounds g x y = false) by (apply out_of_bounds_false; exact Hb). congruence.
    + split; [|intros _; eexists; reflexivity].
      intros _. split; [discriminate|]. apply out_of_bounds_false, Hob.
  - intros g' Hw. destruct (getSprite g a); [|discriminate].
    destruct (out_of_bounds g x y) eqn:Hob; [discriminate|]. injection Hw as <-.
    split; [apply layer_wf_set_cell, Hwf|].
    intros x' y' l'. rewrite getTile_with_set_cell by exact Hob.
    rewrite cell_slot_wf by assumption. reflexivity.
Qed.

(** X2: Two successful setTile calls: a second write to the same cell of the
    same layer replaces the first; writes to different cells or layers
    can be done in either order with the same final grid. *)
Theorem setTile_overwrite_commute (g g1 g2 : GridState) x y a l x' y' b l' :
  setTile g x y a l = inr g1 -> setTile g1 x' y' b l' = inr g2 ->
  ((l', x', y') = (l, x, y) -> setTile g x y b l = inr g2)
  /\ ((l', x', y') <> (l, x, y) ->
      exists g3, setTile g x' y' b l' = inr g3 /\ setTile g3 x y a l = inr g2).
Proof.
  intros Hw1 Hw2. rewrite setTile_eq in Hw1, Hw2.
  destruct (getSprite g a) as [sa|] eqn:Hsa; [|discriminate].
  destruct (out_of_bounds g x y) eqn:Hob1; [discriminate|]. injection Hw1 as <-.
  rewrite getSprite_with_layer, out_of_bounds_with_layer in Hw2.
  destruct (getSprite g b) as [sb|] eqn:Hsb; [|discriminate].
  destruct (out_of_bounds g x' y') eqn:Hob2; [discriminate|]. injection Hw2 as <-.
  split.
  - intros E. injection E as -> -> ->. rewrite setTile_eq, Hsb, Hob1. f_equal.
    rewrite layer_of_with_layer_same, with_layer_same, set_cell_same. reflexivity.
  - intros Hne. eexists. split; [rewrite setTile_eq, Hsb, Hob2; reflexivity|].
    rewrite setTile_eq, getSprite_with_layer, Hsa, out_of_bounds_with_layer, Hob1. f_equal.
    destruct (decide (l' = l)) as [->|Hl].
    + rewrite !layer_of_with_layer_same, !with_layer_same. f_equal.
      apply set_cell_comm.
      apply out_of_bounds_false in Hob1, Hob2.
      intros E. injection E as E1 E2. apply Hne. f_equal; [f_equal|]; lia.
    + rewrite (layer_of_with_layer_other g l l' _ (not_eq_sym Hl)).
      rewrite (layer_of_with_layer_other g l' l _ Hl).
      apply with_layer_comm; congruence.
Qed.

(** X3: clearTile empties exactly cell (x, y) of layer l and leaves every
    other cell as it was; clearing a cell that setTile has just filled
    from empty gives back the original grid. *)
Theorem clearTile_getTile (g : GridState) x y l :
  (forall x' y' l', getTile (clearTile g x y l) x' y' l' =
     if bool_decide (l' = l /\ x' = x /\ y' = y) then None else getTile g x' y' l')
  /\ (forall a g', getTile g x y l = None -> setTile g x y a l = inr g' -> clearTile g' x y l = g).
Proof.
  split.
  - intros x' y' l'. rewrite clearTile_eq.
    destruct (out_of_bounds g x y) eqn:Hob.
    + case_bool_decide as E; [|reflexivity]. destruct E as (-> & -> & ->).
      rewrite getTile_cell_at, Hob. reflexivity.
    + rewrite getTile_with_set_cell by exact Hob.
      case_bool_decide; [destruct cell_slot|]; reflexivity.
  - intros a g' Hempty Hw. rewrite setTile_eq in Hw.
    destruct (getSprite g a); [|discriminate].
    destruct (out_of_bounds g x y) eqn:Hob; [discriminate|]. injection Hw as <-.
    rewrite clearTile_eq, out_of_bounds_with_layer, Hob.
    rewrite layer_of_with_layer_same, with_layer_same, set_cell_same.
    rewrite getTile_cell_at, Hob in Hempty.
    unfold set_cell. unfold cell_at in Hempty.
    destruct (layer_of g l !! Z.to_nat y) as [r|] eqn:Hr; [|apply with_layer_self].
    rewrite (list_insert_id' r (Z.to_nat x) None).
    + rewrite list_insert_id by exact Hr. apply with_layer_self.
    + intros Hlt. destruct (r !! Z.to_nat x) as [c|] eqn:Hc.
      * rewrite ?Hc in Hempty. destruct c; [discriminate|reflexivity].
      * apply lookup_ge_None in Hc. lia.
Qed.

(* ---- *)
Lemma rect_In {A B} (xs : list A) (ys : list B) x y :
  In (x, y) (flat_map (fun y => map (fun x => (x, y)) xs) ys) <-> In x xs /\ In y ys.
Proof.
  rewrite in_flat_map. split.
  - intros (y' & Hy & Hin). apply in_map_iff in Hin as (x' & Heq & Hx).
    injection Heq as -> ->. auto.
  - intros [Hx Hy]. exists y. split; [exact Hy|]. apply in_map_iff. eauto.
Qed.

Lemma rect_NoDup {A B} (xs : list A) (ys : list B) :
  List.NoDup xs -> List.NoDup ys -> List.NoDup (flat_map (fun y => map (fun x => (x, y)) xs) ys).
Proof.
  intros Hxs Hys. induction Hys as [|y ys Hy Hys IH]; simpl; [constructor|].
  apply List.NoDup_app; [|exact IH|].
  - clear -Hxs. induction Hxs as [|a l Ha _ IH]; simpl; constructor; [|exact IH].
    intros Hin. apply in_map_iff in Hin as (x & Heq & Hx). injection Heq as ->. contradiction.
  - intros [a b] Hab Hin. apply in_map_iff in Hab as (x & Heq & _). injection Heq as -> ->.
    apply rect_In in Hin as [_ Hin]. contradiction.
Qed.

Lemma rect_length {A B} (xs : list A) (ys : list B) :
  length (flat_map (fun y => map (fun x => (x, y)) xs) ys) = (length xs * length ys)%nat.
Proof. induction ys as [|y ys IH]; simpl; [lia|]. rewrite length_app, length_map, IH. lia. Qed.

Lemma stats_inner (gr orow : option (list (option MapCell))) (xs : list Z) (a b : nat) :
  fold_left (fun '(gf, of') x =>
      ((if cell_filled gr x then S gf else gf), (if cell_filled orow x then S of' else of')))
    xs (a, b)
  = ((a + length (List.filter (fun x => cell_filled gr x) xs))%nat,
     (b + length (List.filter (fun x => cell_filled orow x) xs))%nat).
Proof.
  revert a b. induction xs as [|x xs IH]; intros a b; simpl; [f_equal; lia|].
  rewrite IH. destruct (cell_filled gr x), (cell_filled orow x); simpl; f_equal; lia.
Qed.

Lemma filter_map_pair (f : Z * Z -> bool) (xs : list Z) y :
  length (List.filter f (map (fun x => (x, y)) xs)) = length (List.filter (fun x => f (x, y)) xs).
Proof. induction xs as [|x xs IH]; simpl; [reflexivity|]. destruct (f (x, y)); simpl; lia. Qed.

(** [getStats] counts the in-bounds cells that [getTile] finds filled. *)
Lemma getStats_filter (g : GridState) :
  groundFilled (getStats g) = length (List.filter (fun p => isSome (getTile g p.1 p.2 LGround)) (grid_cells g))
  /\ objectsFilled (getStats g) = length (List.filter (fun p => isSome (getTile g p.1 p.2 LObject)) (grid_cells g)).
Proof.
  assert (Hin : forall l p, In p (grid_cells g) ->
            isSome (getTile g p.1 p.2 l) = cell_filled (layer_of g l !! Z.to_nat p.2) p.1).
  { intros l [x y] Hp. unfold grid_cells in Hp. apply rect_In in Hp as [Hx Hy].
    apply In_seqZ in Hx, Hy.
    assert (Hob : out_of_bounds g x y = false) by (apply out_of_bounds_false; lia).
    cbn [fst snd]. unfold getTile. rewrite Hob.
    unfold cell_filled. simpl. destruct (layer_of g l !! Z.to_nat y) as [r|]; [|reflexivity].
    destruct (r !! Z.to_nat x) as [[c|]|]; reflexivity. }
  rewrite (filter_ext_in _ _ _ (Hin LGround)), (filter_ext_in _ _ _ (Hin LObject)).
  unfold getStats, grid_cells.
  assert (Hgen : forall ys a b,
    fold_left (fun acc y =>
        let groundRow := ground g !! Z.to_nat y in
        let objectsRow := objects g !! Z.to_nat y in
        fold_left (fun '(gf, of') x =>
            ((if cell_filled groundRow x then S gf else gf),
             (if cell_filled objectsRow x then S of' else of')))
          (seqZ 0 (width g)) acc) ys (a, b)
    = ((a + length (List.filter (fun p => cell_filled (layer_of g LGround !! Z.to_nat p.2) p.1)
                     (flat_map (fun y => map (fun x => (x, y)) (seqZ 0 (width g))) ys)))%nat,
       (b + length (List.filter (fun p => cell_filled (layer_of g LObject !! Z.to_nat p.2) p.1)
                     (flat_map (fun y => map (fun x => (x, y)) (seqZ 0 (width g))) ys)))%nat)).
  { intros ys. induction ys as [|y ys IH]; intros a b; simpl; [f_equal; lia|].
    rewrite stats_inner, IH, !List.filter_app, !length_app, !filter_map_pair. simpl. f_equal; lia. }
  rewrite Hgen. simpl. split; reflexivity.
Qed.

(** X5: getStats counts, per layer, the in-bounds cells where getTile finds
    a cell; totalTiles is width * height and each count is at most the
    number of cells. *)
Theorem getStats_counts (g : GridState) :
  groundFilled (getStats g)
    = length (List.filter (fun p => isSome (getTile g p.1 p.2 LGround)) (grid_cells g))
  /\ objectsFilled (getStats g)
    = length (List.filter (fun p => isSome (getTile g p.1 p.2 LObject)) (grid_cells g))
  /\ totalTiles (getStats g) = width g * height g
  /\ (groundFilled (getStats g) <= Z.to_nat (width g) * Z.to_nat (height g))%nat
  /\ (objectsFilled (getStats g) <= Z.to_nat (width g) * Z.to_nat (height g))%nat.
Proof.
  destruct (getStats_filter g) as [Hg Ho].
  assert (Hl : length (grid_cells g) = (Z.to_nat (width g) * Z.to_nat (height g))%nat)
    by (unfold grid_cells; rewrite rect_length, !length_seqZ; reflexivity).
  split; [exact Hg|]. split; [exact Ho|].
  split; [unfold getStats; destruct (fold_left _ _ _); reflexivity|].
  rewrite Hg, Ho, <- Hl. split; apply filter_length_bound.
Qed.

Lemma filter_length_point {A} (f f' : A -> bool) (L : list A) (p : A) :
  List.NoDup L -> In p L -> (forall q, q <> p -> f' q = f q) ->
  (length (List.filter f' L) + (if f p then 1 else 0)
   = length (List.filter f L) + (if f' p then 1 else 0))%nat.
Proof.
  intros Hnd Hin Hq. induction Hnd as [|a L Ha Hnd IH]; [destruct Hin|].
  destruct Hin as [->|Hin].
  - simpl. rewrite (filter_ext_in f' f L).
    + destruct (f p), (f' p); simpl; lia.
    + intros q Hq'. apply Hq. intros ->. contradiction.
  - assert (a <> p) by (intros ->; contradiction).
    simpl. rewrite (Hq a) by assumption. destruct (f a); simpl; specialize (IH Hin); lia.
Qed.

Lemma grid_cells_NoDup (g : GridState) : List.NoDup (grid_cells g).
Proof. apply rect_NoDup; apply NoDup_ListNoDup, NoDup_seqZ. Qed.

Lemma grid_cells_In (g : GridState) x y :
  In (x, y) (grid_cells g) <-> 0 <= x < width g /\ 0 <= y < height g.
Proof. unfold grid_cells. rewrite rect_In, !In_seqZ. lia. Qed.

(** X6: After a successful setTile on a well-shaped layer, getStats keeps
    totalTiles, adds one to the count of that layer exactly when the
    cell was empty before, and leaves the count of the other layer
    unchanged. *)
Theorem getStats_setTile (g g' : GridState) x y a l :
  layer_wf g l -> setTile g x y a l = inr g' ->
  totalTiles (getStats g') = totalTiles (getStats g)
  /\ layer_filled (getStats g') l
     = (layer_filled (getStats g) l + (if isSome (getTile g x y l) then 0 else 1))%nat
  /\ (forall l', l' <> l -> layer_filled (getStats g') l' = layer_filled (getStats g) l').
Proof.
  intros Hwf Hw. pose proof Hw as Hw'. rewrite setTile_eq in Hw'.
  destruct (getSprite g a); [|discriminate].
  destruct (out_of_bounds g x y) eqn:Hob; [discriminate|]. injection Hw' as <-.
  assert (Hdims : width (with_layer g l (set_cell (layer_of g l) (Z.to_nat x) (Z.to_nat y) (Some (mkMapCell a l)))) = width g
               /\ height (with_layer g l (set_cell (layer_of g l) (Z.to_nat x) (Z.to_nat y) (Some (mkMapCell a l)))) = height g)
    by (destruct l; split; reflexivity).
  set (g1 := with_layer g l _) in *.
  assert (Hcells : grid_cells g1 = grid_cells g) by (unfold grid_cells; rewrite (proj1 Hdims), (proj2 Hdims); reflexivity).
  assert (Hlf : forall h l', layer_filled (getStats h) l'
                 = length (List.filter (fun p => isSome (getTile h p.1 p.2 l')) (grid_cells h))).
  { intros h []; apply getStats_filter. }
  assert (Htile : forall x' y' l', getTile g1 x' y' l' =
            if bool_decide (l' = l /\ x' = x /\ y' = y) then Some (mkMapCell a l) else getTile g x' y' l').
  { intros x' y' l'. unfold g1. rewrite getTile_with_set_cell by exact Hob.
    rewrite cell_slot_wf by assumption. reflexivity. }
  split; [|split].
  - unfold getStats. destruct (fold_left _ (seqZ 0 (height g1)) _), (fold_left _ (seqZ 0 (height g)) _).
    cbn [totalTiles]. rewrite (proj1 Hdims), (proj2 Hdims). reflexivity.
  - rewrite !Hlf, Hcells.
    pose proof (filter_length_point (fun p => isSome (getTile g p.1 p.2 l))
                  (fun p => isSome (getTile g1 p.1 p.2 l)) (grid_cells g) (x, y)
                  (grid_cells_NoDup g)) as H.
    apply out_of_bounds_false in Hob.
    specialize (H (proj2 (grid_cells_In g x y) Hob)).
    cbn [fst snd] in H. rewrite Htile in H. rewrite bool_decide_eq_true_2 in H by auto.
    cbn [isSome] in H.
    assert (Hq : forall q, q <> (x, y) -> isSome (getTile g1 q.1 q.2 l) = isSome (getTile g q.1 q.2 l)).
    { intros [x' y'] Hne. cbn [fst snd]. rewrite Htile. rewrite bool_decide_eq_false_2; [reflexivity|].
      intros (_ & -> & ->). contradiction. }
    specialize (H Hq). destruct (isSome (getTile g x y l)); lia.
  - intros l' Hl. rewrite !Hlf, Hcells. f_equal. apply filter_ext. intros [x' y']. cbn [fst snd].
    rewrite Htile. rewrite bool_decide_eq_false_2 by tauto. reflexivity.
Qed.

Lemma filter_all_false {A} (f : A -> bool) (l : list A) :
  (forall a, f a = false) -> List.filter f l = [].
Proof. intros H. induction l as [|a l IH]; simpl; [reflexivity|]. rewrite H. exact IH. Qed.

Lemma getStats_eta (g : GridState) :
  getStats g = mkStats (totalTiles (getStats g)) (groundFilled (getStats g)) (objectsFilled (getStats g)).
Proof. destruct (getStats g); reflexivity. Qed.

Lemma getStats_totalTiles (g : GridState) : totalTiles (getStats g) = width g * height g.
Proof. unfold getStats. destruct (fold_left _ _ _). reflexivity. Qed.

(** X4: A new GridState has both layers well-shaped and empty: getTile finds
    nothing anywhere, getStats reports width * height tiles with none
    filled, and the connectivity report is connected with no road tiles
    and no islands. *)
Theorem newGridState_empty (wd ht : Z) (spr : list Sprite) :
  grid_wf (newGridState wd ht spr)
  /\ (forall x y l, getTile (newGridState wd ht spr) x y l = None)
  /\ getStats (newGridState wd ht spr) = mkStats (wd * ht) 0 0
  /\ validateRoadConnectivity (newGridState wd ht spr) = mkReport true 0 0 [].
Proof.
  set (g := newGridState wd ht spr).
  assert (Hwf : forall l, layer_wf g l).
  { intros l. split; [destruct l; apply length_replicate|].
    destruct l; apply Forall_replicate, length_replicate. }
  assert (Htile : forall x y l, getTile g x y l = None).
  { intros x y l. rewrite getTile_cell_at. destruct (out_of_bounds _ x y); [reflexivity|].
    unfold cell_at. assert (E : layer_of g l = empty_layer wd ht) by (destruct l; reflexivity).
    rewrite E. unfold empty_layer.
    destruct (replicate (Z.to_nat ht) (replicate (Z.to_nat wd) None) !! Z.to_nat y) as [r|] eqn:Er;
      [|reflexivity].
    apply lookup_replicate in Er as [-> _].
    destruct (replicate (Z.to_nat wd) (@None MapCell) !! Z.to_nat x) as [c|] eqn:Ec; [|reflexivity].
    apply lookup_replicate in Ec as [-> _]. reflexivity. }
  split; [split; apply Hwf|]. split; [exact Htile|]. split.
  - rewrite getStats_eta, getStats_totalTiles. destruct (getStats_filter g) as [Hg Ho].
    rewrite Hg, Ho, !filter_all_false by (intros p; rewrite Htile; reflexivity). reflexivity.
  - assert (Hnet : getRoadNetwork g = []).
    { unfold getRoadNetwork. induction (seqZ 0 (height g)) as [|y ys IH]; [reflexivity|].
      simpl. rewrite filter_all_false; [exact IH|].
      intros x. unfold isRoadAt. rewrite Htile. reflexivity. }
    unfold validateRoadConnectivity, getRoadIslands. rewrite Hnet. reflexivity.
Qed.

Lemma string_get_list (l : list ascii) n : String.get n (String.string_of_list_ascii l) = l !! n.
Proof. revert n. induction l as [|c l IH]; intros [|n]; simpl; auto. Qed.

Lemma string_length_list (l : list ascii) : String.length (String.string_of_list_ascii l) = length l.
Proof. induction l as [|c l IH]; simpl; auto. Qed.

Lemma map_lookup {A B} (f : A -> B) (l : list A) i : List.map f l !! i = option_map f (l !! i).
Proof. revert i. induction l as [|a l IH]; intros [|i]; simpl; auto. Qed.

Lemma seqZ_lookup_Z (n k : Z) : 0 <= k < n -> seqZ 0 n !! Z.to_nat k = Some k.
Proof. intros Hk. rewrite lookup_seqZ_lt by lia. f_equal. lia. Qed.

Lemma ground_char_spec (g : GridState) x y :
  ground_char g x y
  = (if isRoadAt g x y then "R" else match getTile g x y LGround with Some _ => "G" | None => "." end)%char.
Proof.
  unfold ground_char, isRoadAt. destruct (getTile g x y LGround) as [t|]; [|reflexivity].
  destruct (getSprite g (assetId t)); [|reflexivity]. destruct (isRoadSprite _); reflexivity.
Qed.

(** X7: For an in-bounds (x, y), the ground part of toASCII joins its lines
    with newlines; it has height + 3 lines, line y + 1 has width + 2
    characters, and its character x + 2 is R for a road, G for other
    ground and . for an empty cell. The character is R exactly when (x,
    y) is in getRoadNetwork. *)
Theorem toASCII_ground_cells (g : GridState) x y :
  0 <= x < width g -> 0 <= y < height g ->
  (toASCII g).1 = String.concat newline (groundLines g)
  /\ length (groundLines g) = (Z.to_nat (height g) + 3)%nat
  /\ exists line, groundLines g !! S (Z.to_nat y) = Some line
     /\ String.length line = (Z.to_nat (width g) + 2)%nat
     /\ String.get (Z.to_nat x + 2) line
        = Some (if isRoadAt g x y then "R"
                else match getTile g x y LGround with Some _ => "G" | None => "." end)%char
     /\ (String.get (Z.to_nat x + 2) line = Some "R"%char <-> In (x, y) (getRoadNetwork g)).
Proof.
  intros Hx Hy. split; [reflexivity|]. split.
  { unfold groundLines, ascii_lines. cbn [length]. rewrite length_app, length_map, length_seqZ.
    cbn [length]. lia. }
  unfold groundLines, ascii_lines.
  exists (ascii_row g (ground_char g) y). split.
  { transitivity ((map (ascii_row g (ground_char g)) (seqZ 0 (height g)) ++
             [""%string; "Legend: R=road, G=ground, .=empty"%string]) !! Z.to_nat y); [reflexivity|].
    rewrite lookup_app_l by (rewrite length_map, length_seqZ; lia).
    rewrite map_lookup, seqZ_lookup_Z by lia. reflexivity. }
  unfold ascii_row. cbn [String.length String.get].
  rewrite string_length_list, length_map, length_seqZ.
  replace (Z.to_nat x + 2)%nat with (S (S (Z.to_nat x))) by lia. cbn [String.get].
  rewrite string_get_list, map_lookup, seqZ_lookup_Z by lia. cbn [option_map].
  rewrite ground_char_spec. split; [lia|]. split; [reflexivity|].
  rewrite getRoadNetwork_In. destruct (isRoadAt g x y); [tauto|].
  destruct (getTile g x y LGround); split; intros H; discriminate.
Qed.

(* ---- *)
Lemma getTile_after_setTile (g g' : GridState) x y a l :
  layer_wf g l -> setTile g x y a l = inr g' ->
  forall x' y' l', getTile g' x' y' l' =
    if bool_decide (l' = l /\ x' = x /\ y' = y) then Some (mkMapCell a l) else getTile g x' y' l'.
Proof.
  intros Hwf Hw. rewrite setTile_eq in Hw.
  destruct (getSprite g a); [|discriminate].
  destruct (out_of_bounds g x y) eqn:Hob; [discriminate|]. injection Hw as <-.
  intros x' y' l'. rewrite getTile_with_set_cell by exact Hob.
  rewrite cell_slot_wf by assumption. reflexivity.
Qed.



(** X8: placeRoad on a well-shaped ground layer either fails and leaves the
    grid and the budget tracker unchanged, or succeeds: then the budget
    was not exhausted and is increased by one, the sprite is a road
    sprite of the catalog, and only ground cell (x, y) changes, to that
    sprite. *)
Theorem placeRoad_outcome x y spriteId (g : GridState) t :
  layer_wf g LGround ->
  let '(r, (g', t')) := placeRoad x y spriteId g t in
  (pr_success r = false /\ g' = g /\ t' = t)
  \/ (pr_success r = true
      /\ rb_tilesPlaced t < rb_maxTiles t
      /\ t' = mkBudget (rb_tilesPlaced t + 1) (rb_maxTiles t)
      /\ (exists s, getSprite g spriteId = Some s /\ isRoadSprite s = true)
      /\ forall x' y' l', getTile g' x' y' l' =
           if bool_decide (l' = LGround /\ x' = x /\ y' = y) then Some (mkMapCell spriteId LGround)
           else getTile g x' y' l').
Proof.
  intros Hwf. unfold placeRoad.
  destruct (out_of_bounds g x y); [left; auto|].
  destruct (rb_tilesPlaced t >=? rb_maxTiles t) eqn:Hb; [left; auto|].
  destruct (getSprite g spriteId) as [s|] eqn:Hs; [|left; auto].
  destruct (negb (isRoadSprite s)) eqn:Hr; [left; auto|].
  destruct (List.filter _ _); [|left; auto].
  destruct (setTile g x y spriteId LGround) as [e|g'] eqn:Hw; [left; auto|].
  right. split; [reflexivity|]. split; [rewrite Z.geb_leb, Z.leb_gt in Hb; lia|]. split; [reflexivity|].
  split; [exists s; split; [reflexivity|destruct (isRoadSprite s); [reflexivity|discriminate]]|].
  exact (getTile_after_setTile g g' x y spriteId LGround Hwf Hw).
Qed.


(** X11: placeAsset on a well-shaped grid either fails and leaves the grid
    unchanged, or places the asset on the requested layer (or the
    sprite's default layer): an object needs a ground tile and a free
    object cell, and only that one cell changes. *)
Theorem placeAsset_outcome x y a layer (g : GridState) :
  grid_wf g ->
  let '(r, g') := placeAsset x y a layer g in
  (pa_success r = false /\ g' = g)
  \/ (exists s l, r = PAPlaced x y a l /\ getSprite g a = Some s
      /\ l = match layer with Some l => l | None => pl_layer (placement s) end
      /\ (l = LObject -> getTile g x y LGround <> None /\ getTile g x y LObject = None)
      /\ forall x' y' l', getTile g' x' y' l' =
           if bool_decide (l' = l /\ x' = x /\ y' = y) then Some (mkMapCell a l)
           else getTile g x' y' l').
Proof.
  intros [HwG HwO]. unfold placeAsset.
  destruct (out_of_bounds g x y); [left; auto|].
  destruct (getSprite g a) as [s|] eqn:Hs; [|left; auto].
  destruct (match layer with Some l => l | None => pl_layer (placement s) end) eqn:Etl.
  - destruct (setTile g x y a LGround) as [e|g'] eqn:Hw; [left; auto|].
    right. exists s, LGround. split; [reflexivity|]. split; [first [reflexivity|exact Hs]|]. split; [symmetry; exact Etl|].
    split; [discriminate|]. exact (getTile_after_setTile g g' x y a LGround HwG Hw).
  - destruct (getTile g x y LGround) as [gt|] eqn:Hg; [|left; auto].
    destruct (getTile g x y LObject) as [ot|] eqn:Ho; [left; auto|].
    destruct (setTile g x y a LObject) as [e|g'] eqn:Hw; [left; auto|].
    right. exists s, LObject. split; [reflexivity|]. split; [first [reflexivity|exact Hs]|]. split; [symmetry; exact Etl|].
    split; [intros _; split; [discriminate|reflexivity]|].
    exact (getTile_after_setTile g g' x y a LObject HwO Hw).
Qed.

(** One entry of the batch behaves as a [placeAsset] call. *)
Lemma placeAssets_one_placeAsset p (g : GridState) :
  (placeAssets_one p g).2 = (placeAsset (req_x p) (req_y p) (req_asset p) (req_layer p) g).2
  /\ isNone (placeAssets_one p g).1
     = pa_success (placeAsset (req_x p) (req_y p) (req_asset p) (req_layer p) g).1.
Proof.
  unfold placeAssets_one, placeAsset.
  destruct (out_of_bounds g (req_x p) (req_y p)); [auto|].
  destruct (getSprite g (req_asset p)) as [s|]; [|auto].
  destruct (match req_layer p with Some l => l | None => pl_layer (placement s) end).
  - cbn [bool_decide decide_rel Layer_eq_dec andb]. 
    destruct (setTile _ _ _ _ _); auto.
  - destruct (getTile g (req_x p) (req_y p) LGround); cbn; [|auto].
    destruct (getTile g (req_x p) (req_y p) LObject); cbn; [auto|].
    destruct (setTile _ _ _ _ _); auto.
Qed.

Lemma placeAssets_loop_run ps (g : GridState) acc :
  let '(results, g') := placeAssets_loop ps g acc in
  let '(bs, g'') := placeAsset_run ps g in
  g' = g'' /\ exists rs, results = acc ++ rs /\ map fst rs = ps /\ map (fun r => isNone r.2) rs = bs.
Proof.
  revert g acc. induction ps as [|p ps IH]; intros g acc; simpl.
  - split; [reflexivity|]. exists []. rewrite app_nil_r. auto.
  - destruct (placeAssets_one_placeAsset p g) as [E1 E2].
    destruct (placeAssets_one p g) as [e g1] eqn:Hone.
    destruct (placeAsset (req_x p) (req_y p) (req_asset p) (req_layer p) g) as [r g1'] eqn:Hpa.
    cbn [fst snd] in E1, E2. subst g1'.
    specialize (IH g1 (acc ++ [(p, e)])).
    destruct (placeAssets_loop ps g1 (acc ++ [(p, e)])) as [results g'].
    destruct (placeAsset_run ps g1) as [bs g''].
    destruct IH as [-> (rs & -> & Hfst & Hb)]. split; [reflexivity|].
    exists ((p, e) :: rs). rewrite <- app_assoc. simpl. rewrite Hfst, Hb, E2. auto.
Qed.

Lemma filter_length_partition {A} (f : A -> bool) (l : list A) :
  (length (List.filter f l) + length (List.filter (fun a => negb (f a)) l))%nat = length l.
Proof. induction l as [|a l IH]; simpl; [reflexivity|]. destruct (f a); simpl; lia. Qed.

(** X12: placeAssets gives the same final grid as placing the requests one
    by one with placeAsset. It reports one result per request, in order;
    placed is the number of successes, placed + failed is the number of
    requests, and success holds exactly when every request succeeded. *)
Theorem placeAssets_sequential ps (g : GridState) :
  let '(res, g') := placeAssets ps g in
  let '(bs, g'') := placeAsset_run ps g in
  g' = g''
  /\ map fst (batch_results res) = ps
  /\ map (fun r => isNone r.2) (batch_results res) = bs
  /\ batch_placed res = length (List.filter (fun b => b) bs)
  /\ (batch_placed res + batch_failed res)%nat = length ps
  /\ (batch_success res = true <-> Forall (fun b => b = true) bs).
Proof.
  pose proof (placeAssets_loop_run ps g []) as H. unfold placeAssets.
  destruct (placeAssets_loop ps g []) as [results g'].
  destruct (placeAsset_run ps g) as [bs g''].
  destruct H as [-> (rs & -> & Hfst & Hb)]. cbn [app batch_results batch_placed batch_failed batch_success].
  assert (Hp : length (List.filter (fun r : AssetRequest * option BatchError => isNone r.2) rs)
               = length (List.filter (fun b => b) bs)).
  { rewrite <- Hb. clear. induction rs as [|r rs IH]; simpl; [reflexivity|].
    destruct (isNone r.2); simpl; lia. }
  assert (Hf : List.filter (fun r : AssetRequest * option BatchError => isSome r.2) rs
               = List.filter (fun r => negb (isNone r.2)) rs).
  { apply filter_ext. intros [? [?|]]; reflexivity. }
  split; [reflexivity|]. split; [exact Hfst|]. split; [exact Hb|]. split; [exact Hp|].
  split.
  - rewrite Hf, filter_length_partition, <- Hfst, length_map. reflexivity.
  - rewrite Nat.eqb_eq, Hf, <- Hb. clear. split.
    + intros H. induction rs as [|r rs IH]; constructor.
      * simpl in H. destruct (isNone r.2); [reflexivity|discriminate].
      * apply IH. simpl in H. destruct (isNone r.2); simpl in H; [exact H|discriminate].
    + intros H. induction rs as [|r rs IH]; [reflexivity|].
      inversion H as [|? ? Hr Hrs]; subst. simpl. rewrite Hr. simpl. exact (IH Hrs).
Qed.

(* ---- *)
Lemma placeRoad_tracker x y sid (g : GridState) t :
  (placeRoad x y sid g t).2.2 =
    (if pr_success (placeRoad x y sid g t).1
     then mkBudget (rb_tilesPlaced t + 1) (rb_maxTiles t) else t)
  /\ (pr_success (placeRoad x y sid g t).1 = true -> rb_tilesPlaced t < rb_maxTiles t).
Proof.
  unfold placeRoad.
  destruct (out_of_bounds g x y); [split; [reflexivity|discriminate]|].
  destruct (rb_tilesPlaced t >=? rb_maxTiles t) eqn:Hb; [split; [reflexivity|discriminate]|].
  destruct (getSprite g sid) as [s|]; [|split; [reflexivity|discriminate]].
  destruct (negb (isRoadSprite s)); [split; [reflexivity|discriminate]|].
  destruct (List.filter _ _); [|split; [reflexivity|discriminate]].
  destruct (setTile g x y sid LGround); [split; [reflexivity|discriminate]|].
  split; [reflexivity|]. intros _. rewrite Z.geb_leb, Z.leb_gt in Hb. exact Hb.
Qed.

(** X10: Over any sequence of calls to one placeRoad tool created with
    maxTiles = m, the tracker counts exactly the successful placements,
    and that count never exceeds max(0, m). *)
Theorem placeRoad_session_budget m t n :
  place_road_session m t n -> t = mkBudget (Z.of_nat n) m /\ Z.of_nat n <= Z.max 0 m.
Proof.
  induction 1 as [|t n x y sid g _ [-> IH]]; [split; [reflexivity|lia]|].
  destruct (placeRoad_tracker x y sid g (mkBudget (Z.of_nat n) m)) as [Ht Hlt].
  rewrite Ht. cbn [rb_tilesPlaced rb_maxTiles] in *.
  destruct (pr_success _); split.
  - f_equal. lia.
  - specialize (Hlt eq_refl). lia.
  - f_equal. lia.
  - lia.
Qed.

Lemma placeRoad_session_budget_witness :
  place_road_session 1 (placeRoad 2 2 "sprite_0"%string layout_grid (mkBudget 0 1)).2.2 1
  /\ (placeRoad 2 2 "sprite_0"%string layout_grid (mkBudget 0 1)).2.2 = mkBudget (Z.of_nat 1) 1
     /\ Z.of_nat 1 <= Z.max 0 1.
Proof.
  assert (H : place_road_session 1 (placeRoad 2 2 "sprite_0"%string layout_grid (mkBudget 0 1)).2.2 1).
  { exact (pr_session_call 1 _ 0 2 2 "sprite_0"%string layout_grid (pr_session_start 1)). }
  split; [exact H|]. exact (placeRoad_session_budget 1 _ 1 H).
Defined.

Lemma drawRoad_point_budget path i pt st :
  tilesPlaced (dl_tracker (drawRoad_point path i pt st)) = tilesPlaced (dl_tracker st)
  /\ maxTiles (dl_tracker (drawRoad_point path i pt st)) = maxTiles (dl_tracker st)
  /\ (dl_placed (drawRoad_point path i pt st) <= S (dl_placed st))%nat.
Proof.
  destruct st as [g t pl up er]. unfold drawRoad_point. destruct pt as [px py].
  cbn [dl_grid dl_tracker dl_placed].
  destruct (findMatchingRoadSprite _ _); [|cbn; lia].
  destruct (setTile _ _ _ _ _); [cbn; lia|].
  destruct (updateAdjacentRoads _ _ _ _) as [[e|n] g2]; cbn; lia.
Qed.

Lemma drawRoad_loop_budget path i rest st :
  tilesPlaced (dl_tracker (drawRoad_loop path i rest st)) = tilesPlaced (dl_tracker st)
  /\ maxTiles (dl_tracker (drawRoad_loop path i rest st)) = maxTiles (dl_tracker st)
  /\ (dl_placed (drawRoad_loop path i rest st) <= dl_placed st + length rest)%nat.
Proof.
  revert i st. induction rest as [|pt r IH]; intros i st; cbn [drawRoad_loop length]; [lia|].
  destruct (drawRoad_point_budget path i pt st) as (H1 & H2 & H3).
  destruct (IH (S i) (drawRoad_point path i pt st)) as (I1 & I2 & I3). lia.
Qed.

Lemma drawRoad_budget fromX fromY toX toY (g : GridState) t :
  maxTiles (drawRoad fromX fromY toX toY g t).2.2 = maxTiles t
  /\ tilesPlaced t <= tilesPlaced (drawRoad fromX fromY toX toY g t).2.2
  /\ (tilesPlaced (drawRoad fromX fromY toX toY g t).2.2 = tilesPlaced t
      \/ tilesPlaced (drawRoad fromX fromY toX toY g t).2.2 <= maxTiles t).
Proof.
  unfold drawRoad.
  destruct (out_of_bounds g fromX fromY || out_of_bounds g toX toY); [cbn; lia|].
  destruct (_ && _ && _); [cbn; lia|].
  destruct (Z.of_nat _ >? _) eqn:Hb; [cbn; lia|].
  destruct (drawRoad_loop_budget (generateManhattanPath fromX fromY toX toY) 0
              (generateManhattanPath fromX fromY toX toY) (mkDrawLoop g t 0 0 [])) as (H1 & H2 & H3).
  cbn [fst snd tilesPlaced maxTiles dl_tracker dl_placed] in *.
  rewrite Z.gtb_ltb, Z.ltb_ge in Hb. lia.
Qed.

Lemma draw_session_rt g0 m g t :
  draw_session g0 m g t -> clos_refl_trans GridState road_write g0 g.
Proof.
  induction 1 as [|g t fx fy tx ty _ IH|g t _ IH]; [apply rt_refl| |].
  - eapply rt_trans; [exact IH|apply drawRoad_inv].
  - eapply rt_trans; [exact IH|apply connectRoads_road].
Qed.

(** X13: Over any session of one drawRoad tool created with maxTiles = m,
    started on a grid with a well-shaped ground layer and unique sprite
    ids, the tracker keeps maxTiles = m and its tilesPlaced stays
    between 0 and max(0, m). The sprite catalog is kept, roads already
    on the grid stay roads, and every tile in the tracker's road set is
    a road on the grid. *)
Theorem draw_session_budget_roads g0 m g t :
  ground_wf g0 -> ids_unique g0 -> draw_session g0 m g t ->
  maxTiles t = m /\ 0 <= tilesPlaced t <= Z.max 0 m
  /\ sprites g = sprites g0
  /\ (forall x y, isRoadAt g0 x y = true -> isRoadAt g x y = true)
  /\ (forall p, In p (roadTiles t) -> isRoadAt g p.1 p.2 = true).
Proof.
  intros Hwf0 Hu0 Hs.
  destruct (draw_session_inv g0 m g t Hwf0 Hu0 Hs) as (_ & _ & Hok).
  destruct (roads_kept_rt g0 g (draw_session_rt g0 m g t Hs)) as (_ & Hspr & Hroads).
  split; [|split; [|split; [exact Hspr|split; [exact (Hroads Hwf0 Hu0)|exact Hok]]]];
  clear Hok Hspr Hroads; induction Hs as [|g t fx fy tx ty Hs IH|g t Hs IH]; try exact IH.
  - reflexivity.
  - destruct (drawRoad_budget fx fy tx ty g t) as (H1 & _). rewrite H1. exact IH.
  - cbn. lia.
  - destruct (drawRoad_budget fx fy tx ty g t) as (H1 & H2 & H3).
    assert (maxTiles t = m).
    { clear -Hs. induction Hs as [|g t fx fy tx ty _ IH|g t _ IH]; [reflexivity| |exact IH].
      rewrite (proj1 (drawRoad_budget fx fy tx ty g t)). exact IH. }
    lia.
Qed.

Lemma draw_session_budget_roads_witness :
  maxTiles first_draw.2.2 = 5 /\ 0 <= tilesPlaced first_draw.2.2 <= Z.max 0 5
  /\ sprites first_draw.2.1 = sprites layout_grid
  /\ (forall x y, isRoadAt layout_grid x y = true -> isRoadAt first_draw.2.1 x y = true)
  /\ (forall p, In p (roadTiles first_draw.2.2) -> isRoadAt first_draw.2.1 p.1 p.2 = true).
Proof.
  apply (draw_session_budget_roads layout_grid 5).
  - vm_compute. split; [reflexivity|]. repeat constructor.
  - unfold ids_unique. vm_compute. repeat constructor; simpl; intuition discriminate.
  - exact (session_draw layout_grid 5 _ _ 0 0 2 0 (session_start layout_grid 5)).
Defined.








(* ---- *)
Lemma setTile_dims (g g' : GridState) x y a l :
  setTile g x y a l = inr g' ->
  width g' = width g /\ height g' = height g /\ sprites g' = sprites g
  /\ getSprite g a <> None /\ out_of_bounds g x y = false.
Proof.
  rewrite setTile_eq. destruct (getSprite g a); [|discriminate].
  destruct (out_of_bounds g x y); [discriminate|]. intros [= <-].
  destruct l; repeat split; discriminate.
Qed.

Lemma setTile_layer_wf (g g' : GridState) x y a l l' :
  layer_wf g l' -> setTile g x y a l = inr g' -> layer_wf g' l'.
Proof.
  intros Hwf. rewrite setTile_eq. destruct (getSprite g a); [|discriminate].
  destruct (out_of_bounds g x y); [discriminate|]. intros [= <-].
  apply layer_wf_set_cell, Hwf.
Qed.

Lemma fill_compose (T0 T1 T2 : Z -> Z -> Layer -> option MapCell) ow c px py (L : list (Z * Z)) :
  (px, py) ∉ L ->
  (forall x y l, T1 x y l =
     if bool_decide (l = LGround /\ x = px /\ y = py) && (ow || isNone (T0 px py LGround))
     then c else T0 x y l) ->
  (forall x y l, T2 x y l =
     if bool_decide (l = LGround /\ (x, y) ∈ L) && (ow || isNone (T1 x y LGround))
     then c else T1 x y l) ->
  forall x y l, T2 x y l =
     if bool_decide (l = LGround /\ (x, y) ∈ (px, py) :: L) && (ow || isNone (T0 x y LGround))
     then c else T0 x y l.
Proof.
  intros Hn H1 H2 x y l. rewrite H2, !H1.
  destruct (decide (l = LGround)) as [->|Hl].
  - destruct (decide (x = px /\ y = py)) as [[-> ->]|Hne].
    + rewrite (bool_decide_eq_false_2 (LGround = LGround /\ (px, py) ∈ L)) by tauto.
      rewrite (bool_decide_eq_true_2 (LGround = LGround /\ (px, py) ∈ (px, py) :: L))
        by (split; [reflexivity|left]).
      rewrite bool_decide_eq_true_2 by tauto. reflexivity.
    + rewrite !(bool_decide_eq_false_2 (LGround = LGround /\ x = px /\ y = py)) by tauto.
      cbn [andb].
      replace (bool_decide (LGround = LGround /\ (x, y) ∈ (px, py) :: L))
        with (bool_decide (LGround = LGround /\ (x, y) ∈ L)); [reflexivity|].
      apply bool_decide_ext. rewrite elem_of_cons. split; [tauto|].
      intros [_ [H|H]]; [injection H as -> ->; tauto|tauto].
  - rewrite !(bool_decide_eq_false_2 (l = LGround /\ _)) by tauto. reflexivity.
Qed.

Lemma fill_loop a ow (L : list (Z * Z)) : forall (g : GridState) f k,
  layer_wf g LGround -> getSprite g a <> None ->
  (forall p, In p L -> out_of_bounds g p.1 p.2 = false) -> List.NoDup L ->
  let r := fold_left (fill_cell a ow) L (g, f, k) in
  layer_wf r.1.1 LGround /\ width r.1.1 = width g /\ height r.1.1 = height g
  /\ sprites r.1.1 = sprites g
  /\ (r.1.2 + r.2 = f + k + length L)%nat
  /\ forall x y l, getTile r.1.1 x y l =
       if bool_decide (l = LGround /\ (x, y) ∈ L) && (ow || isNone (getTile g x y LGround))
       then Some (mkMapCell a LGround) else getTile g x y l.
Proof.
  induction L as [|[px py] L IH]; intros g f k Hwf Hs Hob Hnd; cbn [fold_left].
  { cbn [fst snd length]. split; [exact Hwf|]. repeat split; [lia|].
    intros x y l. rewrite bool_decide_eq_false_2; [reflexivity|].
    intros [_ H]. apply list_elem_of_In in H. destruct H. }
  apply NoDup_cons_iff in Hnd as [HnL Hnd].
  assert (Hn : (px, py) ∉ L) by (intros H; apply HnL, list_elem_of_In, H).
  assert (Hp : out_of_bounds g px py = false) by exact (Hob (px, py) (or_introl eq_refl)).
  assert (HobL : forall p, In p L -> out_of_bounds g p.1 p.2 = false) by (intros q Hq; apply Hob; right; exact Hq).
  change (fill_cell a ow (g, f, k) (px, py)) with
    (if isSome (getTile g px py LGround) && negb ow then (g, f, S k)
     else match setTile g px py a LGround with
          | inr g' => (g', S f, k)
          | inl _ => (g, f, k)
          end).
  destruct (isSome (getTile g px py LGround) && negb ow) eqn:Hskip.
  - destruct (IH g f (S k) Hwf Hs HobL Hnd) as (W & Ew & Eh & Es & Ec & Et).
    split; [exact W|]. split; [exact Ew|]. split; [exact Eh|]. split; [exact Es|].
    split; [cbn [length]; lia|].
    eapply fill_compose; [exact Hn| |exact Et].
    intros x y l. destruct ow, (getTile g px py LGround); try discriminate Hskip;
      rewrite andb_false_r; reflexivity.
  - destruct (setTile g px py a LGround) as [e|g1] eqn:Hw.
    { exfalso. rewrite setTile_eq, Hp in Hw. destruct (getSprite g a); [discriminate|congruence]. }
    destruct (setTile_dims g g1 px py a LGround Hw) as (Hw1 & Hh1 & Hs1 & _ & _).
    assert (Hwf1 : layer_wf g1 LGround) by exact (setTile_layer_wf g g1 px py a LGround LGround Hwf Hw).
    assert (Hsp1 : getSprite g1 a <> None) by (rewrite (getSprite_same g g1 a Hs1); exact Hs).
    assert (Hob1 : forall p, In p L -> out_of_bounds g1 p.1 p.2 = false).
    { intros q Hq. unfold out_of_bounds. rewrite Hw1, Hh1. apply HobL, Hq. }
    destruct (IH g1 (S f) k Hwf1 Hsp1 Hob1 Hnd) as (W & Ew & Eh & Es & Ec & Et).
    split; [exact W|]. split; [congruence|]. split; [congruence|]. split; [congruence|].
    split; [cbn [length]; lia|].
    eapply fill_compose; [exact Hn| |exact Et].
    intros x y l. rewrite (getTile_after_setTile g g1 px py a LGround Hwf Hw).
    case_bool_decide as E; [|rewrite andb_false_l; reflexivity].
    destruct ow, (getTile g px py LGround); try discriminate Hskip; reflexivity.
Qed.

Lemma fill_positions_In sx sy ex ey x y :
  (x, y) ∈ fill_positions sx sy ex ey <-> sx <= x <= ex /\ sy <= y <= ey.
Proof.
  unfold fill_positions. rewrite list_elem_of_In, rect_In, !In_seqZ. lia.
Qed.

Lemma Z_of_nat_to_nat (a : Z) : Z.of_nat (Z.to_nat a) = Z.max 0 a.
Proof. lia. Qed.

(** X15: fillGround with an unknown sprite changes nothing, and with a non-
    ground sprite it reports the category and changes nothing. With a
    ground sprite it fills the region clamped to the grid: filled +
    skipped equals the region's size, and a ground cell of the region is
    set to the sprite exactly when it was empty or overwrite is set;
    nothing else changes. *)
Theorem fillGround_effect x1 y1 x2 y2 a overwrite (g : GridState) :
  layer_wf g LGround ->
  let sx := Z.max 0 (Z.min x1 x2) in
  let sy := Z.max 0 (Z.min y1 y2) in
  let ex := Z.min (width g - 1) (Z.max x1 x2) in
  let ey := Z.min (height g - 1) (Z.max y1 y2) in
  match getSprite g a with
  | None => (fillGround x1 y1 x2 y2 a overwrite g).2 = g
  | Some s =>
      if bool_decide (category s = CatGround) then
        exists filled skipped,
          (fillGround x1 y1 x2 y2 a overwrite g).1 = FGDone filled skipped sx sy ex ey
          /\ Z.of_nat (filled + skipped) = Z.max 0 (ex - sx + 1) * Z.max 0 (ey - sy + 1)
          /\ layer_wf (fillGround x1 y1 x2 y2 a overwrite g).2 LGround
          /\ forall x y l, getTile (fillGround x1 y1 x2 y2 a overwrite g).2 x y l =
               if bool_decide (l = LGround /\ sx <= x <= ex /\ sy <= y <= ey)
                  && (overwrite || isNone (getTile g x y LGround))
               then Some (mkMapCell a LGround) else getTile g x y l
      else fillGround x1 y1 x2 y2 a overwrite g = (FGNotGround (category s), g)
  end.
Proof.
  intros Hwf sx sy ex ey. unfold fillGround.
  destruct (getSprite g a) as [s|] eqn:Hs; [|reflexivity].
  case_bool_decide as Hc; [|reflexivity]. cbn [negb].
  fold sx sy ex ey.
  assert (Hob : forall p, In p (fill_positions sx sy ex ey) -> out_of_bounds g p.1 p.2 = false).
  { intros [x y] Hp. apply out_of_bounds_false.
    apply list_elem_of_In, fill_positions_In in Hp. cbn [fst snd]. lia. }
  assert (Hnd : List.NoDup (fill_positions sx sy ex ey)).
  { apply rect_NoDup; apply NoDup_ListNoDup, NoDup_seqZ. }
  destruct (fill_loop a overwrite (fill_positions sx sy ex ey) g 0 0 Hwf
              ltac:(rewrite Hs; discriminate) Hob Hnd) as (W & _ & _ & _ & Ec & Et).
  destruct (fold_left _ _ _) as [[g' filled] skipped]. cbn [fst snd] in *.
  exists filled, skipped. split; [reflexivity|].
  split.
  { rewrite Ec. unfold fill_positions. rewrite rect_length, !length_seqZ.
    rewrite !Nat.add_0_l, Nat2Z.inj_mul, !Z_of_nat_to_nat. reflexivity. }
  split; [exact W|].
  intros x y l. rewrite Et.
  replace (bool_decide (l = LGround /\ (x, y) ∈ fill_positions sx sy ex ey))
    with (bool_decide (l = LGround /\ sx <= x <= ex /\ sy <= y <= ey)); [reflexivity|].
  apply bool_decide_ext. rewrite fill_positions_In. reflexivity.
Qed.

Lemma fillGround_effect_witness :
  layer_wf horizontal_grid LGround
  /\ exists filled skipped,
       (fillGround 3 3 1 1 "sprite_8"%string false horizontal_grid).1 = FGDone filled skipped 1 1 3 3
       /\ Z.of_nat (filled + skipped) = Z.max 0 (3 - 1 + 1) * Z.max 0 (3 - 1 + 1)
       /\ layer_wf (fillGround 3 3 1 1 "sprite_8"%string false horizontal_grid).2 LGround
       /\ forall x y l, getTile (fillGround 3 3 1 1 "sprite_8"%string false horizontal_grid).2 x y l =
            if bool_decide (l = LGround /\ 1 <= x <= 3 /\ 1 <= y <= 3)
               && (false || isNone (getTile horizontal_grid x y LGround))
            then Some (mkMapCell "sprite_8"%string LGround) else getTile horizontal_grid x y l.
Proof.
  assert (Hwf : layer_wf horizontal_grid LGround) by (vm_compute; split; [reflexivity|repeat constructor]).
  split; [exact Hwf|].
  exact (fillGround_effect 3 3 1 1 "sprite_8"%string false horizontal_grid Hwf).
Defined.

(* ---- *)
Lemma fold_left_ext_step {A B} (f f' : A -> B -> A) (l : list B) (a : A) :
  (forall b c, f b c = f' b c) -> fold_left f l a = fold_left f' l a.
Proof. intros H. revert a. induction l as [|c l IH]; intros a; simpl; [reflexivity|]. rewrite H. apply IH. Qed.

(** A left fold keeping the first element of least [D]-value. *)
Lemma argmin_fold {C} (D : C -> Z) (f : option (C * Z) -> C -> option (C * Z)) :
  (forall b c, f b c = match b with
                       | Some (_, bd) => if D c <? bd then Some (c, D c) else b
                       | None => Some (c, D c)
                       end) ->
  forall cs, match fold_left f cs None with
             | None => cs = []
             | Some (c, d) =>
                 d = D c
                 /\ (exists pre post, cs = pre ++ c :: post /\ forall c', In c' pre -> d < D c')
                 /\ (forall c', In c' cs -> d <= D c')
             end.
Proof.
  intros Hf cs. induction cs as [|c cs IH] using rev_ind; [reflexivity|].
  rewrite fold_left_app. cbn [fold_left]. rewrite Hf.
  destruct (fold_left f cs None) as [[b bd]|].
  - destruct IH as (-> & (pre & post & -> & Hpre) & Hmin).
    destruct (D c <? D b) eqn:Hlt.
    + apply Z.ltb_lt in Hlt. split; [reflexivity|]. split.
      * exists (pre ++ b :: post), []. split; [reflexivity|].
        intros c' Hc'. specialize (Hmin c' Hc'). lia.
      * intros c' Hc'. apply in_app_iff in Hc' as [Hc'|[<-|[]]]; [|lia].
        specialize (Hmin c' Hc'). lia.
    + apply Z.ltb_ge in Hlt. split; [reflexivity|]. split.
      * exists pre, (post ++ [c]). split; [rewrite <- app_assoc; reflexivity|exact Hpre].
      * intros c' Hc'. apply in_app_iff in Hc' as [Hc'|[<-|[]]]; [|lia]. exact (Hmin c' Hc').
  - subst cs. split; [reflexivity|]. split.
    + exists [], []. split; [reflexivity|]. intros c' [].
    + intros c' [<-|[]]. lia.
Qed.

(** X16: findNearestRoadTile returns nothing only for an empty tile list.
    Otherwise it returns a tile of the list with its Manhattan distance
    to (x, y), that distance is minimal, and the tile is the first one
    in the list reaching it. *)
Theorem findNearestRoadTile_min (rt : list (Z * Z)) x y :
  match findNearestRoadTile rt x y with
  | None => rt = []
  | Some (rx, ry, d) =>
      d = Z.abs (rx - x) + Z.abs (ry - y)
      /\ (exists pre post, rt = pre ++ (rx, ry) :: post
                           /\ forall p, In p pre -> d < Z.abs (p.1 - x) + Z.abs (p.2 - y))
      /\ (forall p, In p rt -> d <= Z.abs (p.1 - x) + Z.abs (p.2 - y))
  end.
Proof.
  unfold findNearestRoadTile.
  match goal with |- context [fold_left ?F rt None] =>
    pose proof (argmin_fold (fun p : Z * Z => Z.abs (p.1 - x) + Z.abs (p.2 - y)) F) as H end.
  specialize (H ltac:(intros [[[? ?] ?]|] [? ?]; reflexivity) rt).
  destruct (fold_left _ rt None) as [[[rx ry] d]|]; [|exact H].
  cbn [fst snd] in H. exact H.
Qed.

Lemma fold_left_map_step {A B C} (F : A -> C -> A) (h : B -> C) (l : list B) (a : A) :
  fold_left F (map h l) a = fold_left (fun b x => F b (h x)) l a.
Proof. revert a. induction l as [|x l IH]; intros a; simpl; [reflexivity|apply IH]. Qed.

Lemma fold_nested {A B C} (F : A -> B * C -> A) (i1 : list B) (i2 : list C) acc :
  fold_left (fun b t1 => fold_left (fun b t2 => F b (t1, t2)) i2 b) i1 acc
  = fold_left F (flat_map (fun t1 => map (fun t2 => (t1, t2)) i2) i1) acc.
Proof.
  revert acc. induction i1 as [|t1 i1 IH]; intros acc; simpl; [reflexivity|].
  rewrite fold_left_app, fold_left_map_step. apply IH.
Qed.

Lemma pairs_In {B C} (i1 : list B) (i2 : list C) a b :
  In (a, b) (flat_map (fun t1 => map (fun t2 => (t1, t2)) i2) i1) <-> In a i1 /\ In b i2.
Proof.
  rewrite in_flat_map. split.
  - intros (t1 & H1 & H). apply in_map_iff in H as (t2 & [= -> ->] & H2). auto.
  - intros [H1 H2]. exists a. split; [exact H1|]. apply in_map_iff. eauto.
Qed.

(** X17: For two non-empty islands, findNearestTilesBetweenIslands
    returns a tile of each island and their Manhattan distance, and that
    distance is the minimum over all pairs of tiles. *)
Theorem findNearestTilesBetweenIslands_min (i1 i2 : list (Z * Z)) :
  i1 <> [] -> i2 <> [] ->
  let '(t1, t2, d) := findNearestTilesBetweenIslands i1 i2 in
  In t1 i1 /\ In t2 i2 /\ d = Z.abs (t1.1 - t2.1) + Z.abs (t1.2 - t2.2)
  /\ forall a b, In a i1 -> In b i2 -> d <= Z.abs (a.1 - b.1) + Z.abs (a.2 - b.2).
Proof.
  intros Hn1 Hn2.
  set (D := fun p : (Z * Z) * (Z * Z) => Z.abs (p.1.1 - p.2.1) + Z.abs (p.1.2 - p.2.2)).
  set (F := fun (b : option ((Z * Z) * (Z * Z) * Z)) (p : (Z * Z) * (Z * Z)) =>
              match b with
              | Some (_, bd) => if D p <? bd then Some (p, D p) else b
              | None => Some (p, D p)
              end).
  set (P := flat_map (fun t1 => map (fun t2 => (t1, t2)) i2) i1).
  assert (E : findNearestTilesBetweenIslands i1 i2 =
              match fold_left F P None with
              | Some r => r
              | None => (default (0, 0) (head i1), default (0, 0) (head i2), 0)
              end).
  { unfold findNearestTilesBetweenIslands.
    rewrite (fold_left_ext_step _ (fun b t1 => fold_left (fun b t2 => F b (t1, t2)) i2 b)).
    - rewrite fold_nested. reflexivity.
    - intros b t1. apply fold_left_ext_step. intros [[[? ?] ?]|] t2; reflexivity. }
  pose proof (argmin_fold D F ltac:(intros; reflexivity) P) as H.
  rewrite E. destruct (fold_left F P None) as [[[t1 t2] d]|].
  - destruct H as (Hd & (pre & post & HP & _) & Hmin).
    assert (Hin : In (t1, t2) P) by (rewrite HP; apply in_or_app; right; left; reflexivity).
    apply pairs_In in Hin as [H1 H2].
    split; [exact H1|]. split; [exact H2|]. split; [exact Hd|].
    intros a b Ha Hb. apply (Hmin (a, b)), pairs_In. auto.
  - exfalso.
    destruct i1 as [|a i1']; [congruence|]. destruct i2 as [|b i2']; [congruence|].
    assert (Hin : In (a, b) P) by (apply pairs_In; split; left; reflexivity).
    rewrite H in Hin. destruct Hin.
Qed.

Lemma findNearestTilesBetweenIslands_min_witness :
  [(0, 0); (1, 0)] <> [] /\ [(4, 2); (3, 2)] <> [] /\
  let '(t1, t2, d) := findNearestTilesBetweenIslands [(0, 0); (1, 0)] [(4, 2); (3, 2)] in
  In t1 [(0, 0); (1, 0)] /\ In t2 [(4, 2); (3, 2)] /\ d = Z.abs (t1.1 - t2.1) + Z.abs (t1.2 - t2.2)
  /\ forall a b, In a [(0, 0); (1, 0)] -> In b [(4, 2); (3, 2)] -> d <= Z.abs (a.1 - b.1) + Z.abs (a.2 - b.2).
Proof.
  assert (H1 : [(0, 0); (1, 0)] <> []) by discriminate.
  assert (H2 : [(4, 2); (3, 2)] <> []) by discriminate.
  split; [exact H1|]. split; [exact H2|].
  exact (findNearestTilesBetweenIslands_min _ _ H1 H2).
Defined.

Lemma getDirectionBetween_Some fx fy tx ty d :
  getDirectionBetween fx fy tx ty = Some d <-> DIRECTION_OFFSETS d = (tx - fx, ty - fy).
Proof.
  unfold getDirectionBetween. cbv zeta. split.
  - repeat match goal with
           | |- (if ?c then _ else _) = _ -> _ =>
               let E := fresh "Ec" in
               destruct c eqn:E;
               [apply andb_true_iff in E as [Ha Hb]; apply Z.eqb_eq in Ha, Hb;
                intros [= <-]; cbn; f_equal; lia|]
           end.
    intros H; discriminate H.
  - destruct d; cbn; intros [= Hx Hy]; rewrite <- Hx, <- Hy; reflexivity.
Qed.

Lemma adjacent4_offset p q :
  adjacent4 p q <-> exists d, DIRECTION_OFFSETS d = (q.1 - p.1, q.2 - p.2).
Proof.
  unfold adjacent4. split.
  - intros H.
    destruct (Z.eq_dec (q.1 - p.1) 1); [exists east; cbn; f_equal; lia|].
    destruct (Z.eq_dec (q.1 - p.1) (-1)); [exists west; cbn; f_equal; lia|].
    destruct (Z.eq_dec (q.2 - p.2) 1); [exists south; cbn; f_equal; lia|].
    exists north; cbn; f_equal; lia.
  - intros [d Hd]. destruct d; cbn in Hd; injection Hd as Hx Hy; lia.
Qed.

(** X18: getDirectionBetween returns direction d exactly when the target is
    the source moved by d's offset, and returns nothing exactly when the
    two tiles are not 4-adjacent. Swapping the tiles gives the opposite
    direction. *)
Theorem getDirectionBetween_offsets fx fy tx ty :
  (forall d, getDirectionBetween fx fy tx ty = Some d <-> DIRECTION_OFFSETS d = (tx - fx, ty - fy))
  /\ (getDirectionBetween fx fy tx ty = None <-> ~ adjacent4 (fx, fy) (tx, ty))
  /\ getDirectionBetween tx ty fx fy = option_map OPPOSITE_DIRECTION (getDirectionBetween fx fy tx ty).
Proof.
  split; [intros d; apply getDirectionBetween_Some|]. split.
  - rewrite adjacent4_offset. cbn [fst snd]. split.
    + intros H [d Hd]. apply getDirectionBetween_Some in Hd. congruence.
    + intros H. destruct (getDirectionBetween fx fy tx ty) as [d|] eqn:E; [|reflexivity].
      exfalso. apply H. exists d. apply getDirectionBetween_Some, E.
  - destruct (getDirectionBetween fx fy tx ty) as [d|] eqn:E; cbn [option_map].
    + apply getDirectionBetween_Some. apply getDirectionBetween_Some in E.
      destruct d; cbn in E |- *; injection E as Hx Hy; f_equal; lia.
    + destruct (getDirectionBetween tx ty fx fy) as [d|] eqn:E'; [|reflexivity].
      exfalso. apply getDirectionBetween_Some in E'.
      assert (Hb : getDirectionBetween fx fy tx ty = Some (OPPOSITE_DIRECTION d)).
      { apply getDirectionBetween_Some. destruct d; cbn in E' |- *; injection E' as Hx Hy; f_equal; lia. }
      congruence.
Qed.

Lemma islands_partition (g : GridState) :
  (forall p, In p (getRoadNetwork g) <-> In p (concat (map tiles (getRoadIslands g))))
  /\ List.NoDup (concat (map tiles (getRoadIslands g)))
  /\ Forall (fun i => tiles i <> [] /\ island_connected (tiles i)
                      /\ (forall p n, In p (tiles i) -> adjacent4 p n -> In n (getRoadNetwork g) ->
                                     In n (tiles i)))
            (getRoadIslands g).
Proof.
  set (R := getRoadNetwork g).
  assert (H0 : islands_inv R [] []).
  { constructor; cbn; [reflexivity|constructor|intros x []|intros p n []|constructor]. }
  destruct (islands_loop_inv R R [] [] H0 (fun x H => H)) as [Hi Hcov].
  unfold getRoadIslands. fold R.
  destruct Hi as [_ Hnd HsubR _ His].
  split; [intros p; split; [intros H; apply Hcov; left; exact H|apply HsubR]|].
  split; [exact Hnd|exact His].
Qed.

Lemma rt_closed (R I : list (Z * Z)) :
  (forall p n, In p I -> adjacent4 p n -> In n R -> In n I) ->
  forall u v, clos_refl_trans (Z * Z) (step_in R) u v -> In u I -> In v I.
Proof.
  intros Hcl u v. induction 1 as [u v (_ & Hv & Ha)| |]; auto.
  intros Hu. exact (Hcl u v Hu Ha Hv).
Qed.

Lemma connected_iff (g : GridState) :
  connected (validateRoadConnectivity g) = true <-> island_connected (getRoadNetwork g).
Proof.
  destruct (islands_partition g) as (Hset & Hnd & His).
  unfold validateRoadConnectivity. cbn [connected].
  destruct (getRoadIslands g) as [|I [|J rest]] eqn:E; cbn [length Nat.leb].
  - split; [|reflexivity]. intros _ p q Hp. apply Hset in Hp. destruct Hp.
  - split; [|reflexivity]. intros _ p q Hp Hq.
    apply Forall_inv in His as (_ & Hc & _).
    apply Hset in Hp, Hq. cbn in Hp, Hq. rewrite app_nil_r in Hp, Hq.
    apply (step_in_rt_mono (tiles I)); [|exact (Hc p q Hp Hq)].
    intros x Hx. apply Hset. cbn. rewrite app_nil_r. exact Hx.
  - split; [discriminate|]. intros Hconn. exfalso.
    apply Forall_cons in His as [(HI & _ & HclI) His]. apply Forall_inv in His as (HJ & _ & _).
    destruct (tiles I) as [|p ps] eqn:EI; [congruence|].
    destruct (tiles J) as [|q qs] eqn:EJ; [congruence|].
    assert (Hp : In p (getRoadNetwork g)) by (apply Hset; cbn; rewrite EI; left; reflexivity).
    assert (Hq : In q (getRoadNetwork g)) by (apply Hset; cbn; rewrite EI, EJ; right;
                                              apply in_or_app; right; apply in_or_app; left; left; reflexivity).
    assert (HqI : In q (p :: ps)) by exact (rt_closed _ _ HclI p q (Hconn p q Hp Hq) (or_introl eq_refl)).
    cbn in Hnd. rewrite EI, EJ in Hnd.
    apply NoDup_ListNoDup, NoDup_app in Hnd as (_ & Hdis & _).
    apply (Hdis q); apply list_elem_of_In; [exact HqI|]. apply in_or_app. left. left. reflexivity.
Qed.

(** X19: validateRoadConnectivity reports connected exactly when the road
    network forms at most one island. In that case connectRoads returns
    the already-connected result and leaves the grid unchanged;
    otherwise it never returns that result. *)
Theorem connectRoads_connected (g : GridState) :
  (connected (validateRoadConnectivity g) = true <-> island_connected (getRoadNetwork g))
  /\ (island_connected (getRoadNetwork g) ->
        connectRoads g = (inr (AlreadyConnected (totalRoadTiles (validateRoadConnectivity g))
                                               (islandCount (validateRoadConnectivity g))), g))
  /\ (~ island_connected (getRoadNetwork g) ->
        forall n k, (connectRoads g).1 <> inr (AlreadyConnected n k)).
Proof.
  pose proof (connected_iff g) as Hiff.
  split; [exact Hiff|].
  cbv [connectRoads mbind GM_bind gget].
  destruct (connected (validateRoadConnectivity g)) eqn:Ec.
  - split; [intros _; reflexivity|]. intros Hn. exfalso. apply Hn, Hiff. reflexivity.
  - split; [intros Hc; apply Hiff in Hc; discriminate|].
    intros _ n k. destruct (connect_pairs _ _ _ g) as [[e|[acc conns]] g'];
      cbn; congruence.
Qed.

(* ---- *)
Lemma imap_geometry (F F' : nat -> SpriteSlot -> Sprite) (slots : list SpriteSlot) :
  (forall i sl, col (F i sl) = col (F' i sl) /\ row (F i sl) = row (F' i sl)
                /\ w (F i sl) = w (F' i sl) /\ h (F i sl) = h (F' i sl)) ->
  map (fun s => (col s, row s, w s, h s)) (imap F slots)
  = map (fun s => (col s, row s, w s, h s)) (imap F' slots).
Proof.
  revert F F'. induction slots as [|sl slots IH]; intros F F' H; [reflexivity|].
  cbn [imap map]. destruct (H 0%nat sl) as (E1 & E2 & E3 & E4).
  rewrite E1, E2, E3, E4. f_equal. apply IH. intros i sl'. apply H.
Qed.

Lemma layoutCatalog_geometry_indep sems :
  map (fun s => (col s, row s, w s, h s)) (layoutCatalog sems)
  = map (fun s => (col s, row s, w s, h s)) (layoutCatalog []).
Proof. apply imap_geometry. intros i sl. repeat split. Qed.

Lemma sprite_cells_geometry (l : list Sprite) :
  flat_map sprite_cells l
  = flat_map (fun '(c, r, sw, sh) =>
                flat_map (fun dy => map (fun dx => (c + dx, r + dy)) (seqZ 0 sw)) (seqZ 0 sh))
             (map (fun s => (col s, row s, w s, h s)) l).
Proof. induction l as [|s l IH]; [reflexivity|]. cbn [flat_map map]. rewrite IH. reflexivity. Qed.

(** X20: Whatever the semantics chosen, the layout catalog has 52 sprites on
    an 8-column sheet. Each sprite lies within the 8 x 8 cells with
    width and height between 1 and 4, and no two sprites share a sheet
    cell. *)
Theorem layoutCatalog_sheet sems :
  length (layoutCatalog sems) = 52%nat
  /\ derived_columns GRID_CONFIG = Some 8
  /\ Forall (fun s => 0 <= col s <= 7 /\ 0 <= row s <= 7 /\ 1 <= w s <= 4 /\ 1 <= h s <= 4)
            (layoutCatalog sems)
  /\ (forall c, In c (flat_map sprite_cells (layoutCatalog sems)) -> 0 <= c.1 < 8 /\ 0 <= c.2 < 8)
  /\ List.NoDup (flat_map sprite_cells (layoutCatalog sems)).
Proof.
  pose proof (layoutCatalog_geometry_indep sems) as Hg.
  split; [unfold layoutCatalog, mergeSemantics; rewrite length_imap; reflexivity|].
  split; [reflexivity|].
  split.
  { apply List.Forall_forall. intros s Hs.
    assert (Hin : In (col s, row s, w s, h s) (map (fun s => (col s, row s, w s, h s)) (layoutCatalog [])))
      by (rewrite <- Hg; apply (in_map (fun s => (col s, row s, w s, h s))), Hs).
    assert (Hall : forallb (fun q => let '(c, r, sw, sh) := q in
                                     bool_decide (0 <= c <= 7 /\ 0 <= r <= 7 /\ 1 <= sw <= 4 /\ 1 <= sh <= 4))
                           (map (fun s => (col s, row s, w s, h s)) (layoutCatalog [])) = true)
      by (vm_compute; reflexivity).
    rewrite forallb_forall in Hall. specialize (Hall _ Hin). cbn in Hall.
    apply bool_decide_eq_true in Hall. exact Hall. }
  rewrite sprite_cells_geometry, Hg.
  split.
  - assert (Hall : forallb (fun c : Z * Z => bool_decide (0 <= c.1 < 8 /\ 0 <= c.2 < 8))
                     (flat_map (fun '(c, r, sw, sh) =>
                                  flat_map (fun dy => map (fun dx => (c + dx, r + dy)) (seqZ 0 sw)) (seqZ 0 sh))
                               (map (fun s => (col s, row s, w s, h s)) (layoutCatalog []))) = true)
      by (vm_compute; reflexivity).
    rewrite forallb_forall in Hall. intros c Hc. apply (bool_decide_eq_true_1 _), Hall, Hc.
  - apply NoDup_ListNoDup. apply (bool_decide_eq_true_1 _). vm_compute. reflexivity.
Qed.

(* ---- *)
Section Render.
Variable cache : list string.
Variable sts : Z.

Let render_cell (y : Z) (p : Z * option MapCell) : option (string * Z * Z) :=
  let '(x, c) := p in
  match cell_asset c with
  | Some a => if bool_decide (a ∈ cache) then Some (a, x * sts, y * sts) else None
  | None => None
  end.

Lemma processLayer_row y (L : list (Z * option MapCell)) cs0 n0 :
  fold_left (fun '(cs, n) '(x, c) =>
        match cell_asset c with
        | Some a =>
            if bool_decide (a ∈ cache) then (cs ++ [(a, x * sts, y * sts)], S n) else (cs, n)
        | None => (cs, n)
        end) L (cs0, n0)
  = (cs0 ++ omap (render_cell y) L, (n0 + length (omap (render_cell y) L))%nat).
Proof.
  revert cs0 n0. induction L as [|[x c] L IH]; intros cs0 n0; cbn [fold_left].
  { rewrite app_nil_r. f_equal. simpl. lia. }
  change (omap (render_cell y) ((x, c) :: L)) with
    (match render_cell y (x, c) with
     | Some b => b :: omap (render_cell y) L
     | None => omap (render_cell y) L
     end).
  assert (Hr : render_cell y (x, c) =
                 match cell_asset c with
                 | Some a => if bool_decide (a ∈ cache) then Some (a, x * sts, y * sts) else None
                 | None => None
                 end) by reflexivity.
  rewrite Hr. destruct (cell_asset c) as [a|]; [case_bool_decide|]; rewrite IH;
    [cbn [length]; rewrite <- app_assoc; f_equal; lia|reflexivity|reflexivity].
Qed.

Lemma processLayer_eq T :
  processLayer T cache sts
  = (flat_map (fun '(y, row) => omap (render_cell y) (indexed row)) (indexed T),
     length (flat_map (fun '(y, row) => omap (render_cell y) (indexed row)) (indexed T))).
Proof.
  unfold processLayer.
  match goal with |- fold_left ?F _ _ = _ =>
    assert (H : forall L cs0 n0, fold_left F L (cs0, n0)
               = (cs0 ++ flat_map (fun '(y, row) => omap (render_cell y) (indexed row)) L,
                  (n0 + length (flat_map (fun '(y, row) => omap (render_cell y) (indexed row)) L))%nat))
  end.
  { induction L as [|[y row] L IH]; intros cs0 n0; cbn [fold_left flat_map].
    - rewrite app_nil_r. f_equal. simpl. lia.
    - rewrite processLayer_row, IH, length_app, <- app_assoc. f_equal. lia. }
  rewrite H. reflexivity.
Qed.

Lemma combine_seqZ_In {A} (l : list A) s k v :
  In (k, v) (combine (seqZ s (Z.of_nat (length l))) l) ->
  s <= k < s + Z.of_nat (length l) /\ l !! Z.to_nat (k - s) = Some v.
Proof.
  revert s. induction l as [|a l IH]; intros s Hin; [destruct (seqZ s _); destruct Hin|].
  cbn [length] in *. rewrite seqZ_cons in Hin by lia.
  replace (Z.pred (Z.of_nat (S (length l)))) with (Z.of_nat (length l)) in Hin by lia.
  destruct Hin as [E|Hin].
  - injection E as <- <-. split; [lia|]. rewrite Z.sub_diag. reflexivity.
  - destruct (IH _ Hin) as [Hb Hl]. split; [lia|].
    replace (Z.to_nat (k - s)) with (S (Z.to_nat (k - Z.succ s))) by lia. exact Hl.
Qed.

Lemma indexed_In {A} (l : list A) k v :
  In (k, v) (indexed l) -> 0 <= k < Z.of_nat (length l) /\ l !! Z.to_nat k = Some v.
Proof. intros H. apply combine_seqZ_In in H. rewrite Z.sub_0_r in H. destruct H. split; [lia|assumption]. Qed.

Lemma map_snd_indexed {A} (l : list A) : map snd (indexed l) = l.
Proof.
  unfold indexed. generalize 0 as s. induction l as [|a l IH]; intros s; [reflexivity|].
  cbn [length]. rewrite seqZ_cons by lia.
  replace (Z.pred (Z.of_nat (S (length l)))) with (Z.of_nat (length l)) by lia.
  cbn. f_equal. apply IH.
Qed.

Lemma length_omap_filter {A B} (F : A -> option B) (L : list A) :
  length (omap F L) = length (List.filter (fun p => isSome (F p)) L).
Proof.
  induction L as [|a L IH]; [reflexivity|].
  change (omap F (a :: L)) with (match F a with Some b => b :: omap F L | None => omap F L end).
  cbn [List.filter]. destruct (F a); cbn; [f_equal|]; exact IH.
Qed.

Lemma filter_snd {A B} (f : B -> bool) (L : list (A * B)) :
  length (List.filter (fun p => f p.2) L) = length (List.filter f (map snd L)).
Proof. induction L as [|[a b] L IH]; [reflexivity|]. cbn. destruct (f b); cbn; [f_equal|]; exact IH. Qed.

Lemma render_cell_count y (row : list (option MapCell)) :
  (forall c, In c row ->
     match cell_asset c with Some a => bool_decide (a ∈ cache) | None => false end = isSome c) ->
  length (omap (render_cell y) (indexed row)) = length (List.filter isSome row).
Proof.
  intros Hc. rewrite length_omap_filter.
  rewrite (filter_ext_in _ (fun p : Z * option MapCell => isSome p.2)).
  - rewrite filter_snd, map_snd_indexed. reflexivity.
  - intros [x c] Hin. apply in_combine_r in Hin. cbn [snd]. rewrite <- (Hc c Hin).
    cbn [snd render_cell]. destruct (cell_asset c); [case_bool_decide|]; reflexivity.
Qed.

Lemma processLayer_count T :
  (forall row, In row T -> forall c, In c row ->
     match cell_asset c with Some a => bool_decide (a ∈ cache) | None => false end = isSome c) ->
  (processLayer T cache sts).2 = length (List.filter isSome (concat T)).
Proof.
  intros Hc. rewrite processLayer_eq. cbn [snd].
  rewrite <- (map_snd_indexed T) at 2.
  assert (HL : forall yr, In yr (indexed T) -> In yr.2 T).
  { intros [y row] H. apply in_combine_r in H. exact H. }
  revert HL. generalize (indexed T) as L. intros L HL.
  induction L as [|[y row] L IH]; [reflexivity|].
  cbn [flat_map map concat]. rewrite List.filter_app, !length_app.
  rewrite render_cell_count by (apply Hc, (HL (y, row)); left; reflexivity).
  f_equal. apply IH. intros yr H. apply HL. right. exact H.
Qed.

Lemma processLayer_In T a l t :
  In (a, l, t) (processLayer T cache sts).1 ->
  exists x y row c, T !! Z.to_nat y = Some row /\ row !! Z.to_nat x = Some c /\
    0 <= y < Z.of_nat (length T) /\ 0 <= x < Z.of_nat (length row) /\
    cell_asset c = Some a /\ a ∈ cache /\ l = x * sts /\ t = y * sts.
Proof.
  rewrite processLayer_eq. cbn [fst]. intros H.
  apply in_flat_map in H as [[y row] [Hy H]].
  apply indexed_In in Hy as [Hyb Hyl].
  apply list_elem_of_In, list_elem_of_omap in H as [[x c] [Hx Hr]].
  apply list_elem_of_In, indexed_In in Hx as [Hxb Hxl].
  cbn [render_cell] in Hr. destruct (cell_asset c) as [a'|] eqn:Ec; [|discriminate].
  case_bool_decide as Hin; [|discriminate]. injection Hr as <- <- <-.
  exists x, y, row, c. repeat split; first [assumption | reflexivity | lia].
Qed.
End Render.

Lemma map_getTile_row (g : GridState) l y (r : list (option MapCell)) :
  0 <= y < height g -> layer_of g l !! Z.to_nat y = Some r -> length r = Z.to_nat (width g) ->
  map (fun x => getTile g x y l) (seqZ 0 (width g)) = r.
Proof.
  intros Hy Hr Hlen. apply list_eq. intros j.
  rewrite map_lookup. destruct (decide (j < Z.to_nat (width g))%nat) as [Hj|Hj].
  - rewrite lookup_seqZ_lt by lia. cbn [option_map].
    unfold getTile. replace (out_of_bounds g (0 + Z.of_nat j) y) with false
      by (symmetry; apply out_of_bounds_false; lia).
    rewrite Hr. replace (Z.to_nat (0 + Z.of_nat j)) with j by lia.
    destruct (r !! j) as [c|] eqn:E; [reflexivity|].
    apply lookup_ge_None in E. lia.
  - rewrite lookup_seqZ_ge by lia. symmetry. apply lookup_ge_None. lia.
Qed.

Lemma grid_cells_layer (g : GridState) l :
  layer_wf g l ->
  map (fun p => getTile g p.1 p.2 l) (grid_cells g) = concat (layer_of g l).
Proof.
  intros [Hh Hw]. unfold grid_cells. rewrite flat_map_concat_map, concat_map, map_map.
  f_equal. apply list_eq. intros i. rewrite map_lookup.
  destruct (decide (i < Z.to_nat (height g))%nat) as [Hi|Hi].
  - rewrite lookup_seqZ_lt by lia. cbn [option_map].
    destruct (layer_of g l !! i) as [r|] eqn:Er.
    + rewrite map_map. cbn [fst snd]. f_equal.
      apply map_getTile_row; [lia| |].
      * replace (Z.to_nat (0 + Z.of_nat i)) with i by lia. exact Er.
      * rewrite List.Forall_forall in Hw. apply Hw. eapply list_elem_of_lookup_2 in Er.
        apply list_elem_of_In. exact Er.
    + apply lookup_ge_None in Er. lia.
  - rewrite lookup_seqZ_ge by lia. symmetry. apply lookup_ge_None. lia.
Qed.

Lemma filter_map_length {A B} (f : B -> bool) (h : A -> B) (L : list A) :
  length (List.filter (fun p => f (h p)) L) = length (List.filter f (map h L)).
Proof. induction L as [|a L IH]; [reflexivity|]. cbn. destruct (f (h a)); cbn; [f_equal|]; exact IH. Qed.

Lemma layer_filled_concat (g : GridState) l :
  layer_wf g l -> layer_filled (getStats g) l = length (List.filter isSome (concat (layer_of g l))).
Proof.
  intros Hwf. rewrite <- grid_cells_layer by exact Hwf. rewrite <- filter_map_length.
  destruct (getStats_filter g) as [Hg Ho]. destruct l; assumption.
Qed.

Lemma str_set_add_In a b s : In b s -> In b (str_set_add a s).
Proof. unfold str_set_add. intros Hb. case_bool_decide; [exact Hb|]. apply in_or_app. left. exact Hb. Qed.

Lemma str_set_add_self a s : In a (str_set_add a s).
Proof.
  unfold str_set_add. case_bool_decide as H; [apply list_elem_of_In; exact H|].
  apply in_or_app. right. left. reflexivity.
Qed.

Lemma collect_row_keep row b s :
  In b s ->
  In b (fold_left (fun s c => match cell_asset c with Some a => str_set_add a s | None => s end) row s).
Proof.
  revert s. induction row as [|c row IH]; intros s H; [exact H|]. cbn [fold_left]. apply IH.
  destruct (cell_asset c); [apply str_set_add_In|]; exact H.
Qed.

Lemma collect_assets_keep T b s : In b s -> In b (collect_assets T s).
Proof.
  unfold collect_assets. revert s. induction T as [|row T IH]; intros s H; [exact H|].
  cbn [fold_left]. apply IH, collect_row_keep, H.
Qed.

Lemma collect_assets_cells T s row c a :
  In row T -> In c row -> cell_asset c = Some a -> In a (collect_assets T s).
Proof.
  unfold collect_assets. revert s. induction T as [|row' T IH]; intros s Hr Hc Ha; [destruct Hr|].
  cbn [fold_left]. destruct Hr as [->|Hr]; [|apply IH; assumption].
  apply collect_assets_keep. clear IH. revert s.
  induction row as [|c' row IHr]; intros s; [destruct Hc|]. cbn [fold_left].
  destruct Hc as [<-|Hc].
  - apply collect_row_keep. rewrite Ha. apply str_set_add_self.
  - apply IHr, Hc.
Qed.

Lemma cache_complete (g : GridState) l row c :
  cells_known g -> In row (layer_of g l) -> In c row ->
  match cell_asset c with
  | Some a => bool_decide (a ∈ buildSpriteCache_keys (sprites g) (toJSON g))
  | None => false
  end = isSome c.
Proof.
  intros Hk Hr Hc. specialize (Hk l). rewrite List.Forall_forall in Hk.
  specialize (Hk row Hr). rewrite List.Forall_forall in Hk. specialize (Hk c Hc).
  destruct c as [m|]; [|reflexivity]. destruct Hk as [Hne Hs].
  unfold cell_asset. rewrite bool_decide_eq_false_2 by exact Hne.
  apply bool_decide_eq_true_2. apply list_elem_of_In. unfold buildSpriteCache_keys.
  apply filter_In. split.
  - destruct l; cbn [toJSON map_ground map_objects].
    + apply collect_assets_keep. eapply collect_assets_cells; [exact Hr|exact Hc|].
      unfold cell_asset. rewrite bool_decide_eq_false_2 by exact Hne. reflexivity.
    + eapply collect_assets_cells; [exact Hr|exact Hc|].
      unfold cell_asset. rewrite bool_decide_eq_false_2 by exact Hne. reflexivity.
  - unfold getSprite in Hs. destruct (List.find _ _); [reflexivity|congruence].
Qed.

Lemma processLayer_length T cache sts :
  length (processLayer T cache sts).1 = (processLayer T cache sts).2.
Proof. rewrite processLayer_eq. reflexivity. Qed.

Lemma processLayer_cells (g : GridState) l cache sts a left top :
  layer_wf g l ->
  In (a, left, top) (processLayer (layer_of g l) cache sts).1 ->
  exists x y m, 0 <= x < width g /\ 0 <= y < height g /\ getTile g x y l = Some m
    /\ assetId m = a /\ left = x * sts /\ top = y * sts.
Proof.
  intros [Hh Hw] Hin. apply processLayer_In in Hin
    as (x & y & r & c & Hr & Hc & Hyb & Hxb & Ha & _ & -> & ->).
  assert (Hlr : length r = Z.to_nat (width g)).
  { rewrite List.Forall_forall in Hw. apply Hw, list_elem_of_In.
    eapply list_elem_of_lookup_2. exact Hr. }
  destruct c as [m|]; [|discriminate]. unfold cell_asset in Ha.
  case_bool_decide; [discriminate|]. injection Ha as <-.
  exists x, y, m. repeat split; try lia.
  unfold getTile. replace (out_of_bounds g x y) with false by (symmetry; apply out_of_bounds_false; lia).
  rewrite Hr, Hc. reflexivity.
Qed.

(** X21: For a well-shaped grid whose cells all name catalog sprites,
    renderMap with the default layers renders every filled cell: the
    ground and object tile counts equal the getStats counts. The
    composites are the ground ones followed by the object ones, each
    drawn at its cell times the rounded scaled tile size. *)
Theorem renderMap_layers (g : GridState) tileSize scale :
  grid_wf g -> cells_known g ->
  let sts := js_round (tileSize * match scale with Some s => s | None => 1 # 4 end) in
  let '(cs, st) := renderMap_composites (toJSON g) (sprites g) tileSize scale None in
  groundTilesRendered st = groundFilled (getStats g)
  /\ objectTilesRendered st = objectsFilled (getStats g)
  /\ exists cg co, cs = cg ++ co
     /\ length cg = groundFilled (getStats g) /\ length co = objectsFilled (getStats g)
     /\ (forall a left top, In (a, left, top) cg ->
           exists x y m, 0 <= x < width g /\ 0 <= y < height g /\ getTile g x y LGround = Some m
             /\ assetId m = a /\ left = x * sts /\ top = y * sts)
     /\ (forall a left top, In (a, left, top) co ->
           exists x y m, 0 <= x < width g /\ 0 <= y < height g /\ getTile g x y LObject = Some m
             /\ assetId m = a /\ left = x * sts /\ top = y * sts).
Proof.
  intros [Hg Ho] Hk sts. unfold renderMap_composites.
  rewrite (bool_decide_eq_true_2 (LNGround ∈ [LNGround; LNObjects])) by (left).
  rewrite (bool_decide_eq_true_2 (LNObjects ∈ [LNGround; LNObjects])) by (right; left).
  cbn [toJSON map_ground map_objects fst snd groundTilesRendered objectTilesRendered].
  assert (Hcg : forall l, layer_wf g l ->
    (processLayer (layer_of g l) (buildSpriteCache_keys (sprites g) (toJSON g)) sts).2
      = layer_filled (getStats g) l).
  { intros l Hl. rewrite layer_filled_concat by exact Hl. apply processLayer_count.
    intros r Hr c Hc. apply (cache_complete g l r c Hk Hr Hc). }
  pose proof (Hcg LGround Hg) as HG. pose proof (Hcg LObject Ho) as HO.
  cbn [layer_of layer_filled toJSON] in HG, HO.
  split; [exact HG|]. split; [exact HO|].
  eexists _, _. split; [reflexivity|].
  rewrite !processLayer_length. split; [exact HG|]. split; [exact HO|].
  split; intros a left top Hin.
  - apply (processLayer_cells g LGround (buildSpriteCache_keys (sprites g) (toJSON g)) sts); [exact Hg|]. exact Hin.
  - apply (processLayer_cells g LObject (buildSpriteCache_keys (sprites g) (toJSON g)) sts); [exact Ho|]. exact Hin.
Qed.

Lemma renderMap_layers_witness :
  grid_wf occupied_grid /\ cells_known occupied_grid /\
  let sts := js_round (256 * match @None Q with Some s => s | None => 1 # 4 end) in
  let '(cs, st) := renderMap_composites (toJSON occupied_grid) (sprites occupied_grid) 256 None None in
  groundTilesRendered st = groundFilled (getStats occupied_grid)
  /\ objectTilesRendered st = objectsFilled (getStats occupied_grid)
  /\ exists cg co, cs = cg ++ co
     /\ length cg = groundFilled (getStats occupied_grid) /\ length co = objectsFilled (getStats occupied_grid)
     /\ (forall a left top, In (a, left, top) cg ->
           exists x y m, 0 <= x < width occupied_grid /\ 0 <= y < height occupied_grid
             /\ getTile occupied_grid x y LGround = Some m
             /\ assetId m = a /\ left = x * sts /\ top = y * sts)
     /\ (forall a left top, In (a, left, top) co ->
           exists x y m, 0 <= x < width occupied_grid /\ 0 <= y < height occupied_grid
             /\ getTile occupied_grid x y LObject = Some m
             /\ assetId m = a /\ left = x * sts /\ top = y * sts).
Proof.
  assert (Hwf : grid_wf occupied_grid) by (vm_compute; repeat split; repeat constructor).
  assert (Hk : cells_known occupied_grid)
    by (intros []; vm_compute; repeat constructor; discriminate).
  split; [exact Hwf|]. split; [exact Hk|].
  exact (renderMap_layers occupied_grid 256 None Hwf Hk).
Defined.

(* ---- *)
Lemma layout_grid_ground_wf : layer_wf layout_grid LGround.
Proof. vm_compute. split; [reflexivity|repeat constructor]. Qed.

Lemma setTile_getTile_witness :
  layer_wf layout_grid LGround /\
  ((exists g', setTile layout_grid 2 2 "sprite_0" LGround = inr g') <->
   (getSprite layout_grid "sprite_0" <> None /\ 0 <= 2 < width layout_grid /\ 0 <= 2 < height layout_grid))
  /\ forall g', setTile layout_grid 2 2 "sprite_0" LGround = inr g' ->
     layer_wf g' LGround /\
     forall x' y' l', getTile g' x' y' l' =
       if bool_decide (l' = LGround /\ x' = 2 /\ y' = 2) then Some (mkMapCell "sprite_0" LGround)
       else getTile layout_grid x' y' l'.
Proof.
  split; [exact layout_grid_ground_wf|].
  exact (setTile_getTile layout_grid 2 2 "sprite_0" LGround layout_grid_ground_wf).
Defined.

Lemma setTile_overwrite_commute_witness :
  setTile layout_grid 2 2 "sprite_0" LGround = inr horizontal_grid
  /\ setTile horizontal_grid 1 1 "sprite_8" LGround = inr two_writes_grid
  /\ (((LGround, 1, 1) = (LGround, 2, 2) -> setTile layout_grid 2 2 "sprite_8" LGround = inr two_writes_grid)
  /\ ((LGround, 1, 1) <> (LGround, 2, 2) ->
      exists g3, setTile layout_grid 1 1 "sprite_8" LGround = inr g3
                 /\ setTile g3 2 2 "sprite_0" LGround = inr two_writes_grid)).
Proof.
  assert (H1 : setTile layout_grid 2 2 "sprite_0" LGround = inr horizontal_grid)
    by (vm_compute; reflexivity).
  assert (H2 : setTile horizontal_grid 1 1 "sprite_8" LGround = inr two_writes_grid)
    by (vm_compute; reflexivity).
  split; [exact H1|]. split; [exact H2|].
  exact (setTile_overwrite_commute layout_grid horizontal_grid two_writes_grid 2 2 "sprite_0" LGround
           1 1 "sprite_8" LGround H1 H2).
Defined.

Lemma getStats_setTile_witness :
  layer_wf layout_grid LGround
  /\ setTile layout_grid 2 2 "sprite_0" LGround = inr horizontal_grid
  /\ totalTiles (getStats horizontal_grid) = totalTiles (getStats layout_grid)
  /\ layer_filled (getStats horizontal_grid) LGround
     = (layer_filled (getStats layout_grid) LGround
        + (if isSome (getTile layout_grid 2 2 LGround) then 0 else 1))%nat
  /\ (forall l', l' <> LGround ->
        layer_filled (getStats horizontal_grid) l' = layer_filled (getStats layout_grid) l').
Proof.
  assert (H1 : setTile layout_grid 2 2 "sprite_0" LGround = inr horizontal_grid)
    by (vm_compute; reflexivity).
  split; [exact layout_grid_ground_wf|]. split; [exact H1|].
  exact (getStats_setTile layout_grid horizontal_grid 2 2 "sprite_0" LGround layout_grid_ground_wf H1).
Defined.

Lemma toASCII_ground_cells_witness :
  (0 <= 2 < width horizontal_grid) /\ (0 <= 2 < height horizontal_grid) /\
  (toASCII horizontal_grid).1 = String.concat newline (groundLines horizontal_grid)
  /\ length (groundLines horizontal_grid) = (Z.to_nat (height horizontal_grid) + 3)%nat
  /\ exists line, groundLines horizontal_grid !! S (Z.to_nat 2) = Some line
     /\ String.length line = (Z.to_nat (width horizontal_grid) + 2)%nat
     /\ String.get (Z.to_nat 2 + 2) line
        = Some (if isRoadAt horizontal_grid 2 2 then "R"
                else match getTile horizontal_grid 2 2 LGround with Some _ => "G" | None => "." end)%char
     /\ (String.get (Z.to_nat 2 + 2) line = Some "R"%char <-> In (2, 2) (getRoadNetwork horizontal_grid)).
Proof.
  assert (Hw : width horizontal_grid = 5) by (vm_compute; reflexivity).
  assert (Hh : height horizontal_grid = 5) by (vm_compute; reflexivity).
  assert (Hx : 0 <= 2 < width horizontal_grid) by lia.
  assert (Hy : 0 <= 2 < height horizontal_grid) by lia.
  split; [exact Hx|]. split; [exact Hy|].
  exact (toASCII_ground_cells horizontal_grid 2 2 Hx Hy).
Defined.

Lemma placeRoad_outcome_witness :
  layer_wf layout_grid LGround /\
  let '(r, (g', t')) := placeRoad 2 2 "sprite_0" layout_grid (mkBudget 0 1) in
  (pr_success r = false /\ g' = layout_grid /\ t' = mkBudget 0 1)
  \/ (pr_success r = true
      /\ rb_tilesPlaced (mkBudget 0 1) < rb_maxTiles (mkBudget 0 1)
      /\ t' = mkBudget (rb_tilesPlaced (mkBudget 0 1) + 1) (rb_maxTiles (mkBudget 0 1))
      /\ (exists s, getSprite layout_grid "sprite_0" = Some s /\ isRoadSprite s = true)
      /\ forall x' y' l', getTile g' x' y' l' =
           if bool_decide (l' = LGround /\ x' = 2 /\ y' = 2) then Some (mkMapCell "sprite_0" LGround)
           else getTile layout_grid x' y' l').
Proof.
  split; [exact layout_grid_ground_wf|].
  exact (placeRoad_outcome 2 2 "sprite_0" layout_grid (mkBudget 0 1) layout_grid_ground_wf).
Defined.


Lemma placeAsset_outcome_witness :
  grid_wf horizontal_grid /\
  let '(r, g') := placeAsset 2 2 "sprite_16" None horizontal_grid in
  (pa_success r = false /\ g' = horizontal_grid)
  \/ (exists s l, r = PAPlaced 2 2 "sprite_16" l /\ getSprite horizontal_grid "sprite_16" = Some s
      /\ l = match @None Layer with Some l => l | None => pl_layer (placement s) end
      /\ (l = LObject -> getTile horizontal_grid 2 2 LGround <> None /\ getTile horizontal_grid 2 2 LObject = None)
      /\ forall x' y' l', getTile g' x' y' l' =
           if bool_decide (l' = l /\ x' = 2 /\ y' = 2) then Some (mkMapCell "sprite_16" l)
           else getTile horizontal_grid x' y' l').
Proof.
  assert (H : grid_wf horizontal_grid) by (vm_compute; repeat split; repeat constructor).
  split; [exact H|].
  exact (placeAsset_outcome 2 2 "sprite_16" None horizontal_grid H).
Defined.
